(** * State merging, call-path aggregation and test-case naming in KLEE

    A shallow embedding of the merge handler ([lib/Core/MergeHandler.cpp]),
    of the call tree, the call-path serializers and the test-case name
    clean-up of the driver ([tools/klee/main.cpp]) and of the
    [klee_make_symbolic_range] intrinsic, with the properties the
    specification states about them; and, beyond these, of the handler's
    life from constructor to destructor, of the files a run leaves behind,
    of test-case bookkeeping and of the driver's small helpers, with
    properties read off the code. *)

From Stdlib Require Import ZArith QArith Lia Field Ascii String DecimalString
  DecimalPos DecimalN SpecFloat.
From stdpp Require Import base option list gmap sets strings sorting.

Local Open Scope Z_scope.
Set Warnings "-register-all".

(** ** Machine integers

    [unsigned] is 32 bits wide, [uint64_t] and [size_t] are 64 bits wide;
    arithmetic on them wraps around. *)

Definition wrap32 (z : Z) : Z := z mod 2 ^ 32.
Definition wrap64 (z : Z) : Z := z mod 2 ^ 64.

(** Strict comparison of two [double]s that hold the rationals [x] and [y]. *)
Definition Qltb (x y : Q) : bool :=
  match Qcompare x y with Lt => true | _ => false end.

(** The arithmetic mean of [ds], and 0 for no values at all. *)
Definition Zsum (ds : list Z) : Z := foldr Z.add 0 ds.
Definition mean (ds : list Z) : Q :=
  match ds with
  | [] => 0%Q
  | _ => (inject_Z (Zsum ds) / inject_Z (Z.of_nat (length ds)))%Q
  end.

(** ** Doubles

    A [double] is an IEEE 754 binary64 number: 53 bits of precision, every
    operation rounded on its own to the nearest value, ties to even (a
    product and a sum are not fused).  The arithmetic is the one of the
    Standard Library's [SpecFloat], which computes on [Z]. *)

Module Double.

Definition double : Type := spec_float.

Definition prec : Z := 53.
Definition emax : Z := 1024.

(** The conversion of an integer, as in [static_cast<double>(n)] and in
    the promotion of an integer operand. *)
Definition of_Z (n : Z) : double := binary_normalize prec emax n 0 false.

Definition add : double -> double -> double := SFadd prec emax.
Definition sub : double -> double -> double := SFsub prec emax.
Definition mul : double -> double -> double := SFmul prec emax.
Definition div : double -> double -> double := SFdiv prec emax.

(** [x < y]; false when either is a NaN. *)
Definition ltb : double -> double -> bool := SFltb.

Definition zero : double := S754_zero false.
Definition nan : double := S754_nan.

(** The value after [x], one unit in the last place up. *)
Definition succ : double -> double := SFsucc prec emax.

(** A decimal literal with one digit after the point, [n / 10] rounded
    once: [1.1] is [tenths 11]. *)
Definition tenths (n : Z) : double := div (of_Z n) (of_Z 10).

(** [std::max(a, b)]: [(a < b) ? b : a]. *)
Definition max (a b : double) : double := if ltb a b then b else a.

End Double.

Module MergeHandler.

(** An [ExecutionState*] and an [llvm::Instruction*] are compared by address
    only; the address is the model of the pointer. *)
Definition ExecutionState := positive.
Definition Instruction := positive.

(** Calls the handler makes back into the interpreter, oldest first. *)
Inductive Call : Type :=
| Merge (peer arrival : ExecutionState) (accepted : bool)
| PauseState (es : ExecutionState)
| TerminateState (es : ExecutionState)
| ContinueState (es : ExecutionState).

(** Modelled from the spec: the declarations of [Executor] and
    [ExecutionState] ([Executor.h], [klee/ExecutionState.h]) are missing.
    The record holds what the handler reads from, and does to, the
    interpreter: [es->steppedInstructions] for every state, the
    [inCloseMerge] set that the interpreter exposes, and the [pauseState],
    [continueState], [terminateState] and [merge] calls received so far. *)
Record Executor : Type := mkExecutor {
  steppedInstructions : ExecutionState -> Z;
  inCloseMerge : gset ExecutionState;
  calls : list Call
}.

Definition record (c : Call) (ex : Executor) : Executor :=
  {| steppedInstructions := steppedInstructions ex;
     inCloseMerge := inCloseMerge ex;
     calls := calls ex ++ [c] |}.

Definition pauseState (ex : Executor) (es : ExecutionState) : Executor :=
  record (PauseState es) ex.
Definition terminateState (ex : Executor) (es : ExecutionState) : Executor :=
  record (TerminateState es) ex.
Definition continueState (ex : Executor) (es : ExecutionState) : Executor :=
  record (ContinueState es) ex.

(** Modelled from the spec: the class declaration ([klee/MergeHandler.h])
    is missing; the fields are the ones [MergeHandler.cpp] uses, with
    [closedStateCount] a [u64] and [closeMean] an [f64].  In this record
    [closeMean] is the rational a finite [double] stands for, which is all
    the comparison in [getPrioritizeState] reads of it, and the update in
    [addClosedState] is written in exact arithmetic.  The update as the
    machine computes it, rounding, infinities and NaN included, is
    [updateStats] below. *)
Record MergeHandler : Type := mkMergeHandler {
  openInstruction : Z;
  openStates : list ExecutionState;
  reachedMergeClose : gmap Instruction (list ExecutionState);
  closedStateCount : Z;
  closeMean : Q;
  refCount : Z
}.

Definition set_openStates (h : MergeHandler) (l : list ExecutionState) :=
  {| openInstruction := openInstruction h; openStates := l;
     reachedMergeClose := reachedMergeClose h;
     closedStateCount := closedStateCount h; closeMean := closeMean h;
     refCount := refCount h |}.

Definition set_reachedMergeClose (h : MergeHandler)
    (m : gmap Instruction (list ExecutionState)) :=
  {| openInstruction := openInstruction h; openStates := openStates h;
     reachedMergeClose := m;
     closedStateCount := closedStateCount h; closeMean := closeMean h;
     refCount := refCount h |}.

Definition set_stats (h : MergeHandler) (n : Z) (m : Q) :=
  {| openInstruction := openInstruction h; openStates := openStates h;
     reachedMergeClose := reachedMergeClose h;
     closedStateCount := n; closeMean := m;
     refCount := refCount h |}.

(** [MergeHandler::getMean] *)
Definition getMean (h : MergeHandler) : Q :=
  if closedStateCount h =? 0 then 0%Q else closeMean h.

(** [MergeHandler::getInstrDistance]: the difference is returned as an
    [unsigned]. *)
Definition getInstrDistance (ex : Executor) (h : MergeHandler)
    (es : ExecutionState) : Z :=
  wrap32 (steppedInstructions ex es - openInstruction h).

(** The test of the loop body of [getPrioritizeState]. *)
Definition prioritized (ex : Executor) (h : MergeHandler)
    (cur_state : ExecutionState) : bool :=
  let stateIsClosed := bool_decide (cur_state ∈ inCloseMerge ex) in
  negb stateIsClosed &&
  Qltb (inject_Z (getInstrDistance ex h cur_state)) (2 * getMean h).

(** [MergeHandler::getPrioritizeState]; [None] is the null pointer. *)
Fixpoint firstPrioritized (ex : Executor) (h : MergeHandler)
    (l : list ExecutionState) : option ExecutionState :=
  match l with
  | [] => None
  | cur_state :: rest =>
      if prioritized ex h cur_state then Some cur_state
      else firstPrioritized ex h rest
  end.

Definition getPrioritizeState (ex : Executor) (h : MergeHandler)
    : option ExecutionState :=
  firstPrioritized ex h (openStates h).

(** [MergeHandler::addOpenState] *)
Definition addOpenState (h : MergeHandler) (es : ExecutionState)
    : MergeHandler :=
  set_openStates h (openStates h ++ [es]).

(** [std::find]: the position of the first element equal to [es]. *)
Fixpoint std_find (es : ExecutionState) (l : list ExecutionState)
    : option nat :=
  match l with
  | [] => None
  | x :: rest =>
      if decide (x = es) then Some 0%nat
      else S <$> std_find es rest
  end.

(** The body of [removeOpenState] on the vector: find, assert, swap with
    the last element, drop the last element.  [None] is the failed
    assertion. *)
Definition swap_and_pop (es : ExecutionState) (l : list ExecutionState)
    : option (list ExecutionState) :=
  match std_find es l with
  | None => None
  | Some it =>
      match l !! it, last l with
      | Some x, Some back =>
          let swapped := <[pred (length l) := x]> (<[it := back]> l) in
          Some (take (pred (length l)) swapped)
      | _, _ => None
      end
  end.

(** [MergeHandler::removeOpenState] *)
Definition removeOpenState (h : MergeHandler) (es : ExecutionState)
    : option MergeHandler :=
  set_openStates h <$> swap_and_pop es (openStates h).

Section Merging.

(** [ExecutionState::merge] belongs to the interpreter.  Its verdict on
    [peer.merge(arrival)] is taken as a function of the executor at the
    time of the call, and every attempt is recorded in [calls]. *)
Variable merge : Executor -> ExecutionState -> ExecutionState -> bool.

(** The loop over the bucket in [addClosedState]; the result is
    [mergedSuccessful]. *)
Fixpoint mergeLoop (ex : Executor) (cpv : list ExecutionState)
    (es : ExecutionState) : bool * Executor :=
  match cpv with
  | [] => (false, ex)
  | mState :: rest =>
      let accepted := merge ex mState es in
      let ex1 := record (Merge mState es accepted) ex in
      if accepted then (true, terminateState ex1 es)
      else mergeLoop ex1 rest es
  end.

(** The executor after the peers in [l] have been offered [es] in turn
    and have all declined, and the test that they do decline. *)
Fixpoint rejections (ex : Executor) (l : list ExecutionState)
    (es : ExecutionState) : Executor :=
  match l with
  | [] => ex
  | q :: rest => rejections (record (Merge q es false) ex) rest es
  end.

Fixpoint rejectsAll (ex : Executor) (l : list ExecutionState)
    (es : ExecutionState) : bool :=
  match l with
  | [] => true
  | q :: rest =>
      negb (merge ex q es) &&
      rejectsAll (record (Merge q es false) ex) rest es
  end.

(** [MergeHandler::addClosedState] *)
Definition addClosedState (ex : Executor) (h : MergeHandler)
    (es : ExecutionState) (mp : Instruction)
    : option (MergeHandler * Executor) :=
  let count := wrap64 (closedStateCount h + 1) in
  let mean :=
    (closeMean h +
     (inject_Z (getInstrDistance ex h es) - closeMean h) / inject_Z count)%Q in
  h1 ← removeOpenState (set_stats h count mean) es;
  match reachedMergeClose h1 !! mp with
  | None =>
      Some (set_reachedMergeClose h1 (<[mp := [es]]> (reachedMergeClose h1)),
            pauseState ex es)
  | Some cpv =>
      let '(mergedSuccessful, ex1) := mergeLoop ex cpv es in
      if mergedSuccessful then Some (h1, ex1)
      else
        Some (set_reachedMergeClose h1
                (<[mp := cpv ++ [es]]> (reachedMergeClose h1)),
              pauseState ex1 es)
  end.

(** One call of the interpreter into the handler. *)
Inductive Op : Type :=
| AddOpenState (es : ExecutionState)
| RemoveOpenState (es : ExecutionState)
| AddClosedState (es : ExecutionState) (mp : Instruction).

(** The interpreter runs between two calls, so every call comes with the
    executor as it is at that moment. *)
Definition step (h : MergeHandler) (c : Executor * Op)
    : option MergeHandler :=
  match c with
  | (_, AddOpenState es) => Some (addOpenState h es)
  | (_, RemoveOpenState es) => removeOpenState h es
  | (ex, AddClosedState es mp) => fst <$> addClosedState ex h es mp
  end.

Fixpoint run (h : MergeHandler) (cs : list (Executor * Op))
    : option MergeHandler :=
  match cs with
  | [] => Some h
  | c :: rest => h1 ← step h c; run h1 rest
  end.

(** The distances [getInstrDistance] yields in the [addClosedState] calls
    of a run, in call order. *)
Fixpoint closedDistances (h : MergeHandler) (cs : list (Executor * Op))
    : list Z :=
  match cs with
  | [] => []
  | c :: rest =>
      let d := match c with
               | (ex, AddClosedState es _) => [getInstrDistance ex h es]
               | _ => []
               end in
      match step h c with
      | Some h1 => d ++ closedDistances h1 rest
      | None => d
      end
  end.

End Merging.

(** Sequences of [addOpenState] and [removeOpenState] calls. *)
Inductive OpenOp : Type :=
| Add (es : ExecutionState)
| Remove (es : ExecutionState).

Definition openStep (h : MergeHandler) (op : OpenOp) : option MergeHandler :=
  match op with
  | Add es => Some (addOpenState h es)
  | Remove es => removeOpenState h es
  end.

Fixpoint openRun (h : MergeHandler) (ops : list OpenOp)
    : option MergeHandler :=
  match ops with
  | [] => Some h
  | op :: rest => h1 ← openStep h op; openRun h1 rest
  end.

(** Removal of the first occurrence that keeps the order of the rest. *)
Fixpoint erase (es : ExecutionState) (l : list ExecutionState)
    : list ExecutionState :=
  match l with
  | [] => []
  | x :: rest => if decide (x = es) then rest else x :: erase es rest
  end.

(** The specification's reading of [openStates]: the states added and not
    yet removed, in the order in which they were added. *)
Fixpoint insertionOrder (l : list ExecutionState) (ops : list OpenOp)
    : list ExecutionState :=
  match ops with
  | [] => l
  | Add es :: rest => insertionOrder (l ++ [es]) rest
  | Remove es :: rest => insertionOrder (erase es l) rest
  end.

(** The caller discipline the specification describes: no [addOpenState]
    of a state that is open already. *)
Fixpoint addsFresh (l : list ExecutionState) (ops : list OpenOp) : bool :=
  match ops with
  | [] => true
  | Add es :: rest =>
      bool_decide (es ∉ l) && addsFresh (l ++ [es]) rest
  | Remove es :: rest =>
      match swap_and_pop es l with
      | Some l1 => addsFresh l1 rest
      | None => true
      end
  end.

(** The constructor.  It initialises every field but [closeMean], whose
    starting value [indeterminate] is whatever the memory held.  The
    registration of the handler in [executor->mergeGroups] is left out. *)
Definition new (ex : Executor) (es : ExecutionState) (indeterminate : Q)
    : MergeHandler :=
  addOpenState
    {| openInstruction := steppedInstructions ex es;
       openStates := [];
       reachedMergeClose := ∅;
       closedStateCount := 0;
       closeMean := indeterminate;
       refCount := 0 |}
    es.

(** *** The statistics in the arithmetic of [double]

    The first two lines of [addClosedState] on the pair of
    [closedStateCount] and [closeMean]: the counter goes up by one; the
    distance, an [unsigned], and the counter are converted to [double];
    the difference, the quotient and the sum are rounded one after the
    other. *)
Definition updateStats (stats : Z * Double.double) (distance : Z)
    : Z * Double.double :=
  let '(closedStateCount, closeMean) := stats in
  let closedStateCount := wrap64 (closedStateCount + 1) in
  (closedStateCount,
   Double.add closeMean
     (Double.div (Double.sub (Double.of_Z distance) closeMean)
                 (Double.of_Z closedStateCount))).

(** [MergeHandler::getMean] on that pair. *)
Definition getMeanDouble (stats : Z * Double.double) : Double.double :=
  if stats.1 =? 0 then Double.zero else stats.2.

(** The pair after the constructor, which sets [closedStateCount] to 0 and
    leaves in [closeMean] what the memory held, and [addClosedState] calls
    with the distances [ds]. *)
Definition statsAfter (indeterminate : Double.double) (ds : list Z)
    : Z * Double.double :=
  fold_left updateStats ds (0, indeterminate).

(** [MergeHandler::hasMergedStates] *)
Definition hasMergedStates (h : MergeHandler) : bool :=
  negb (bool_decide (reachedMergeClose h = ∅)).

(** The entries of [reachedMergeClose] as a loop over the [std::map]
    meets them: by rising key, the address of the close point. *)
Definition keyLe (a b : Instruction * list ExecutionState) : Prop :=
  (a.1 ≤ b.1)%positive.

#[global] Instance keyLe_dec : RelDecision keyLe :=
  λ a b, decide (a.1 ≤ b.1)%positive.

Definition inKeyOrder (m : gmap Instruction (list ExecutionState))
    : list (Instruction * list ExecutionState) :=
  merge_sort keyLe (map_to_list m).

(** The states held in the buckets, in the order [releaseStates] meets
    them. *)
Definition held (h : MergeHandler) : list ExecutionState :=
  concat (snd <$> inKeyOrder (reachedMergeClose h)).

(** [MergeHandler::releaseStates] *)
Definition releaseStates (ex : Executor) (h : MergeHandler)
    : MergeHandler * Executor :=
  (set_reachedMergeClose h ∅, fold_left continueState (held h) ex).

(** [MergeHandler::removeFromCloseMergeSet] *)
Definition removeFromCloseMergeSet (ex : Executor) (es : ExecutionState)
    : Executor :=
  {| steppedInstructions := steppedInstructions ex;
     inCloseMerge := inCloseMerge ex ∖ {[es]};
     calls := calls ex |}.

(** The registry [executor->mergeGroups] of the live handlers, each given
    by its address: the constructor's [push_back(this)], and the first
    three lines of the destructor, which look [this] up, swap it with the
    last entry and drop the last entry.  The destructor does not check
    that it found [this]; [None] is the undefined behaviour of swapping
    with [end()]. *)
Definition MergeHandlerPtr := positive.

Definition registerHandler (this : MergeHandlerPtr)
    (mergeGroups : list MergeHandlerPtr) : list MergeHandlerPtr :=
  mergeGroups ++ [this].

Definition unregisterHandler (this : MergeHandlerPtr)
    (mergeGroups : list MergeHandlerPtr) : option (list MergeHandlerPtr) :=
  swap_and_pop this mergeGroups.

(** [MergeHandler::~MergeHandler] *)
Definition destroy (this : MergeHandlerPtr)
    (mergeGroups : list MergeHandlerPtr) (ex : Executor) (h : MergeHandler)
    : option (list MergeHandlerPtr * (MergeHandler * Executor)) :=
  mergeGroups1 ← unregisterHandler this mergeGroups;
  Some (mergeGroups1, releaseStates ex h).

(** The states the handler asked the interpreter to pause, and to
    continue, oldest first. *)
Definition pausedBy (cs : list Call) : list ExecutionState :=
  omap (λ c, match c with PauseState es => Some es | _ => None end) cs.
Definition continuedBy (cs : list Call) : list ExecutionState :=
  omap (λ c, match c with ContinueState es => Some es | _ => None end) cs.

Section Life.

Variable merge : Executor -> ExecutionState -> ExecutionState -> bool.

(** What happens to a handler and the executor it belongs to: the
    interpreter calls into the handler, the interpreter runs on, which
    moves the instruction counters and the [inCloseMerge] set, and the
    handler releases its states. *)
Inductive Event : Type :=
| Calls (op : Op)
| Interprets (stepped : ExecutionState -> Z) (closing : gset ExecutionState)
| Releases.

Definition happen (s : MergeHandler * Executor) (e : Event)
    : option (MergeHandler * Executor) :=
  let '(h, ex) := s in
  match e with
  | Calls (AddOpenState es) => Some (addOpenState h es, ex)
  | Calls (RemoveOpenState es) => h1 ← removeOpenState h es; Some (h1, ex)
  | Calls (AddClosedState es mp) => addClosedState merge ex h es mp
  | Interprets stepped closing =>
      Some (h, {| steppedInstructions := stepped;
                  inCloseMerge := closing;
                  calls := calls ex |})
  | Releases => Some (releaseStates ex h)
  end.

Fixpoint life (s : MergeHandler * Executor) (es : list Event)
    : option (MergeHandler * Executor) :=
  match es with
  | [] => Some s
  | e :: rest => s1 ← happen s e; life s1 rest
  end.

End Life.

End MergeHandler.

(** ** Call records

    Modelled from the spec: the declarations of [FieldDescr], [CallArg],
    [RetVal], [CallExtraPtr] and [CallInfo] are missing.  The structures
    have the fields [main.cpp] reads, typed as the data model of the
    specification says.  A [ref<Expr>] is a possibly null reference; an
    expression is kept as the text that [operator<<] prints for it.  An
    [llvm::Function*] is a possibly null pointer to a function, kept as
    the function's name. *)

Definition Expr := string.
Definition ref (A : Type) := option A.
Definition Function := string.

Module FieldDescr.
(** Modelled from the spec: [FieldDescr], declared outside [main.cpp].
    [fields] is a [std::map<int, FieldDescr>]: its entries in key order. *)
Inductive t : Type := mk {
  name : string;
  type : string;
  addr : Z;
  doTraceValueIn : bool;
  inVal : ref Expr;
  doTraceValueOut : bool;
  outVal : ref Expr;
  fields : list (Z * t)
}.
End FieldDescr.

Module CallArg.
(** Modelled from the spec: [CallArg], declared outside [main.cpp]. *)
Record t : Type := mk {
  name : string;
  expr : ref Expr;
  isPtr : bool;
  funPtr : option Function;
  pointee : FieldDescr.t
}.
End CallArg.

Module RetVal.
(** Modelled from the spec: [RetVal], declared outside [main.cpp]. *)
Record t : Type := mk {
  expr : ref Expr;
  isPtr : bool;
  funPtr : option Function;
  pointee : FieldDescr.t
}.
End RetVal.

Module CallExtraPtr.
(** Modelled from the spec: [CallExtraPtr], declared outside [main.cpp]. *)
Record t : Type := mk {
  name : string;
  ptr : Z;
  accessibleIn : bool;
  accessibleOut : bool;
  pointee : FieldDescr.t
}.
End CallExtraPtr.

Module CallInfo.
(** Modelled from the spec: [CallInfo], declared outside [main.cpp].
    [callPlace] is kept as the line number [callPlace.getLine()] yields;
    [extraPtrs] is a [std::map<size_t, CallExtraPtr>] in key order. *)
Record t : Type := mk {
  f : option Function;
  callPlace : Z;
  args : list CallArg.t;
  extraPtrs : list (Z * CallExtraPtr.t);
  ret : RetVal.t;
  returned : bool;
  callContext : list (ref Expr);
  returnContext : list (ref Expr)
}.
End CallInfo.

(** The condition of the specification for a dump-time failure: somewhere
    in the call record a value is marked [doTraceValueOut] while its
    [outVal] is null. *)
Fixpoint outValMissing (fd : FieldDescr.t) : bool :=
  (FieldDescr.doTraceValueOut fd && bool_decide (FieldDescr.outVal fd = None))
  || existsb (λ i, outValMissing i.2) (FieldDescr.fields fd).

Definition tracedOutAbsent (ci : CallInfo.t) : bool :=
  existsb (λ arg, outValMissing (CallArg.pointee arg)) (CallInfo.args ci)
  || outValMissing (RetVal.pointee (CallInfo.ret ci))
  || existsb (λ i, outValMissing (CallExtraPtr.pointee i.2))
             (CallInfo.extraPtrs ci).

(** A call record as the tracer is meant to leave it: the callee is known
    and has returned, every argument has its expression, every entry of
    the two contexts is there, and wherever a value is marked as traced,
    in or out, at any depth of a pointee, the value is there. *)
Definition present {A} (r : ref A) : bool :=
  match r with Some _ => true | None => false end.

Fixpoint tracedPresent (fd : FieldDescr.t) : bool :=
  implb (FieldDescr.doTraceValueIn fd) (present (FieldDescr.inVal fd)) &&
  implb (FieldDescr.doTraceValueOut fd) (present (FieldDescr.outVal fd)) &&
  forallb (λ i, tracedPresent i.2) (FieldDescr.fields fd).

Definition complete (ci : CallInfo.t) : bool :=
  present (CallInfo.f ci) && CallInfo.returned ci &&
  forallb (λ arg, present (CallArg.expr arg) &&
                  tracedPresent (CallArg.pointee arg)) (CallInfo.args ci) &&
  tracedPresent (RetVal.pointee (CallInfo.ret ci)) &&
  forallb (λ i, tracedPresent (CallExtraPtr.pointee i.2))
          (CallInfo.extraPtrs ci) &&
  forallb present (CallInfo.callContext ci) &&
  forallb present (CallInfo.returnContext ci).

(** ** Writing to a stream

    A serializer only appends to its [llvm::raw_ostream], so a run of one
    is the text it wrote and the way it ended: it returned a value, an
    [assert] failed, or it dereferenced a null [ref] or a null pointer,
    which is undefined behaviour and the end of the run in the model. *)

Inductive Status (A : Type) : Type :=
| Returned (a : A)
| AssertionFailed
| NullDereference.
Arguments Returned {A} a.
Arguments AssertionFailed {A}.
Arguments NullDereference {A}.

Definition Dump (A : Type) : Type := (Status A * string)%type.

#[global] Instance Dump_ret : MRet Dump := λ A a, (Returned a, "").
#[global] Instance Dump_bind : MBind Dump := λ A B k m,
  match m with
  | (Returned a, w) => let '(r, w1) := k a in (r, w +:+ w1)
  | (AssertionFailed, w) => (AssertionFailed, w)
  | (NullDereference, w) => (NullDereference, w)
  end.

(** [file << s] *)
Definition write (s : string) : Dump unit := (Returned tt, s).
(** [*r] *)
Definition deref {A} (r : ref A) : Dump A :=
  match r with
  | Some a => mret a
  | None => (NullDereference, "")
  end.
(** [assert(b)] *)
Definition assert (b : bool) : Dump unit :=
  if b then mret tt else (AssertionFailed, "").
(** [if (b) body] *)
Definition when (b : bool) (body : Dump unit) : Dump unit :=
  if b then body else mret tt.

(** A loop whose body may make the enclosing function return [false]:
    the body yields [true] to go on. *)
Fixpoint forEachWhile {A} (body : A -> Dump bool) (l : list A) : Dump bool :=
  match l with
  | [] => mret true
  | x :: rest =>
      go_on ← body x;
      if go_on : bool then forEachWhile body rest else mret false
  end.

(** A loop whose body never leaves it. *)
Fixpoint forEach {A} (body : A -> Dump unit) (l : list A) : Dump unit :=
  match l with
  | [] => mret tt
  | x :: rest => body x;; forEach body rest
  end.

(** The texts of [l] one after the other. *)
Definition joined (l : list string) : string := foldr String.append "" l.

Definition nl : string := String (ascii_of_nat 10) EmptyString.
Definition dq : string := String (ascii_of_nat 34) EmptyString.

(** [file << n] for an unsigned number. *)
Definition decimal (n : Z) : string :=
  NilZero.string_of_uint (N.to_uint (Z.to_N n)).

(** ** The plaintext serializer *)

Module Plain.

(** The body of the loop over [arg->pointee.fields] in [dumpCallInfo];
    [false] makes [dumpCallInfo] return [false]. *)
Definition dumpArgField (fd : FieldDescr.t) : Dump bool :=
  write "[";; write (FieldDescr.name fd);; write ":";;
  if FieldDescr.doTraceValueIn fd || FieldDescr.doTraceValueOut fd then
    when (FieldDescr.doTraceValueIn fd)
      (v ← deref (FieldDescr.inVal fd); write v);;
    write "->";;
    if FieldDescr.doTraceValueOut fd &&
       bool_decide (FieldDescr.outVal fd = None)
    then mret false
    else
      when (FieldDescr.doTraceValueOut fd)
        (v ← deref (FieldDescr.outVal fd); write v);;
      write "]";;
      mret true
  else
    write "(...)]";; mret true.

(** What [dumpCallInfo] does for a traced pointee of an argument. *)
Definition dumpArgPointee (p : FieldDescr.t) : Dump bool :=
  write "[";;
  when (FieldDescr.doTraceValueIn p)
    (v ← deref (FieldDescr.inVal p); write v);;
  if FieldDescr.doTraceValueOut p && bool_decide (FieldDescr.outVal p = None)
  then mret false
  else
    write "->";;
    when (FieldDescr.doTraceValueOut p)
      (v ← deref (FieldDescr.outVal p); write v);;
    write "]";;
    forEachWhile (λ i, dumpArgField i.2) (FieldDescr.fields p)
  .

(** The body of the loop over [ci.args]; [is_last] is
    [argIter+1 == end]. *)
Definition dumpArg (arg : CallArg.t) (is_last : bool) : Dump bool :=
  write (CallArg.name arg);; write ":";;
  e ← deref (CallArg.expr arg); write e;;
  go_on ←
    (if CallArg.isPtr arg then
       write "&";;
       match CallArg.funPtr arg with
       | None =>
           if FieldDescr.doTraceValueIn (CallArg.pointee arg) ||
              FieldDescr.doTraceValueOut (CallArg.pointee arg)
           then dumpArgPointee (CallArg.pointee arg)
           else write "[...]";; mret true
       | Some fn => write fn;; mret true
       end
     else mret true);
  if go_on : bool then
    when (negb is_last) (write ",");; mret true
  else mret false.

Fixpoint dumpArgs (args : list CallArg.t) : Dump bool :=
  match args with
  | [] => mret true
  | arg :: rest =>
      go_on ← dumpArg arg (bool_decide (rest = []));
      if go_on : bool then dumpArgs rest else mret false
  end.

(** The body of the loop over [ci.ret.pointee.fields]. *)
Definition dumpRetField (fd : FieldDescr.t) : Dump unit :=
  write "[";; write (FieldDescr.name fd);; write ":";;
  if FieldDescr.doTraceValueOut fd then
    v ← deref (FieldDescr.outVal fd); write v;; write "]"
  else write "(...)]".

Definition dumpRet (r : RetVal.t) : Dump unit :=
  match RetVal.expr r with
  | None => write "[]"
  | Some e =>
      write e;;
      when (RetVal.isPtr r)
        (write "&";;
         match RetVal.funPtr r with
         | None =>
             if FieldDescr.doTraceValueOut (RetVal.pointee r) then
               write "[";;
               v ← deref (FieldDescr.outVal (RetVal.pointee r)); write v;;
               write "]";;
               forEach (λ i, dumpRetField i.2)
                       (FieldDescr.fields (RetVal.pointee r))
             else write "[...]"
         | Some fn => write fn
         end)
  end.

(** The body of the loop over [ci.extraPtrs]; a [ref<Expr>] is printed
    through the expression it refers to. *)
Definition dumpExtraPtr (extra_ptr : CallExtraPtr.t) : Dump unit :=
  write "extra: ";; write (CallExtraPtr.name extra_ptr);; write "&";;
  write (decimal (CallExtraPtr.ptr extra_ptr));; write " = &[";;
  (if FieldDescr.doTraceValueIn (CallExtraPtr.pointee extra_ptr) then
     v ← deref (FieldDescr.inVal (CallExtraPtr.pointee extra_ptr)); write v
   else write "(...)");;
  (if FieldDescr.doTraceValueOut (CallExtraPtr.pointee extra_ptr) then
     write " -> ";;
     v ← deref (FieldDescr.outVal (CallExtraPtr.pointee extra_ptr)); write v
   else write "-> (...)");;
  write "]";; write nl.

(** [dumpCallInfo] *)
Definition dumpCallInfo (ci : CallInfo.t) : Dump bool :=
  write (decimal (CallInfo.callPlace ci));; write ":";;
  fn ← deref (CallInfo.f ci); write fn;; write "(";;
  assert (CallInfo.returned ci);;
  go_on ← dumpArgs (CallInfo.args ci);
  if go_on : bool then
    write ") -> ";;
    dumpRet (CallInfo.ret ci);;
    write nl;;
    forEach (λ i, dumpExtraPtr i.2) (CallInfo.extraPtrs ci);;
    mret true
  else mret false.

End Plain.

(** ** The s-expression serializer *)

Module SExpr.

(** [dumpPointeeInSExpr], with the loop of [dumpFieldsInSExpr] inside. *)
Fixpoint dumpPointeeInSExpr (pointee : FieldDescr.t) : Dump unit :=
  write "((full (";;
  when (FieldDescr.doTraceValueIn pointee)
    (v ← deref (FieldDescr.inVal pointee); write v);;
  write "))";; write nl;; write " (sname (";;
  when (negb (bool_decide (FieldDescr.type pointee = "")))
    (write (FieldDescr.type pointee));;
  write "))";; write nl;;
  (write "(break_down (";;
   forEach (λ i : Z * FieldDescr.t,
      write nl;; write "((fname ";; write dq;;
      write (FieldDescr.name i.2);; write dq;; write ") (value ";;
      dumpPointeeInSExpr i.2;;
      write ") (addr ";; write (decimal (FieldDescr.addr i.2));; write "))")
     (FieldDescr.fields pointee);;
   write "))");;
  write ")".

(** [dumpFieldsInSExpr] *)
Definition dumpFieldsInSExpr (fields : list (Z * FieldDescr.t)) : Dump unit :=
  write "(break_down (";;
  forEach (λ i : Z * FieldDescr.t,
     write nl;; write "((fname ";; write dq;;
     write (FieldDescr.name i.2);; write dq;; write ") (value ";;
     dumpPointeeInSExpr i.2;;
     write ") (addr ";; write (decimal (FieldDescr.addr i.2));; write "))")
    fields;;
  write "))".

(** [dumpPointeeOutSExpr], with the loop of [dumpFieldsOutSExpr] inside. *)
Fixpoint dumpPointeeOutSExpr (pointee : FieldDescr.t) : Dump unit :=
  write "((full (";;
  when (FieldDescr.doTraceValueOut pointee)
    (v ← deref (FieldDescr.outVal pointee); write v);;
  write "))";; write nl;; write " (sname (";;
  when (negb (bool_decide (FieldDescr.type pointee = "")))
    (write (FieldDescr.type pointee));;
  write "))";; write nl;;
  (write "(break_down (";;
   forEach (λ i : Z * FieldDescr.t,
      write nl;; write "((fname ";; write dq;;
      write (FieldDescr.name i.2);; write dq;; write ") (value ";;
      dumpPointeeOutSExpr i.2;;
      write ") (addr ";; write (decimal (FieldDescr.addr i.2));; write " ))")
     (FieldDescr.fields pointee);;
   write "))");;
  write ")".

(** [dumpFieldsOutSExpr] *)
Definition dumpFieldsOutSExpr (fields : list (Z * FieldDescr.t)) : Dump unit :=
  write "(break_down (";;
  forEach (λ i : Z * FieldDescr.t,
     write nl;; write "((fname ";; write dq;;
     write (FieldDescr.name i.2);; write dq;; write ") (value ";;
     dumpPointeeOutSExpr i.2;;
     write ") (addr ";; write (decimal (FieldDescr.addr i.2));; write " ))")
    fields;;
  write "))".

(** [dumpCallArgSExpr] *)
Definition dumpCallArgSExpr (arg : CallArg.t) : Dump bool :=
  write nl;; write "((aname ";; write dq;; write (CallArg.name arg);;
  write dq;; write ")";; write nl;;
  write "(value ";; e ← deref (CallArg.expr arg); write e;;
  write ")";; write nl;;
  write "(ptr ";;
  (if CallArg.isPtr arg then
     match CallArg.funPtr arg with
     | None =>
         if FieldDescr.doTraceValueIn (CallArg.pointee arg) ||
            FieldDescr.doTraceValueOut (CallArg.pointee arg)
         then
           write "(Curioptr";; write nl;;
           write "((before ";;
           dumpPointeeInSExpr (CallArg.pointee arg);;
           write ")";; write nl;;
           write "(after ";;
           dumpPointeeOutSExpr (CallArg.pointee arg);;
           write ")))";; write nl
         else write "Apathptr"
     | Some fn => write "(Funptr ";; write dq;; write fn;; write dq;; write ")"
     end
   else write "Nonptr");;
  write "))";;
  mret true.

(** [dumpRetSExpr] *)
Definition dumpRetSExpr (ret : RetVal.t) : Dump unit :=
  match RetVal.expr ret with
  | None => write "(ret ())"
  | Some e =>
      write "(ret (((value ";; write e;; write ")";; write nl;;
      write "(ptr ";;
      (if RetVal.isPtr ret then
         match RetVal.funPtr ret with
         | None =>
             if FieldDescr.doTraceValueIn (RetVal.pointee ret) ||
                FieldDescr.doTraceValueOut (RetVal.pointee ret)
             then
               write "(Curioptr ((before ((full ()) (break_down ()) (sname ()))) (after ";;
               dumpPointeeOutSExpr (RetVal.pointee ret);;
               write ")))";; write nl
             else write "Apathptr"
         | Some fn =>
             write "(Funptr ";; write dq;; write fn;; write dq;; write ")"
         end
       else write "Nonptr");;
      write "))))";; write nl
  end.

(** [dumpExtraPtrSExpr]; the message on [llvm::errs()] is not part of the
    file. *)
Definition dumpExtraPtrSExpr (cep : CallExtraPtr.t) : Dump bool :=
  write nl;; write "((pname ";; write dq;; write (CallExtraPtr.name cep);;
  write dq;; write ")";; write nl;;
  write "(value ";; write (decimal (CallExtraPtr.ptr cep));; write ")";;
  write nl;;
  write "(ptee ";;
  go_on ←
    (if CallExtraPtr.accessibleIn cep then
       if CallExtraPtr.accessibleOut cep then
         write "(Changing (";;
         dumpPointeeInSExpr (CallExtraPtr.pointee cep);;
         write nl;;
         dumpPointeeOutSExpr (CallExtraPtr.pointee cep);;
         write "))";; write nl;; mret true
       else
         write "(Closing ";;
         dumpPointeeInSExpr (CallExtraPtr.pointee cep);;
         write ")";; write nl;; mret true
     else
       if CallExtraPtr.accessibleOut cep then
         write "(Opening ";;
         dumpPointeeOutSExpr (CallExtraPtr.pointee cep);;
         write ")";; write nl;; mret true
       else mret false);
  if go_on : bool then write "))";; write nl;; mret true else mret false.

(** [dumpCallInfoSExpr]; the result of [dumpExtraPtrSExpr] is dropped. *)
Definition dumpCallInfoSExpr (ci : CallInfo.t) : Dump bool :=
  write "((fun_name ";; write dq;;
  fn ← deref (CallInfo.f ci); write fn;; write dq;; write ")";; write nl;;
  write " (args (";;
  assert (CallInfo.returned ci);;
  go_on ← forEachWhile dumpCallArgSExpr (CallInfo.args ci);
  if go_on : bool then
    write "))";; write nl;;
    write "(extra_ptrs (";;
    forEach (λ i, dumpExtraPtrSExpr i.2;; mret tt) (CallInfo.extraPtrs ci);;
    write "))";; write nl;;
    dumpRetSExpr (CallInfo.ret ci);;
    write "(call_context (";;
    forEach (λ cci, write nl;; e ← deref cci; write e)
            (CallInfo.callContext ci);;
    write "))";; write nl;;
    write "(ret_context (";;
    forEach (λ rci, write nl;; e ← deref rci; write e)
            (CallInfo.returnContext ci);;
    write ")))";; write nl;;
    mret true
  else mret false.

End SExpr.

(** *** Nesting of parentheses

    The nesting depth after a text is read from depth [d]; [None] when a
    closing parenthesis has nothing to close. *)
Fixpoint closes (d : nat) (s : string) : option nat :=
  match s with
  | EmptyString => Some d
  | String c rest =>
      if Ascii.eqb c "(" then closes (S d) rest
      else if Ascii.eqb c ")" then
        match d with
        | O => None
        | S d1 => closes d1 rest
        end
      else closes d rest
  end.

Definition balanced (s : string) : bool :=
  bool_decide (closes 0 s = Some 0%nat).

(** A run that returns takes the depth from [a] to [b], at any depth
    above. *)
Definition moves {A} (a b : nat) (m : Dump A) : Prop :=
  ∀ x w, m = (Returned x, w) ->
    ∀ d, closes (a + d) w = Some (b + d)%nat.

(** Every text of a call record that the serializers copy into the file
    is balanced by itself. *)
Definition balancedRef (r : ref string) : bool :=
  match r with Some e => balanced e | None => true end.

Fixpoint balancedField (fd : FieldDescr.t) : bool :=
  balanced (FieldDescr.name fd) && balanced (FieldDescr.type fd) &&
  balancedRef (FieldDescr.inVal fd) && balancedRef (FieldDescr.outVal fd) &&
  forallb (λ i, balancedField i.2) (FieldDescr.fields fd).

Definition balancedCall (ci : CallInfo.t) : bool :=
  balancedRef (CallInfo.f ci) &&
  forallb (λ arg, balanced (CallArg.name arg) &&
                  balancedRef (CallArg.expr arg) &&
                  balancedRef (CallArg.funPtr arg) &&
                  balancedField (CallArg.pointee arg)) (CallInfo.args ci) &&
  forallb (λ i, balanced (CallExtraPtr.name i.2) &&
                balancedField (CallExtraPtr.pointee i.2))
          (CallInfo.extraPtrs ci) &&
  (balancedRef (RetVal.expr (CallInfo.ret ci)) &&
   balancedRef (RetVal.funPtr (CallInfo.ret ci)) &&
   balancedField (RetVal.pointee (CallInfo.ret ci))) &&
  forallb balancedRef (CallInfo.callContext ci) &&
  forallb balancedRef (CallInfo.returnContext ci).

(** The extra pointers that are accessible neither before nor after the
    call. *)
Definition inaccessible (cep : CallExtraPtr.t) : bool :=
  negb (CallExtraPtr.accessibleIn cep) && negb (CallExtraPtr.accessibleOut cep).

Definition inaccessibleExtraPtrs (ci : CallInfo.t) : nat :=
  length (List.filter (λ i, inaccessible i.2) (CallInfo.extraPtrs ci)).

(** ** The call tree *)

Module CallTree.

Record CallPathTip : Type := mkTip {
  call : CallInfo.t;
  path_id : Z
}.

(** A default-constructed [CallInfo], the tip of the root. *)
Definition noField : FieldDescr.t :=
  FieldDescr.mk "" "" 0 false None false None [].
Definition noCall : CallInfo.t :=
  CallInfo.mk None 0 [] [] (RetVal.mk None false None noField) false [] [].

(** A node owns its children, in the order they were added. *)
Inductive t : Type :=
| Node (tip : CallPathTip) (children : list t).

Definition tip (n : t) : CallPathTip := let 'Node tp _ := n in tp.
Definition children (n : t) : list t := let 'Node _ ch := n in ch.

(** [CallTree()] *)
Definition empty : t := Node (mkTip noCall 0) [].

(** A [CallPathTip*] into the children of a node: the position of the
    child together with the tip found there. *)
Abbreviation TipPtr := (nat * CallPathTip)%type.

Section Predicates.

(** [CallInfo::eq] and [CallInfo::sameInvocation] are defined with
    [CallInfo], outside the driver. *)
Variable eq : CallInfo.t -> CallInfo.t -> bool.
Variable sameInvocation : CallInfo.t -> CallInfo.t -> bool.

(** The search through [children] in [addCallPath], and the [push_back]
    after it; [descend] is the recursive call on the rest of the path. *)
Fixpoint addBelow (descend : t -> t) (head : CallInfo.t) (path_id : Z)
    (children : list t) : list t :=
  match children with
  | [] => [descend (Node (mkTip head path_id) [])]
  | i :: rest =>
      if eq (call (tip i)) head then descend i :: rest
      else i :: addBelow descend head path_id rest
  end.

(** [CallTree::addCallPath] *)
Fixpoint addCallPath (path : list CallInfo.t) (path_id : Z) (n : t) : t :=
  match path with
  | [] => n
  | head :: next =>
      Node (tip n)
           (addBelow (addCallPath next path_id) head path_id (children n))
  end.

(** Insertion of the paths of several terminated states, in order. *)
Definition addCallPaths (paths : list (list CallInfo.t * Z)) (n : t) : t :=
  fold_left (λ n p, addCallPath p.1 p.2 n) paths n.

(** The search of [addCallPath] without the insertion: the first child
    whose tip is [eq] to [head], with its position. *)
Fixpoint findChild (head : CallInfo.t) (children : list t)
    : option (nat * t) :=
  match children with
  | [] => None
  | i :: rest =>
      if eq (call (tip i)) head then Some (0%nat, i)
      else prod_map S id <$> findChild head rest
  end.

(** The nodes a path leads through, each given by its position among its
    siblings; [None] when the path leaves the tree. *)
Fixpoint follow (path : list CallInfo.t) (n : t) : option (list nat) :=
  match path with
  | [] => Some []
  | head :: next =>
      match findChild head (children n) with
      | Some (k, c) => cons k <$> follow next c
      | None => None
      end
  end.

Definition reaches (path : list CallInfo.t) (n : t) : bool :=
  match follow path n with Some _ => true | None => false end.

(** The tips a path leads through, each with its position among its
    siblings; [None] when the path leaves the tree. *)
Fixpoint walk (path : list CallInfo.t) (n : t) : option (list TipPtr) :=
  match path with
  | [] => Some []
  | head :: next =>
      match findChild head (children n) with
      | Some (k, c) => cons (k, tip c) <$> walk next c
      | None => None
      end
  end.

(** The nodes an insertion adds: none while the path follows the tree,
    one for every call from the point where it leaves it. *)
Fixpoint newNodes (p : list CallInfo.t) (n : t) : nat :=
  match p with
  | [] => 0
  | c :: p1 =>
      match findChild c (children n) with
      | Some (_, x) => newNodes p1 x
      | None => length p
      end
  end.

(** Two paths agree call by call; the calls of [q] start [p]. *)
Fixpoint pathEq (p q : list CallInfo.t) : bool :=
  match p, q with
  | [], [] => true
  | a :: p1, b :: q1 => eq a b && pathEq p1 q1
  | _, _ => false
  end.

Fixpoint isPrefixOf (q p : list CallInfo.t) : bool :=
  match q, p with
  | [], _ => true
  | a :: q1, b :: p1 => eq a b && isPrefixOf q1 p1
  | _ :: _, [] => false
  end.

(** No child of a node carries a tip that is [eq] to the tip of a later
    child, in the whole tree. *)
Fixpoint distinctTips (children : list t) : bool :=
  match children with
  | [] => true
  | i :: rest =>
      forallb (λ j, negb (eq (call (tip i)) (call (tip j)))) rest &&
      distinctTips rest
  end.
Fixpoint distinctSiblings (n : t) : bool :=
  let 'Node _ ch := n in
  distinctTips ch && forallb distinctSiblings ch.

(** The inner loop of [groupChildren] with the [push_back] of a new group
    after it.  No group is ever empty, so [ret[gi][0]] exists. *)
Fixpoint place (current : TipPtr) (ret : list (list TipPtr))
    : list (list TipPtr) :=
  match ret with
  | [] => [[current]]
  | g :: rest =>
      match head g with
      | Some first =>
          if sameInvocation (call current.2) (call first.2)
          then (g ++ [current]) :: rest
          else g :: place current rest
      | None => g :: place current rest
      end
  end.

(** What holds of every group while [groupChildren] builds them: it is
    not empty, it lists its tips by rising position, and each of its tips
    is the first one or was found [sameInvocation] to the first one. *)
Definition groupOk (g : list TipPtr) : Prop :=
  g ≠ [] ∧ StronglySorted lt g.*1 ∧
  ∀ first x, head g = Some first -> x ∈ g ->
    x = first ∨ sameInvocation (call x.2) (call first.2) = true.

(** What holds between the groups while [groupChildren] builds them: a
    tip is compared with the first tip of every group before the one it
    goes into, and is [sameInvocation] to none of those. *)
Fixpoint groupsApart (ret : list (list TipPtr)) : Prop :=
  match ret with
  | [] => True
  | g :: rest =>
      (∀ first g' x, head g = Some first -> g' ∈ rest -> x ∈ g' ->
         sameInvocation (call x.2) (call first.2) = false) ∧
      groupsApart rest
  end.

Definition tipPtrs (n : t) : list TipPtr :=
  imap (λ ci c, (ci, tip c)) (children n).

(** [CallTree::groupChildren] *)
Definition groupChildren (n : t) : list (list TipPtr) :=
  fold_left (λ ret current, place current ret) (tipPtrs n) [].

End Predicates.

(** The prefixes of a path that hold a call at least. *)
Fixpoint prefixes {A} (p : list A) : list (list A) :=
  match p with
  | [] => []
  | a :: p1 => [a] :: (cons a <$> prefixes p1)
  end.

(** The elements of [l] up to [same], each kept when nothing kept before
    is [same] to it. *)
Definition keepNew {A} (same : A -> A -> bool) (kept : list A) (x : A)
    : list A :=
  if existsb (same x) kept then kept else kept ++ [x].
Definition distinct {A} (same : A -> A -> bool) (l : list A) : list A :=
  fold_left (keepNew same) l [].

(** Calls for the examples, told apart by callee and line, a predicate
    that compares just these two, and one that compares the callee. *)
Definition callTo (fn : Function) (line : Z) : CallInfo.t :=
  CallInfo.mk (Some fn) line [] [] (RetVal.mk None false None noField)
              true [] [].
Definition sameCallee (a b : CallInfo.t) : bool :=
  bool_decide (CallInfo.f a = CallInfo.f b ∧
               CallInfo.callPlace a = CallInfo.callPlace b).
Definition sameFunction (a b : CallInfo.t) : bool :=
  bool_decide (CallInfo.f a = CallInfo.f b).

(** The number of nodes below the root. *)
Fixpoint size (n : t) : nat :=
  let 'Node _ ch := n in
  list_sum (map (λ c, S (size c)) ch).

(** The calls at the nodes below the root. *)
Fixpoint callsBelow (n : t) : list CallInfo.t :=
  let 'Node _ ch := n in
  flat_map (λ c, call (tip c) :: callsBelow c) ch.

End CallTree.

(** ** The driver's handler *)

Module KleeHandler.

(** Modelled from the spec: [ExecutionState] is declared outside
    [main.cpp]; this is what the call-path code reads of a terminated
    state. *)
Record ExecutionState : Type := mkState {
  callPath : list CallInfo.t;
  constraints : list (ref Expr)
}.

(** The fields of [KleeHandler] the call-path code uses, and the files
    written so far under the output directory, oldest first, each with its
    name and its content. *)
Record t : Type := mk {
  m_callPathIndex : Z;
  m_callPathPrefixIndex : Z;
  m_callTree : CallTree.t;
  files : list (string * string)
}.

(** [std::setfill('0') << std::setw(6) << id] *)
Definition setw6 (id : Z) : string :=
  let digits := decimal id in
  String.concat "" (replicate (6 - String.length digits) "0"%string) +:+ digits.

(** The text [processCallPath] sends to the file it opened. *)
Definition callPathText (state : ExecutionState) : Dump unit :=
  forEachWhile Plain.dumpCallInfo (callPath state);;
  write ";;-- Constraints --";; write nl;;
  forEach (λ ci, e ← deref ci; write e;; write nl) (constraints state).

Section Paths.

Variable eq : CallInfo.t -> CallInfo.t -> bool.
Variable sameInvocation : CallInfo.t -> CallInfo.t -> bool.
(** The command-line options [-dump-call-trace-prefixes] and
    [-dump-call-traces]. *)
Variable DumpCallTracePrefixes DumpCallTraces : bool.
(** [klee_open_output_file] is defined outside [main.cpp].
    [openOutputFile] returns [NULL] when it reports an error, which none
    of its callers here checks: [canOpen filename] tells whether the file
    of that name can be opened, an answer taken not to change during a
    run. *)
Variable canOpen : string -> bool.

(** [KleeHandler::processCallPath].  With [file] null, [*file] is a null
    dereference, in the call of [dumpCallInfo] or, for an empty call path,
    in the write of the constraints header. *)
Definition processCallPath (state : ExecutionState) (kh : t)
    : Status unit * t :=
  let id := m_callPathIndex kh in
  let tree :=
    if DumpCallTracePrefixes
    then CallTree.addCallPath eq (callPath state) id (m_callTree kh)
    else m_callTree kh in
  if negb DumpCallTraces then
    (Returned tt,
     mk (m_callPathIndex kh) (m_callPathPrefixIndex kh) tree (files kh))
  else
    let filename := "call-path" +:+ setw6 id +:+ ".txt" in
    if canOpen filename then
      let '(status, text) := callPathText state in
      (status,
       mk (wrap32 (id + 1)) (m_callPathPrefixIndex kh) tree
          (files kh ++ [(filename, text)]))
    else
      (NullDereference,
       mk (wrap32 (id + 1)) (m_callPathPrefixIndex kh) tree (files kh)).

(** The text of one prefix file of [dumpCallPrefixesSExpr]. *)
Definition prefixText (accumulated_prefix : list CallInfo.t)
    (ti : list CallTree.TipPtr) : Dump unit :=
  write "((history (";; write nl;;
  forEach (λ ai, dumped ← SExpr.dumpCallInfoSExpr ai; assert dumped)
          accumulated_prefix;;
  write "))";; write nl;;
  write "(tip_calls (";; write nl;;
  forEach (λ chi : CallTree.TipPtr,
     write "; id: ";; write (decimal (CallTree.path_id chi.2));;
     write "(";;
     write (decimal (CallInfo.callPlace (CallTree.call chi.2)));;
     write ")";; write nl;;
     dumped ← SExpr.dumpCallInfoSExpr (CallTree.call chi.2);
     assert dumped)
    ti;;
  write ")))";; write nl.

(** The loop over the groups: one file each, through
    [openNextCallPathPrefixFile], which counts up before it opens the
    file; the first write through a null [file] is a null dereference. *)
Fixpoint dumpGroups (accumulated_prefix : list CallInfo.t)
    (tipCalls : list (list CallTree.TipPtr)) (kh : t) : Status unit * t :=
  match tipCalls with
  | [] => (Returned tt, kh)
  | ti :: rest =>
      let id := wrap32 (m_callPathPrefixIndex kh + 1) in
      let filename := "call-prefix" +:+ setw6 id +:+ ".txt" in
      if canOpen filename then
        let '(status, text) := prefixText accumulated_prefix ti in
        let kh1 := mk (m_callPathIndex kh) id (m_callTree kh)
                      (files kh ++ [(filename, text)]) in
        match status with
        | Returned _ => dumpGroups accumulated_prefix rest kh1
        | _ => (status, kh1)
        end
      else
        (NullDereference,
         mk (m_callPathIndex kh) id (m_callTree kh) (files kh))
  end.

(** [CallTree::dumpCallPrefixesSExpr] *)
Fixpoint dumpCallPrefixesSExpr (n : CallTree.t)
    (accumulated_prefix : list CallInfo.t) (kh : t) : Status unit * t :=
  let 'CallTree.Node _ children := n in
  match dumpGroups accumulated_prefix
          (CallTree.groupChildren sameInvocation n) kh with
  | (Returned _, kh1) =>
      (fix loop (cs : list CallTree.t) (kh : t) : Status unit * t :=
         match cs with
         | [] => (Returned tt, kh)
         | ci :: rest =>
             match dumpCallPrefixesSExpr ci
                     (accumulated_prefix ++ [CallTree.call (CallTree.tip ci)])
                     kh with
             | (Returned _, kh2) => loop rest kh2
             | failed => failed
             end
         end) children kh1
  | failed => failed
  end.

(** [KleeHandler::dumpCallPathPrefixes] *)
Definition dumpCallPathPrefixes (kh : t) : Status unit * t :=
  dumpCallPrefixesSExpr (m_callTree kh) [] kh.

(** [processCallPath] for the states of a run in the order in which they
    terminate; a run ends where a call of it does not return. *)
Fixpoint processCallPaths (states : list ExecutionState) (kh : t)
    : Status unit * t :=
  match states with
  | [] => (Returned tt, kh)
  | state :: rest =>
      match processCallPath state kh with
      | (Returned _, kh1) => processCallPaths rest kh1
      | failed => failed
      end
  end.

(** The groups of children in a tree, counted at every node. *)
Fixpoint groupsIn (n : CallTree.t) : nat :=
  let 'CallTree.Node _ children := n in
  (length (CallTree.groupChildren sameInvocation n) +
   list_sum (map groupsIn children))%nat.

End Paths.

(** The names of the files [processCallPath] and
    [openNextCallPathPrefixFile] open for an index. *)
Definition callPathFile (id : Z) : string :=
  "call-path" +:+ setw6 id +:+ ".txt".
Definition callPrefixFile (id : Z) : string :=
  "call-prefix" +:+ setw6 id +:+ ".txt".

(** *** Test case files *)

(** [KleeHandler::getTestFilename] *)
Definition getTestFilename (suffix : string) (id : Z) : string :=
  "test" +:+ setw6 id +:+ "." +:+ suffix.

(** The number a reader finds in a field of decimal digits. *)
Definition readDecimal (s : string) : option Z :=
  (λ d, Z.of_N (N.of_uint d)) <$> NilZero.uint_of_string s.

(** The test of [getKTestFilesInDir] on a path [f]. *)
Definition isKTestFile (f : string) : bool :=
  (6 <=? String.length f)%nat &&
  String.eqb (String.substring (String.length f - 6) (String.length f) f)
             ".ktest".

(** How a function that may call [exit] ends. *)
Inductive Ending (A : Type) : Type :=
| Returns (a : A)
| Exits (code : Z).
Arguments Returns {A} a.
Arguments Exits {A} code.

(** [KleeHandler::getKTestFilesInDir].  The directory is what the
    iterator yields: the paths of the entries it reaches, in its order,
    and whether the walk ended on an error code. *)
Definition getKTestFilesInDir (entries : list string) (ec : bool)
    (results : list string) : Ending (list string) :=
  let results :=
    fold_left (λ results f, if isKTestFile f then results ++ [f] else results)
              entries results in
  if ec then Exits 1 else Returns results.

(** [mask_size] in [processTestCase]: the bytes of the mask of a havoced
    location of [numBytes] bytes, computed in [unsigned]; the mask is an
    array of [mask_size / sizeof(uint32_t)] words. *)
Definition mask_size (numBytes : Z) : Z :=
  wrap32 (wrap32 (numBytes + 31) / 32 * 4).
Definition maskWords (numBytes : Z) : Z := mask_size numBytes / 4.

(** *** Names of symbolic objects in a test case *)

(** [name.rfind("_")]: the position of the last underscore; [None] is
    [std::string::npos]. *)
Fixpoint rfindFrom (i : Z) (found : option Z) (s : string) : option Z :=
  match s with
  | EmptyString => found
  | String c rest =>
      rfindFrom (i + 1) (if Ascii.eqb c "_" then Some i else found) rest
  end.
Definition rfind_underscore (s : string) : option Z := rfindFrom 0 None s.

(** ['0' <= c && c <= '9'] *)
Definition isDigit (c : ascii) : bool :=
  (48 <=? Z.of_N (N_of_ascii c)) && (Z.of_N (N_of_ascii c) <=? 57).

(** The loop that sets [all_digits], with its [unsigned] counter [j].
    [None] is a loop that has not left within [fuel] rounds. *)
Fixpoint allDigitsFrom (fuel : nat) (name : string) (j : Z) : option bool :=
  match fuel with
  | O => None
  | S fuel1 =>
      if j <? Z.of_nat (String.length name) then
        match String.get (Z.to_nat j) name with
        | Some c =>
            if isDigit c then allDigitsFrom fuel1 name (wrap32 (j + 1))
            else Some false
        | None => None
        end
      else Some true
  end.

(** No underscore in [s]; only digits in [s]. *)
Fixpoint noUnderscore (s : string) : bool :=
  match s with
  | EmptyString => true
  | String c rest => negb (Ascii.eqb c "_") && noUnderscore rest
  end.
Fixpoint allDigits (s : string) : bool :=
  match s with
  | EmptyString => true
  | String c rest => isDigit c && allDigits rest
  end.

(** The name [processTestCase] gives the object of a symbolic named
    [first]. *)
Definition objectName (first : string) : option string :=
  let name := first in
  match rfind_underscore first with
  | Some last_underscore =>
      all_digits ← allDigitsFrom (S (String.length name)) name
                     (wrap32 (last_underscore + 1));
      if all_digits : bool
      then Some (String.substring 0 (Z.to_nat last_underscore) name)
      else Some name
  | None => Some name
  end.

(** *** Call records of the scenarios

    A call with a scalar argument only; the call of scenario E5, whose
    pointer argument has a traced pointee without its out-value; a call
    that returns a pointer whose traced pointee lacks its out-value. *)
Definition scalarArg (name : string) (e : Expr) : CallArg.t :=
  CallArg.mk name (Some e) false None CallTree.noField.
Definition scalarRet (e : Expr) : RetVal.t :=
  RetVal.mk (Some e) false None CallTree.noField.
Definition okCall : CallInfo.t :=
  CallInfo.mk (Some "start"%string) 7 [scalarArg "n" "(w32 3)"] []
              (scalarRet "(w32 0)") true [] [].
Definition e5Call : CallInfo.t :=
  CallInfo.mk (Some "recv"%string) 12
    [scalarArg "n" "(w32 3)";
     CallArg.mk "p" (Some "(w64 4096)"%string) true None
       (FieldDescr.mk "" "struct pkt" 4096
          true (Some "(Read w8 0 pkt)"%string) true None [])]
    [] (scalarRet "(w32 0)") true [] [].
Definition retCall : CallInfo.t :=
  CallInfo.mk (Some "alloc"%string) 20 [scalarArg "n" "(w32 3)"] []
    (RetVal.mk (Some "(w64 8192)"%string) true None
       (FieldDescr.mk "" "struct pkt" 8192 false None true None []))
    true [] [].


(** A call that sends a packet: a pointer argument with a traced pointee
    that has one field, and an extra pointer that is accessible before and
    after the call; and the same call with an extra pointer that is
    accessible at neither end. *)
Definition pkt : FieldDescr.t :=
  FieldDescr.mk "" "struct pkt" 4096
    true (Some "(Read w8 0 pkt)"%string) true (Some "(Read w8 0 pkt2)"%string)
    [(0, FieldDescr.mk "len" "uint16_t" 4096
           true (Some "(w16 8)"%string) false None [])].
Definition sendCall : CallInfo.t :=
  CallInfo.mk (Some "send"%string) 31
    [scalarArg "fd" "(w32 3)";
     CallArg.mk "p" (Some "(w64 4096)"%string) true None pkt]
    [(4096, CallExtraPtr.mk "buf" 4096 true true pkt)]
    (scalarRet "(w32 8)") true [Some "(Eq 0 x)"%string] [].
Definition lostCall : CallInfo.t :=
  CallInfo.mk (Some "send"%string) 47
    [scalarArg "fd" "(w32 3)"]
    [(4096, CallExtraPtr.mk "buf" 4096 false false pkt);
     (8192, CallExtraPtr.mk "aux" 8192 false true pkt)]
    (scalarRet "(w32 8)") true [] [].

End KleeHandler.

(** ** The [klee_make_symbolic_range] intrinsic *)

Module SymbolicRange.

(** A byte of memory holds a concrete value or is the [index]-th byte of
    the symbolic object that [klee_make_symbolic] made under the name at
    address [name]. *)
Inductive Byte : Type :=
| Concrete (value : Z)
| Symbolic (name : Z) (index : Z).

(** The calls the intrinsic makes. *)
Inductive Effect : Type :=
| klee_check_memory_access (start nbytes : Z)
| malloc (nbytes result : Z)
| klee_make_symbolic (addr nbytes name : Z)
| memcpy (dest src nbytes : Z)
| free (p : Z).

Record World : Type := mkWorld {
  memory : gmap Z Byte;
  effects : list Effect
}.

Definition did (e : Effect) (w : World) : World :=
  mkWorld (memory w) (effects w ++ [e]).

(** The bytes [klee_make_symbolic] stores at [addr .. addr+nbytes). *)
Definition makeSymbolicBytes (addr nbytes name : Z) (m : gmap Z Byte)
    : gmap Z Byte :=
  foldr (λ i acc, <[addr + i := Symbolic name i]> acc) m (seqZ 0 nbytes).

(** The bytes [memcpy] stores at [dest .. dest+nbytes). *)
Definition copyBytes (dest src nbytes : Z) (m : gmap Z Byte) : gmap Z Byte :=
  foldr (λ i acc, match m !! (src + i) with
                  | Some b => <[dest + i := b]> acc
                  | None => delete (dest + i) acc
                  end) m (seqZ 0 nbytes).

Section Allocator.

(** The address [malloc] hands out; 0 is [NULL]. *)
Variable allocate : World -> Z -> Z.

(** [klee_check_memory_access] is an intrinsic of the interpreter, which
    is outside these sources: [accessible w start nbytes] tells whether it
    finds the [nbytes] bytes at [start] accessible and comes back.  Where
    it does not, the interpreter reports a memory error and the path ends
    at the call, as at a failed assertion. *)
Variable accessible : World -> Z -> Z -> bool.

(** [klee_make_symbolic_range]; [NULL] is address 0.  The result of
    [malloc] is not checked: with a null buffer the run ends in
    [klee_make_symbolic], which is handed the null pointer. *)
Definition klee_make_symbolic_range (addr offset nbytes name : Z) (w : World)
    : Status unit * World :=
  if bool_decide (addr = 0) then (AssertionFailed, w)
  else if bool_decide (name = 0) then (AssertionFailed, w)
  else if nbytes =? 0 then (Returned tt, w)
  else
    let start := wrap64 (addr + offset) in
    let w1 := did (klee_check_memory_access start nbytes) w in
    if negb (accessible w start nbytes) then (AssertionFailed, w1)
    else
      let symbolic_data := allocate w1 nbytes in
      let w2 := did (malloc nbytes symbolic_data) w1 in
      if symbolic_data =? 0 then
        (NullDereference, did (klee_make_symbolic symbolic_data nbytes name) w2)
      else
        let w3 := did (klee_make_symbolic symbolic_data nbytes name)
                      (mkWorld (makeSymbolicBytes symbolic_data nbytes name
                                  (memory w2)) (effects w2)) in
        let w4 := did (memcpy start symbolic_data nbytes)
                      (mkWorld (copyBytes start symbolic_data nbytes
                                  (memory w3))
                               (effects w3)) in
        (Returned tt, did (free symbolic_data) w4).

End Allocator.

End SymbolicRange.

(** ** The driver's own helpers *)

Module Driver.

(** [isspace] in the C locale: the space and the five control characters
    from tab to carriage return. *)
Definition isspace (c : ascii) : bool :=
  let n := nat_of_ascii c in
  (n =? 32)%nat || ((9 <=? n)%nat && (n <=? 13)%nat).

(** [in[i]] for an index inside the string. *)
Definition charAt (s : string) (i : Z) : ascii :=
  default zero (String.get (Z.to_nat i) s).

(** The two loops of [strip] on their [unsigned] counters.  [rounds]
    bounds the rounds left: [lead] starts at 0 and [trail] at [len], so
    each loop has left after [len] rounds, when [lead] has reached [len]
    or [trail] has come down to [lead]. *)
Fixpoint skipLead (rounds : nat) (s : string) (len lead : Z) : Z :=
  match rounds with
  | O => lead
  | S rounds1 =>
      if (lead <? len) && isspace (charAt s lead)
      then skipLead rounds1 s len (wrap32 (lead + 1))
      else lead
  end.

Fixpoint skipTrail (rounds : nat) (s : string) (lead trail : Z) : Z :=
  match rounds with
  | O => trail
  | S rounds1 =>
      if (lead <? trail) && isspace (charAt s (trail - 1))
      then skipTrail rounds1 s lead (wrap32 (trail - 1))
      else trail
  end.

(** [strip] *)
Definition strip (s : string) : string :=
  let len := wrap32 (Z.of_nat (String.length s)) in
  let lead := skipLead (Z.to_nat len) s len 0 in
  let trail := skipTrail (Z.to_nat len) s lead len in
  String.substring (Z.to_nat lead) (Z.to_nat (wrap32 (trail - lead))) s.

(** White space only; white space in front; white space at the end. *)
Fixpoint allSpace (s : string) : bool :=
  match s with
  | EmptyString => true
  | String c rest => isspace c && allSpace rest
  end.
Definition spaceInFront (s : string) : bool :=
  match s with
  | EmptyString => false
  | String c _ => isspace c
  end.
Fixpoint spaceAtEnd (s : string) : bool :=
  match s with
  | EmptyString => false
  | String c EmptyString => isspace c
  | String _ rest => spaceAtEnd rest
  end.

(** The loop of [main] over the lines of the [--environ] file. *)
Definition environItems (lines : list string) : list string :=
  fold_left (λ items line,
               let line := strip line in
               if negb (String.eqb line "") then items ++ [line] else items)
            lines [].

(** [%02ld] for a number that is not negative. *)
Definition pad2 (n : Z) : string :=
  let digits := decimal n in
  String.concat "" (replicate (2 - String.length digits) "0"%string) +:+ digits.

(** The split of [format_tdiff] into days, hours, minutes and seconds,
    with the division and the remainder of C on [long]. *)
Definition tdiff (seconds : Z) : Z * Z * Z * Z :=
  let minutes := Z.quot seconds 60 in
  let seconds := Z.rem seconds 60 in
  let hours := Z.quot minutes 60 in
  let minutes := Z.rem minutes 60 in
  let days := Z.quot hours 24 in
  let hours := Z.rem hours 24 in
  (days, hours, minutes, seconds).

(** [format_tdiff]: the text appended to the buffer. *)
Definition format_tdiff (seconds : Z) : Dump unit :=
  assert (0 <=? seconds);;
  let '(days, hours, minutes, seconds) := tdiff seconds in
  when (0 <? days) (write (decimal days);; write " days, ");;
  write (pad2 hours);; write ":";; write (pad2 minutes);; write ":";;
  write (pad2 seconds).

(** [interrupt_handle]: what a ctrl-c does, given the two globals
    [interrupted] and [theInterpreter], the latter by whether it is set;
    the result carries the new value of [interrupted]. *)
Inductive Reaction : Type :=
| HaltRequested
| Exit (code : Z).

Definition interrupt_handle (interrupted theInterpreter : bool)
    : Reaction * bool :=
  if negb interrupted && theInterpreter then (HaltRequested, true)
  else (Exit 1, interrupted).

(** Ctrl-c pressed again and again, until the process exits: the
    reactions, oldest first.  [theInterpreter] tells for each press
    whether the interpreter has been created by then. *)
Fixpoint interrupts (interrupted : bool) (theInterpreter : list bool)
    : list Reaction :=
  match theInterpreter with
  | [] => []
  | there :: rest =>
      match interrupt_handle interrupted there with
      | (Exit code, _) => [Exit code]
      | (HaltRequested, interrupted1) =>
          HaltRequested :: interrupts interrupted1 rest
      end
  end.

(** *** The watchdog

    One round of the watchdog loop of [main] sees what [waitpid] reports
    and reads the wall clock, once for [time] and, when it escalates, once
    more for the next deadline.  [util::getWallTime] returns a [double],
    [MaxTime] is a [double] option, and the deadlines are computed in
    [double]. *)
Inductive Wait : Type :=
| NoChild
| Interrupted
| WaitFailed
| ChildExited (status : Z)
| StillRunning.

Record Round : Type := mkRound {
  waited : Wait;
  time : Double.double;
  timeAfter : Double.double
}.

Inductive Action : Type :=
| SendINT
| HaltViaGdb
| SendKILL.

(** The loop, from the deadline [nextStep] and the escalation [level]:
    what the watchdog did to the child, oldest first, and how it ended;
    [None] while it is still watching after the rounds given. *)
Fixpoint watch (MaxTime : Double.double) (rounds : list Round)
    (nextStep : Double.double) (level : Z)
    : list Action * option (KleeHandler.Ending Z) :=
  match rounds with
  | [] => ([], None)
  | r :: rest =>
      match waited r with
      | NoChild => ([], Some (KleeHandler.Returns 1))
      | Interrupted => watch MaxTime rest nextStep level
      | WaitFailed => ([], Some (KleeHandler.Exits 1))
      | ChildExited status => ([], Some (KleeHandler.Returns status))
      | StillRunning =>
          if Double.ltb nextStep (time r) then
            let level := level + 1 in
            let nextStep :=
              Double.add (timeAfter r)
                (Double.max (Double.of_Z 15)
                            (Double.mul MaxTime (Double.tenths 1))) in
            if level =? 1 then
              let '(acts, ending) := watch MaxTime rest nextStep level in
              (SendINT :: acts, ending)
            else if level =? 2 then
              let '(acts, ending) := watch MaxTime rest nextStep level in
              (HaltViaGdb :: acts, ending)
            else ([SendKILL], Some (KleeHandler.Returns 1))
          else watch MaxTime rest nextStep level
      end
  end.

(** The watchdog from its start at wall time [start]: the first deadline
    is [util::getWallTime() + MaxTime*1.1], the product rounded, then the
    sum. *)
Definition watchdog (MaxTime start : Double.double) (rounds : list Round)
    : list Action * option (KleeHandler.Ending Z) :=
  watch MaxTime rounds
    (Double.add start (Double.mul MaxTime (Double.tenths 11))) 0.

End Driver.

(** ** Test cases and the output directory *)

Module TestCases.

(** The command-line options [processTestCase] reads. *)
Record Options : Type := mkOptions {
  NoOutput : bool;
  DumpCallTraces : bool;
  WriteKQueries : bool;
  WriteCVCs : bool;
  WriteSMT2s : bool;
  WriteCov : bool;
  WriteTestInfo : bool;
  OptExitOnError : bool;
  StopAfterNTests : Z
}.

(** What [processTestCase] is called with and what the calls it makes
    report: whether [getSymbolicSolution] found a solution, whether
    [kTest_toFile] wrote the test, and the error of the state, if any,
    with the suffix of its file. *)
Record Outcome : Type := mkOutcome {
  success : bool;
  written : bool;
  errorMessage : option string;
  errorSuffix : string
}.

(** The fields of [KleeHandler] that [processTestCase] uses, the two
    writers by whether they are set; the test files made so far, oldest
    first; and whether [setHaltExecution(true)] has been called.  Opening
    an output file is taken to succeed. *)
Record t : Type := mk {
  m_numTotalTests : Z;
  m_numGeneratedTests : Z;
  m_pathWriter : bool;
  m_symPathWriter : bool;
  opened : list string;
  haltExecution : bool
}.

(** [klee_error] does not return. *)
Inductive Ended : Type :=
| Back (h : t)
| KleeError (h : t).

Definition handlerOf (e : Ended) : t :=
  match e with Back h => h | KleeError h => h end.

(** [if (b) openTestFile(suffix, id)], and for the test itself
    [kTest_toFile] on the name with suffix [ktest]. *)
Definition opens (b : bool) (suffix : string) (id : Z) (files : list string)
    : list string :=
  if b then files ++ [KleeHandler.getTestFilename suffix id] else files.

(** [KleeHandler::processTestCase], as far as counters, file names and
    the halt request go. *)
Definition processTestCase (o : Options) (c : Outcome) (h : t) : Ended :=
  let h1 :=
    if NoOutput o then h
    else
      let id := wrap32 (m_numTotalTests h + 1) in
      let generated :=
        if success c && written c then wrap32 (m_numGeneratedTests h + 1)
        else m_numGeneratedTests h in
      let files := opens (success c && written c) "ktest" id (opened h) in
      let files := opens (success c && DumpCallTraces o) "call_path" id files in
      let files := opens (present (errorMessage c)) (errorSuffix c) id files in
      let files := opens (m_pathWriter h) "path" id files in
      let files :=
        opens (present (errorMessage c) || WriteKQueries o) "kquery" id files in
      let files := opens (WriteCVCs o) "cvc" id files in
      let files := opens (WriteSMT2s o) "smt2" id files in
      let files := opens (m_symPathWriter h) "sym.path" id files in
      let files := opens (WriteCov o) "cov" id files in
      let halt := haltExecution h || (generated =? StopAfterNTests o) in
      let files := opens (WriteTestInfo o) "info" id files in
      mk id generated (m_pathWriter h) (m_symPathWriter h) files halt in
  if present (errorMessage c) && OptExitOnError o then KleeError h1
  else Back h1.

(** The test cases of a run in the order in which the interpreter hands
    them over; the run ends at a [klee_error]. *)
Fixpoint processTestCases (o : Options) (cs : list Outcome) (h : t) : Ended :=
  match cs with
  | [] => Back h
  | c :: rest =>
      match processTestCase o c h with
      | Back h1 => processTestCases o rest h1
      | KleeError h1 => KleeError h1
      end
  end.

(** The handler as its constructor leaves it. *)
Definition fresh (pathWriter symPathWriter : bool) : t :=
  mk 0 0 pathWriter symPathWriter [] false.

(** *** The output directory

    What [mkdir] answers for [klee-out-<i>]. *)
Inductive Mkdir : Type :=
| Made
| EEXIST
| Failed.

(** The loop of the constructor over [klee-out-<i>], for [rounds] rounds
    from [i]: the index of the directory made, a [klee_error], or [None]
    when no round has ended the loop. *)
Inductive Chosen : Type :=
| Directory (i : Z)
| CannotCreate.

Fixpoint chooseFrom (mkdir : Z -> Mkdir) (rounds : nat) (i : Z)
    : option Chosen :=
  match rounds with
  | O => None
  | S rounds1 =>
      match mkdir i with
      | Made => Some (Directory i)
      | EEXIST => chooseFrom mkdir rounds1 (i + 1)
      | Failed => Some CannotCreate
      end
  end.

(** The loop as the constructor runs it: from 0, while [i <= INT_MAX]. *)
Definition chooseOutputDirectory (mkdir : Z -> Mkdir) : option Chosen :=
  chooseFrom mkdir (Z.to_nat (2 ^ 31)) 0.

Definition outputDirectoryName (i : Z) : string := "klee-out-" +:+ decimal i.

End TestCases.

(** * Properties *)

Module MergeHandlerProps.
Import MergeHandler.

Lemma std_find_Some es l i :
  std_find es l = Some i ->
  ∃ l1 l2, l = l1 ++ es :: l2 ∧ (es ∉ l1) ∧ length l1 = i.
Proof.
  revert i. induction l as [|x l IH]; intros i H; simpl in H; [done|].
  destruct (decide (x = es)) as [->|Hne].
  - injection H as <-. exists [], l. split_and!; [done|set_solver|done].
  - destruct (std_find es l) as [j|] eqn:Hj; [|done].
    simpl in H. injection H as <-.
    destruct (IH j eq_refl) as (l1 & l2 & -> & Hn & Hlen).
    exists (x :: l1), l2. split_and!; [done| |simpl; lia].
    intros Hin. apply elem_of_cons in Hin as [->|Hin]; [done|by apply Hn].
Qed.

Lemma std_find_None es l : std_find es l = None -> es ∉ l.
Proof.
  induction l as [|x l IH]; simpl; [set_solver|].
  destruct (decide (x = es)) as [->|Hne]; [done|].
  destruct (std_find es l); [done|].
  intros _ Hin. apply elem_of_cons in Hin as [->|Hin]; [done|by apply IH].
Qed.

Lemma std_find_app es l1 l2 :
  es ∉ l1 -> std_find es (l1 ++ es :: l2) = Some (length l1).
Proof.
  induction l1 as [|x l1 IH]; simpl; intros Hn.
  - by rewrite decide_True.
  - rewrite decide_False by set_solver. rewrite IH by set_solver. done.
Qed.

(** What [swap_and_pop] leaves when the state found is the last one. *)
Lemma swap_and_pop_last es l1 :
  es ∉ l1 -> swap_and_pop es (l1 ++ [es]) = Some l1.
Proof.
  intros Hn. unfold swap_and_pop. rewrite std_find_app by done.
  rewrite list_lookup_middle by done. rewrite last_snoc.
  rewrite length_app. simpl.
  replace (pred (length l1 + 1)) with (length l1) by lia.
  rewrite !(insert_app_r_alt l1) by lia. rewrite Nat.sub_diag. simpl.
  by rewrite take_app_length.
Qed.

(** What [swap_and_pop] leaves otherwise: the last state [back] takes the
    place of the state found. *)
Lemma swap_and_pop_inner es l1 l2 back :
  es ∉ l1 ->
  swap_and_pop es (l1 ++ es :: l2 ++ [back]) = Some (l1 ++ back :: l2).
Proof.
  intros Hn. unfold swap_and_pop. rewrite std_find_app by done.
  rewrite list_lookup_middle by done.
  replace (l1 ++ es :: l2 ++ [back]) with ((l1 ++ es :: l2) ++ [back])
    by (by rewrite <- app_assoc).
  rewrite last_snoc. rewrite length_app. simpl.
  replace (pred (length (l1 ++ es :: l2) + 1))
    with (length (l1 ++ es :: l2)) by lia.
  rewrite (insert_app_l (l1 ++ es :: l2))
    by (rewrite length_app; simpl; lia).
  rewrite (insert_app_r_alt l1) by lia. rewrite Nat.sub_diag. simpl.
  rewrite (insert_app_r_alt (l1 ++ back :: l2))
    by (rewrite !length_app; simpl; lia).
  replace (length (l1 ++ es :: l2)) with (length (l1 ++ back :: l2))
    by (rewrite !length_app; simpl; lia).
  by rewrite take_app_length.
Qed.

Lemma swap_and_pop_None es l : swap_and_pop es l = None <-> (es ∉ l).
Proof.
  split.
  - unfold swap_and_pop. destruct (std_find es l) as [i|] eqn:Hf.
    + destruct (std_find_Some _ _ _ Hf) as (l1 & l2 & -> & Hn & <-).
      rewrite list_lookup_middle by done.
      destruct (last (l1 ++ es :: l2)) eqn:Hl; [done|].
      apply last_None in Hl. by destruct l1.
    + intros _. by apply std_find_None.
  - intros Hn. unfold swap_and_pop.
    destruct (std_find es l) as [i|] eqn:Hf; [|done].
    destruct (std_find_Some _ _ _ Hf) as (l1 & l2 & -> & _ & _).
    set_solver.
Qed.

(** Every way [swap_and_pop] can succeed. *)
Lemma swap_and_pop_Some es l l' :
  swap_and_pop es l = Some l' ->
  ∃ l1 l2, l = l1 ++ es :: l2 ∧ (es ∉ l1) ∧
    (l2 = [] ∧ l' = l1 ∨
     ∃ l3 back, l2 = l3 ++ [back] ∧ l' = l1 ++ back :: l3).
Proof.
  intros H.
  destruct (decide (es ∈ l)) as [Hin|Hn];
    [|apply swap_and_pop_None in Hn; congruence].
  assert (∃ i, std_find es l = Some i) as [i Hf].
  { destruct (std_find es l) eqn:Hf; [eauto|].
    by apply std_find_None in Hf. }
  destruct (std_find_Some _ _ _ Hf) as (l1 & l2 & -> & Hn & _).
  exists l1, l2. split_and!; [done..|].
  destruct (decide (l2 = [])) as [->|Hne].
  - left. rewrite swap_and_pop_last in H by done. by injection H as <-.
  - right. destruct (exists_last Hne) as (l3 & back & ->).
    rewrite swap_and_pop_inner in H by done. injection H as <-. eauto.
Qed.

Lemma swap_and_pop_perm es l l' :
  swap_and_pop es l = Some l' -> l ≡ₚ es :: l'.
Proof.
  intros H.
  destruct (swap_and_pop_Some _ _ _ H)
    as (l1 & l2 & -> & _ & [[-> ->]|(l3 & back & -> & ->)]).
  - by rewrite Permutation_app_comm.
  - rewrite <- Permutation_middle. apply perm_skip.
    apply Permutation_app_head.
    rewrite <- Permutation_cons_append. done.
Qed.

Lemma erase_perm es l : es ∈ l -> l ≡ₚ es :: erase es l.
Proof.
  induction l as [|x l IH]; simpl; intros Hin; [set_solver|].
  destruct (decide (x = es)) as [->|Hne]; [done|].
  transitivity (x :: es :: erase es l); [|apply perm_swap].
  apply perm_skip, IH.
  apply elem_of_cons in Hin as [?|?]; [congruence|done].
Qed.

Lemma erase_absent es l : es ∉ l -> erase es l = l.
Proof.
  induction l as [|x l IH]; simpl; intros Hn; [done|].
  rewrite decide_False by set_solver. f_equal. apply IH. set_solver.
Qed.

Lemma erase_Permutation es l l' : l ≡ₚ l' -> erase es l ≡ₚ erase es l'.
Proof.
  intros Hp. destruct (decide (es ∈ l)) as [Hin|Hn].
  - apply (Permutation_cons_inv (a := es)).
    rewrite <- !erase_perm; [done| by rewrite <- Hp |done].
  - rewrite !erase_absent; [done| by rewrite <- Hp |done].
Qed.

Lemma insertionOrder_Permutation ops :
  ∀ l l', l ≡ₚ l' -> insertionOrder l ops ≡ₚ insertionOrder l' ops.
Proof.
  induction ops as [|[es|es] ops IH]; intros l l' Hp; simpl; [done|..].
  - apply IH. by rewrite Hp.
  - apply IH. by apply erase_Permutation.
Qed.

Lemma openRun_Permutation ops :
  ∀ h h', openRun h ops = Some h' ->
  openStates h' ≡ₚ insertionOrder (openStates h) ops.
Proof.
  induction ops as [|[es|es] ops IH]; intros h h' H; simpl in *.
  - by injection H as <-.
  - by apply IH in H.
  - unfold removeOpenState in H.
    destruct (swap_and_pop es (openStates h)) as [l1|] eqn:Hs; [|done].
    simpl in H. apply IH in H. simpl in H. rewrite H.
    apply insertionOrder_Permutation.
    apply swap_and_pop_perm in Hs.
    apply (Permutation_cons_inv (a := es)).
    rewrite <- Hs. apply erase_perm. rewrite Hs. set_solver.
Qed.

Lemma openRun_NoDup ops :
  ∀ h h', NoDup (openStates h) ->
  addsFresh (openStates h) ops = true ->
  openRun h ops = Some h' -> NoDup (openStates h').
Proof.
  induction ops as [|[es|es] ops IH]; intros h h' Hnd Hf H; simpl in *.
  - by injection H as <-.
  - apply andb_prop in Hf as [Hes Hf]. apply bool_decide_eq_true in Hes.
    apply IH in H; [done| |done]. simpl.
    apply NoDup_app. split_and!; [done| |apply NoDup_singleton].
    intros x Hx Hx'. apply list_elem_of_singleton in Hx' as ->. done.
  - unfold removeOpenState in H.
    destruct (swap_and_pop es (openStates h)) as [l1|] eqn:Hs; [|done].
    simpl in H. apply IH in H; [done| |done]. simpl.
    apply swap_and_pop_perm in Hs. rewrite Hs in Hnd.
    by apply NoDup_cons in Hnd as [_ ?].
Qed.

(** The handler with one open state that the counterexamples start from. *)
Lemma new_openStates ex es m0 : openStates (new ex es m0) = [es].
Proof. reflexivity. Qed.

(** C7, as stated, fails: after states 1, 2 and 3 were added in this
    order, removing state 1 leaves 3 before 2, and the prioritizer, with
    both within reach, picks 3 although 2 was added first. *)
Lemma openStates_insertion_order_counterexample :
  let ex := mkExecutor (λ _, 0) ∅ [] in
  let h := set_stats (new ex 1%positive 0%Q) 1 1%Q in
  let ops := [Add 2%positive; Add 3%positive; Remove 1%positive] in
  insertionOrder (openStates h) ops = [2%positive; 3%positive] ∧
  openStates <$> openRun h ops = Some [3%positive; 2%positive] ∧
  getPrioritizeState ex <$> openRun h ops = Some (Some 3%positive) ∧
  ¬ (∀ h ops h', openRun h ops = Some h' ->
       openStates h' = insertionOrder (openStates h) ops).
Proof.
  intros ex h ops. split_and!; [reflexivity..|].
  intros Hall.
  assert (openRun h ops = Some (set_openStates h [3%positive; 2%positive]))
    as Hrun by reflexivity.
  apply Hall in Hrun. discriminate Hrun.
Qed.

(** C7, amended: [removeOpenState] removes the first occurrence of the
    state, lets the last state take its place when it was not the last
    itself, and keeps the order of all others; after any sequence of
    [addOpenState] and [removeOpenState] calls that pass the assertion,
    [openStates] holds the states added and not yet removed, as a
    permutation of their insertion order. *)
Theorem openStates_swap_and_pop h ops h' :
  openRun h ops = Some h' ->
  openStates h' ≡ₚ insertionOrder (openStates h) ops ∧
  ∀ g es g', removeOpenState g es = Some g' ->
    ∃ l1 l2, openStates g = l1 ++ es :: l2 ∧ (es ∉ l1) ∧
      (l2 = [] ∧ openStates g' = l1 ∨
       ∃ l3 back, l2 = l3 ++ [back] ∧ openStates g' = l1 ++ back :: l3).
Proof.
  intros H. split; [by apply openRun_Permutation|].
  intros g es g' Hr. unfold removeOpenState in Hr.
  destruct (swap_and_pop es (openStates g)) as [l|] eqn:Hs; [|done].
  injection Hr as <-. simpl. by apply swap_and_pop_Some.
Qed.

Lemma openStates_swap_and_pop_witness :
  let ex := mkExecutor (λ _, 0) ∅ [] in
  let h := new ex 1%positive 0%Q in
  let ops := [Add 2%positive; Add 3%positive; Remove 1%positive] in
  let h' := set_openStates h [3%positive; 2%positive] in
  openStates h' ≡ₚ insertionOrder (openStates h) ops ∧
  ∀ g es g', removeOpenState g es = Some g' ->
    ∃ l1 l2, openStates g = l1 ++ es :: l2 ∧ (es ∉ l1) ∧
      (l2 = [] ∧ openStates g' = l1 ∨
       ∃ l3 back, l2 = l3 ++ [back] ∧ openStates g' = l1 ++ back :: l3).
Proof.
  intros ex h ops h'.
  apply (openStates_swap_and_pop h ops h'). reflexivity.
Defined.

(** C8, as stated, fails: [addOpenState] asserts nothing, so adding the
    state the handler was built with a second time goes through and
    leaves it in [openStates] twice. *)
Lemma openStates_duplicates_counterexample :
  let ex := mkExecutor (λ _, 0) ∅ [] in
  let h := new ex 1%positive 0%Q in
  openStates <$> openRun h [Add 1%positive] = Some [1%positive; 1%positive] ∧
  ¬ (∀ h ops h', NoDup (openStates h) -> openRun h ops = Some h' ->
       NoDup (openStates h')).
Proof.
  intros ex h. split; [reflexivity|]. intros Hall.
  specialize (Hall h [Add 1%positive] (addOpenState h 1%positive)).
  simpl in Hall. specialize (Hall (NoDup_singleton _) eq_refl).
  apply NoDup_cons in Hall as [Hn _]. apply Hn. set_solver.
Qed.

(** C8, amended: [addOpenState] appends without any check; when no call
    adds a state that is open at that moment, [openStates] stays free of
    duplicates through every sequence of [addOpenState] and
    [removeOpenState] calls that pass the assertion of
    [removeOpenState]. *)
Theorem openStates_NoDup_when_adds_fresh h ops h' :
  NoDup (openStates h) ->
  addsFresh (openStates h) ops = true ->
  openRun h ops = Some h' ->
  NoDup (openStates h') ∧
  ∀ g es, openStates (addOpenState g es) = openStates g ++ [es].
Proof.
  intros Hnd Hf H. split; [by eapply openRun_NoDup|done].
Qed.

Lemma openStates_NoDup_when_adds_fresh_witness :
  let ex := mkExecutor (λ _, 0) ∅ [] in
  let h := new ex 1%positive 0%Q in
  let ops := [Add 2%positive; Add 3%positive; Remove 1%positive;
              Add 1%positive] in
  let h' := set_openStates h [3%positive; 2%positive; 1%positive] in
  NoDup (openStates h') ∧
  ∀ g es, openStates (addOpenState g es) = openStates g ++ [es].
Proof.
  intros ex h ops h'.
  apply (openStates_NoDup_when_adds_fresh h ops h').
  - apply NoDup_singleton.
  - vm_compute. reflexivity.
  - reflexivity.
Defined.

Lemma Qltb_lt x y : Qltb x y = true <-> (x < y)%Q.
Proof.
  unfold Qltb. rewrite Qlt_alt. destruct (x ?= y)%Q; split; congruence.
Qed.






(** Scenario E3: open states at distances 5, 100 and 8 with a mean of 6;
    the state at distance 5 is returned, and the one at distance 8 once
    the first is in [inCloseMerge]. *)
Example getPrioritizeState_E3 :
  let stepped := λ s, match s with
                      | 1%positive => 5 | 2%positive => 100 | _ => 8 end in
  let h := mkMergeHandler 0 [1%positive; 2%positive; 3%positive] ∅ 4 6%Q 0 in
  getPrioritizeState (mkExecutor stepped ∅ []) h = Some 1%positive ∧
  getPrioritizeState (mkExecutor stepped {[1%positive]} []) h
    = Some 3%positive ∧
  getPrioritizeState (mkExecutor stepped {[1%positive; 3%positive]} []) h
    = None.
Proof. split_and!; reflexivity. Qed.

Section Merging.
Variable merge : Executor -> ExecutionState -> ExecutionState -> bool.

Lemma calls_rejections l : ∀ ex es,
  calls (rejections ex l es) = calls ex ++ ((λ q, Merge q es false) <$> l).
Proof.
  induction l as [|q l IH]; intros ex es; simpl.
  - by rewrite app_nil_r.
  - rewrite IH. simpl. by rewrite <- app_assoc.
Qed.

Lemma mergeLoop_reject l : ∀ ex es,
  rejectsAll merge ex l es = true ->
  mergeLoop merge ex l es = (false, rejections ex l es).
Proof.
  induction l as [|q l IH]; intros ex es H; simpl in *; [done|].
  apply andb_prop in H as [Hq H]. apply negb_true_iff in Hq.
  rewrite Hq. by apply IH.
Qed.

Lemma mergeLoop_accept l1 p l2 : ∀ ex es,
  rejectsAll merge ex l1 es = true ->
  merge (rejections ex l1 es) p es = true ->
  mergeLoop merge ex (l1 ++ p :: l2) es =
    (true, terminateState (record (Merge p es true) (rejections ex l1 es)) es).
Proof.
  induction l1 as [|q l1 IH]; intros ex es H Hp; simpl in *.
  - by rewrite Hp.
  - apply andb_prop in H as [Hq H]. apply negb_true_iff in Hq.
    rewrite Hq. by apply IH.
Qed.

(** C1: [addClosedState(s, cp)] offers [s] to the states of the bucket of
    [cp] oldest first; at the first peer whose [merge] accepts, it makes one
    [terminateState(s)] call and leaves the bucket as it was; when every
    peer declines, it appends [s] to the bucket and makes one
    [pauseState(s)] call; when no state has reached [cp] yet, [s] starts the
    bucket and is paused. *)
Theorem addClosedState_merge_rule ex h es mp :
  es ∈ openStates h ->
  ∃ h' ex', addClosedState merge ex h es mp = Some (h', ex') ∧
    match reachedMergeClose h !! mp with
    | None =>
        reachedMergeClose h' = <[mp := [es]]> (reachedMergeClose h) ∧
        calls ex' = calls ex ++ [PauseState es]
    | Some cpv =>
        (∀ l1 p l2, cpv = l1 ++ p :: l2 ->
           rejectsAll merge ex l1 es = true ->
           merge (rejections ex l1 es) p es = true ->
           reachedMergeClose h' = reachedMergeClose h ∧
           calls ex' = calls ex ++ ((λ q, Merge q es false) <$> l1) ++
                       [Merge p es true; TerminateState es]) ∧
        (rejectsAll merge ex cpv es = true ->
           reachedMergeClose h' = <[mp := cpv ++ [es]]> (reachedMergeClose h) ∧
           calls ex' = calls ex ++ ((λ q, Merge q es false) <$> cpv) ++
                       [PauseState es])
    end.
Proof.
  intros Hin. unfold addClosedState, removeOpenState. simpl.
  destruct (swap_and_pop es (openStates h)) as [l|] eqn:Hs.
  2:{ apply swap_and_pop_None in Hs. done. }
  simpl. destruct (reachedMergeClose h !! mp) as [cpv|] eqn:Hcp.
  - destruct (mergeLoop merge ex cpv es) as [merged ex1] eqn:Hloop.
    destruct merged.
    + eexists _, _. split; [done|]. simpl. split.
      * intros l1 p l2 -> Hrej Hacc.
        rewrite mergeLoop_accept in Hloop by done.
        injection Hloop as <-. simpl. rewrite calls_rejections.
        split; [done|]. by rewrite <- !app_assoc.
      * intros Hrej. rewrite mergeLoop_reject in Hloop by done. done.
    + eexists _, _. split; [done|]. simpl. split.
      * intros l1 p l2 -> Hrej Hacc.
        rewrite mergeLoop_accept in Hloop by done. done.
      * intros Hrej. rewrite mergeLoop_reject in Hloop by done.
        injection Hloop as <-. simpl. rewrite calls_rejections.
        split; [done|]. by rewrite <- !app_assoc.
  - eexists _, _. split; [done|]. simpl. done.
Qed.
End Merging.

Lemma addClosedState_merge_rule_witness :
  let merge := λ (_ : Executor) (p _ : ExecutionState),
                 bool_decide (p = 2%positive) in
  let ex := mkExecutor (λ _, 10) ∅ [] in
  let h := mkMergeHandler 0 [4%positive]
             {[7%positive := [1%positive; 2%positive; 3%positive]]} 3 9%Q 0 in
  let es := 4%positive in
  let mp := 7%positive in
  ∃ h' ex', addClosedState merge ex h es mp = Some (h', ex') ∧
    match reachedMergeClose h !! mp with
    | None =>
        reachedMergeClose h' = <[mp := [es]]> (reachedMergeClose h) ∧
        calls ex' = calls ex ++ [PauseState es]
    | Some cpv =>
        (∀ l1 p l2, cpv = l1 ++ p :: l2 ->
           rejectsAll merge ex l1 es = true ->
           merge (rejections ex l1 es) p es = true ->
           reachedMergeClose h' = reachedMergeClose h ∧
           calls ex' = calls ex ++ ((λ q, Merge q es false) <$> l1) ++
                       [Merge p es true; TerminateState es]) ∧
        (rejectsAll merge ex cpv es = true ->
           reachedMergeClose h' = <[mp := cpv ++ [es]]> (reachedMergeClose h) ∧
           calls ex' = calls ex ++ ((λ q, Merge q es false) <$> cpv) ++
                       [PauseState es])
    end.
Proof.
  intros merge ex h es mp.
  apply (addClosedState_merge_rule merge ex h es mp).
  apply list_elem_of_here.
Defined.

(** The three outcomes on a bucket that holds 1, 2 and 3: peer 2 accepts,
    nobody accepts, and a close point that no state has reached. *)
Example addClosedState_outcomes :
  let ex := mkExecutor (λ _, 10) ∅ [] in
  let h := mkMergeHandler 0 [4%positive]
             {[7%positive := [1%positive; 2%positive; 3%positive]]} 3 9%Q 0 in
  let accept2 := λ (_ : Executor) (p _ : ExecutionState),
                   bool_decide (p = 2%positive) in
  let nobody := λ (_ : Executor) (_ _ : ExecutionState), false in
  let outcome := λ merge mp,
    (λ r : MergeHandler * Executor,
       (reachedMergeClose r.1 !! mp, calls r.2))
      <$> addClosedState merge ex h 4%positive mp in
  outcome accept2 7%positive =
    Some (Some [1%positive; 2%positive; 3%positive],
          [Merge 1%positive 4%positive false;
           Merge 2%positive 4%positive true;
           TerminateState 4%positive]) ∧
  outcome nobody 7%positive =
    Some (Some [1%positive; 2%positive; 3%positive; 4%positive],
          [Merge 1%positive 4%positive false;
           Merge 2%positive 4%positive false;
           Merge 3%positive 4%positive false;
           PauseState 4%positive]) ∧
  outcome accept2 8%positive =
    Some (Some [4%positive], [PauseState 4%positive]).
Proof. split_and!; reflexivity. Qed.

Lemma welford_step (m : Q) (S d n : Z) :
  0 <= n -> (n = 0 -> S = 0) ->
  (0 < n -> (m == inject_Z S / inject_Z n)%Q) ->
  (m + (inject_Z d - m) / inject_Z (n + 1) ==
   inject_Z (S + d) / inject_Z (n + 1))%Q.
Proof.
  intros Hn H0 Hm.
  assert (~ (inject_Z (n + 1) == 0)%Q) as Hnz.
  { intros E. unfold Qeq in E; simpl in E; lia. }
  destruct (decide (n = 0)) as [->|Hne].
  - rewrite (H0 eq_refl). change (0 + 1) with 1. change (0 + d) with d.
    change (inject_Z 1) with 1%Q. field.
  - rewrite Hm by lia. rewrite !inject_Z_plus.
    assert (~ (inject_Z n == 0)%Q) as Hnz'.
    { intros E. unfold Qeq in E; simpl in E; lia. }
    rewrite inject_Z_plus in Hnz. field. split; assumption.
Qed.


Section Statistics.
Variable merge : Executor -> ExecutionState -> ExecutionState -> bool.

Lemma addClosedState_stats ex h es mp h' ex' :
  addClosedState merge ex h es mp = Some (h', ex') ->
  closedStateCount h' = wrap64 (closedStateCount h + 1) ∧
  closeMean h' =
    (closeMean h + (inject_Z (getInstrDistance ex h es) - closeMean h) /
                   inject_Z (wrap64 (closedStateCount h + 1)))%Q.
Proof.
  unfold addClosedState, removeOpenState. simpl.
  destruct (swap_and_pop es (openStates h)) as [l|]; [|done]. simpl.
  destruct (reachedMergeClose h !! mp) as [cpv|].
  - destruct (mergeLoop merge ex cpv es) as [[] ex1];
      intros [= <- <-]; done.
  - intros [= <- <-]; done.
Qed.

Lemma Zsum_app l1 l2 : Zsum (l1 ++ l2) = Zsum l1 + Zsum l2.
Proof. induction l1 as [|x l1 IH]; simpl; [done|]. rewrite IH. lia. Qed.

(** The invariant of the statistics: [n] states closed so far, at
    distances that add up to [S]. *)
Lemma run_stats cs : ∀ h h' n S,
  closedStateCount h = n -> 0 <= n -> (n = 0 -> S = 0) ->
  (0 < n -> (closeMean h == inject_Z S / inject_Z n)%Q) ->
  run merge h cs = Some h' ->
  n + Z.of_nat (length (closedDistances merge h cs)) < 2 ^ 64 ->
  let n' := n + Z.of_nat (length (closedDistances merge h cs)) in
  let S' := S + Zsum (closedDistances merge h cs) in
  closedStateCount h' = n' ∧ (n' = 0 -> S' = 0) ∧
  (0 < n' -> (closeMean h' == inject_Z S' / inject_Z n')%Q).
Proof.
  induction cs as [|[ex op] cs IH]; intros h h' n S Hn Hpos HS Hm Hrun Hlt.
  - simpl in *. injection Hrun as <-. rewrite !Z.add_0_r. done.
  - cbn [run closedDistances] in *.
    destruct (step merge h (ex, op)) as [h1|] eqn:Hstep; [|done].
    simpl in Hrun.
    destruct op as [es|es|es mp]; simpl in Hstep.
    + injection Hstep as <-. simpl in *.
      eapply (IH _ _ n S); eauto.
    + unfold removeOpenState in Hstep.
      destruct (swap_and_pop es (openStates h)) as [l|]; [|done].
      injection Hstep as <-. simpl in *.
      eapply (IH _ _ n S); eauto.
    + destruct (addClosedState merge ex h es mp) as [[h2 ex2]|] eqn:Hadd;
        [|done].
      simpl in Hstep. injection Hstep as ->.
      apply addClosedState_stats in Hadd as [Hc Hmean].
      rewrite length_app in Hlt. simpl length in Hlt.
      rewrite Hn in Hc, Hmean. unfold wrap64 in Hc, Hmean.
      rewrite Z.mod_small in Hc, Hmean by lia.
      specialize (IH h1 h' (n + 1) (S + getInstrDistance ex h es)).
      rewrite length_app, Zsum_app. simpl length. simpl Zsum.
      replace (n + Z.of_nat (1 + length (closedDistances merge h1 cs)))
        with (n + 1 + Z.of_nat (length (closedDistances merge h1 cs)))
        by lia.
      replace (S + (getInstrDistance ex h es + 0 +
                    Zsum (closedDistances merge h1 cs)))
        with (S + getInstrDistance ex h es +
              Zsum (closedDistances merge h1 cs)) by lia.
      apply IH; [done|lia|lia| |done|lia].
      intros _. rewrite Hmean. by apply welford_step.
Qed.

(** The update [closeMean += (d - closeMean) / closedStateCount] is the
    right one where no operation rounds: in exact arithmetic, after the
    [addClosedState] calls of a run, made at the distances [d1..dn] that
    [getInstrDistance] yields at each call, [closedStateCount] is [n] and
    [getMean] is [(d1+...+dn)/n], whatever [closeMean] started from.  In
    the arithmetic of [double] the start does matter; see
    [getMean_uninitialised_closeMean]. *)
Theorem getMean_arithmetic_mean ex0 es0 indeterminate cs h :
  run merge (new ex0 es0 indeterminate) cs = Some h ->
  Z.of_nat (length (closedDistances merge (new ex0 es0 indeterminate) cs))
    < 2 ^ 64 ->
  (∀ g, closedStateCount g = 0 -> getMean g = 0%Q) ∧
  closedStateCount h =
    Z.of_nat (length (closedDistances merge (new ex0 es0 indeterminate) cs)) ∧
  (getMean h == mean (closedDistances merge (new ex0 es0 indeterminate) cs))%Q.
Proof.
  intros Hrun Hlt. split.
  { intros g Hg. unfold getMean. by rewrite Hg. }
  pose proof (run_stats cs (new ex0 es0 indeterminate) h 0 0
                eq_refl (Z.le_refl 0) (λ _, eq_refl)) as H.
  destruct H as (Hc & _ & Hm); [lia|done|done|].
  simpl in Hc, Hm. split; [done|].
  unfold getMean, mean. rewrite Hc.
  destruct (closedDistances merge (new ex0 es0 indeterminate) cs) as [|d ds];
    [done|].
  destruct (Z.eqb_spec (Z.of_nat (length (d :: ds))) 0) as [E|_];
    [simpl in E; lia|].
  apply Hm. simpl. lia.
Qed.
End Statistics.

(** Scenario E1: opened at instruction 0, closed at 10 and at 12. *)
Lemma getMean_arithmetic_mean_witness :
  let merge := λ (_ : Executor) (_ _ : ExecutionState), true in
  let at_ := λ (a b : Z),
    mkExecutor (λ s, match s with 1%positive => a | _ => b end) ∅ [] in
  let cs := [(at_ 3 3, AddOpenState 2%positive);
             (at_ 10 7, AddClosedState 1%positive 9%positive);
             (at_ 10 12, AddClosedState 2%positive 9%positive)] in
  let h0 := new (at_ 0 0) 1%positive (5 # 7) in
  (∀ g, closedStateCount g = 0 -> getMean g = 0%Q) ∧
  closedStateCount (default h0 (run merge h0 cs)) =
    Z.of_nat (length (closedDistances merge h0 cs)) ∧
  (getMean (default h0 (run merge h0 cs)) ==
   mean (closedDistances merge h0 cs))%Q.
Proof.
  intros merge at_ cs h0.
  apply (getMean_arithmetic_mean merge (at_ 0 0) 1%positive (5 # 7) cs
           (default h0 (run merge h0 cs))).
  - vm_compute. reflexivity.
  - vm_compute. reflexivity.
Defined.

Example getMean_E1 :
  let merge := λ (_ : Executor) (_ _ : ExecutionState), true in
  let at_ := λ (a b : Z),
    mkExecutor (λ s, match s with 1%positive => a | _ => b end) ∅ [] in
  let cs := [(at_ 3 3, AddOpenState 2%positive);
             (at_ 10 7, AddClosedState 1%positive 9%positive);
             (at_ 10 12, AddClosedState 2%positive 9%positive)] in
  let h0 := new (at_ 0 0) 1%positive (5 # 7) in
  closedDistances merge h0 cs = [10; 12] ∧
  (closedStateCount <$> run merge h0 cs) = Some 2 ∧
  (Qred ∘ getMean <$> run merge h0 cs) = Some 11%Q ∧
  (reachedMergeClose <$> run merge h0 cs) =
    Some {[9%positive := [1%positive]]}.
Proof. split_and!; vm_compute; reflexivity. Qed.

(** *** The statistics in the arithmetic of [double] *)

Lemma updateStats_count stats d :
  (updateStats stats d).1 = wrap64 (stats.1 + 1).
Proof. by destruct stats. Qed.

Lemma sub_nan x : Double.sub x Double.nan = Double.nan.
Proof. by destruct x. Qed.

Lemma div_nan y : Double.div Double.nan y = Double.nan.
Proof. by destruct y. Qed.

Lemma add_nan y : Double.add Double.nan y = Double.nan.
Proof. by destruct y. Qed.

Lemma updateStats_nan n d : (updateStats (n, Double.nan) d).2 = Double.nan.
Proof.
  unfold updateStats. cbn [snd]. by rewrite sub_nan, div_nan, add_nan.
Qed.

Lemma statsAfter_snoc m ds d :
  statsAfter m (ds ++ [d]) = updateStats (statsAfter m ds) d.
Proof. unfold statsAfter. by rewrite fold_left_app. Qed.

Lemma statsAfter_count m ds :
  (statsAfter m ds).1 = wrap64 (Z.of_nat (length ds)).
Proof.
  induction ds as [|d ds IH] using rev_ind; [done|].
  rewrite statsAfter_snoc, updateStats_count, IH, length_app.
  unfold wrap64. rewrite Zplus_mod_idemp_l. f_equal. simpl. lia.
Qed.

Lemma statsAfter_nan ds : (statsAfter Double.nan ds).2 = Double.nan.
Proof.
  induction ds as [|d ds IH] using rev_ind; [done|].
  rewrite statsAfter_snoc.
  destruct (statsAfter Double.nan ds) as [n m]. simpl in IH. subst m.
  apply updateStats_nan.
Qed.

Section Uninitialised.
Variable merge : Executor -> ExecutionState -> ExecutionState -> bool.

(** C2: the mean the code computes depends on what [closeMean] held
    before the first close, and the constructor does not set it.  A
    handler is opened at instruction 0 and one state closes at distance
    5.  Where the memory of [closeMean] held 2^60, [5 - 2^60] rounds to
    [-2^60] and [getMean] is 0, not 5; a second close at distance 7 makes
    it 3.5, not 6.  Where it held a NaN, [getMean] is a NaN after every
    close.  The counter and the case of no close are as the claim has
    them, and from a [closeMean] of 0 the update gives the mean: 5 for one
    close at 5, 11 for closes at 10 and 12, and, with rounding, one unit
    in the last place above 3.5 for closes at 5, 8, 0 and 1. *)
Theorem getMean_uninitialised_closeMean :
  let at_ := λ stepped : Z, mkExecutor (λ _, stepped) ∅ [] in
  let closes := λ d : Z, (at_ d, AddClosedState 1%positive 9%positive) in
  let huge := Double.of_Z (2 ^ 60) in
  (∀ indeterminate,
     closedDistances merge (new (at_ 0) 1%positive indeterminate) [closes 5]
       = [5]) ∧
  getMeanDouble (statsAfter huge [5]) = Double.zero ∧
  getMeanDouble (statsAfter huge [5; 7]) = Double.tenths 35 ∧
  (∀ ds, (statsAfter Double.nan ds).1 ≠ 0 ->
     getMeanDouble (statsAfter Double.nan ds) = Double.nan) ∧
  (∀ indeterminate ds,
     (statsAfter indeterminate ds).1 = wrap64 (Z.of_nat (length ds))) ∧
  (∀ indeterminate,
     getMeanDouble (statsAfter indeterminate []) = Double.zero) ∧
  getMeanDouble (statsAfter Double.zero [5]) = Double.of_Z 5 ∧
  getMeanDouble (statsAfter Double.zero [10; 12]) = Double.of_Z 11 ∧
  getMeanDouble (statsAfter Double.zero [5; 8; 0; 1])
    = Double.succ (Double.tenths 35).
Proof.
  intros at_ closes huge. split_and!.
  - intros indeterminate. reflexivity.
  - vm_compute. reflexivity.
  - vm_compute. reflexivity.
  - intros ds Hn. unfold getMeanDouble.
    destruct (Z.eqb_spec (statsAfter Double.nan ds).1 0); [done|].
    apply statsAfter_nan.
  - intros indeterminate ds. apply statsAfter_count.
  - intros indeterminate. reflexivity.
  - vm_compute. reflexivity.
  - vm_compute. reflexivity.
  - vm_compute. reflexivity.
Qed.
End Uninitialised.

(** ** The open states, the buckets and the states handed back *)

Lemma swap_and_pop_snoc es l : swap_and_pop es (l ++ [es]) = Some l.
Proof.
  destruct (decide (es ∈ l)) as [Hin|Hn]; [|by apply swap_and_pop_last].
  assert (∃ i, std_find es l = Some i) as [i Hf].
  { destruct (std_find es l) eqn:Hf; [eauto|].
    by apply std_find_None in Hf. }
  destruct (std_find_Some _ _ _ Hf) as (l1 & l2 & -> & Hn & _).
  rewrite <- app_assoc. simpl. by rewrite swap_and_pop_inner.
Qed.

(** X1.  [removeOpenState] right after [addOpenState] of the same state
    gives the handler back as it was, whether or not the state was open
    before: the state found is swapped with the copy just pushed. *)
Theorem removeOpenState_undoes_addOpenState h es :
  removeOpenState (addOpenState h es) es = Some h.
Proof.
  unfold removeOpenState, addOpenState. simpl.
  rewrite swap_and_pop_snoc. simpl. by destruct h.
Qed.

(** X2.  [removeOpenState] stops at its assertion exactly when the state
    is not open.  Otherwise it takes out one occurrence of the state and
    nothing else: the open states before are the ones after plus the state,
    and the buckets and the counter are as they were. *)
Theorem removeOpenState_asserts_open h es :
  match removeOpenState h es with
  | None => es ∉ openStates h
  | Some h' =>
      es ∈ openStates h ∧
      openStates h ≡ₚ es :: openStates h' ∧
      S (length (openStates h')) = length (openStates h) ∧
      reachedMergeClose h' = reachedMergeClose h ∧
      closedStateCount h' = closedStateCount h
  end.
Proof.
  unfold removeOpenState.
  destruct (swap_and_pop es (openStates h)) as [l|] eqn:E; simpl.
  - apply swap_and_pop_perm in E. split_and!; [|done| |done..].
    + rewrite E. apply list_elem_of_here.
    + by rewrite E.
  - by apply swap_and_pop_None.
Qed.

Lemma getInstrDistance_range ex h es :
  0 <= getInstrDistance ex h es < 2 ^ 32.
Proof. unfold getInstrDistance, wrap32. apply Z.mod_pos_bound. lia. Qed.

(** X3.  Before the first [addClosedState], [getPrioritizeState] returns
    the null pointer whatever states are open: the mean is read as 0 and no
    [unsigned] distance is below twice 0. *)
Theorem getPrioritizeState_none_before_first_close ex h :
  closedStateCount h = 0 -> getPrioritizeState ex h = None.
Proof.
  intros H0. unfold getPrioritizeState.
  induction (openStates h) as [|s l IH]; [done|].
  simpl. rewrite IH.
  assert (prioritized ex h s = false) as ->; [|done].
  unfold prioritized, getMean. rewrite H0. simpl.
  apply andb_false_iff. right.
  destruct (Qltb _ _) eqn:E; [|done].
  apply Qltb_lt in E.
  pose proof (getInstrDistance_range ex h s) as [Hd _].
  exfalso. revert E. unfold Qlt. simpl. lia.
Qed.

Lemma getPrioritizeState_none_before_first_close_witness :
  let ex := mkExecutor (λ _, 3) ∅ [] in
  getPrioritizeState ex (addOpenState (new ex 1%positive (5 # 7)) 2%positive)
    = None.
Proof.
  intros ex.
  apply (getPrioritizeState_none_before_first_close ex
           (addOpenState (new ex 1%positive (5 # 7)) 2%positive)).
  reflexivity.
Defined.

(** X9.  [removeFromCloseMergeSet] can change the answer of
    [getPrioritizeState] to the state it erased and to nothing else. *)
Theorem removeFromCloseMergeSet_frees_one_state ex h es :
  getPrioritizeState (removeFromCloseMergeSet ex es) h
    = getPrioritizeState ex h
  ∨ getPrioritizeState (removeFromCloseMergeSet ex es) h = Some es.
Proof.
  unfold getPrioritizeState.
  induction (openStates h) as [|s l IH]; [by left|].
  simpl. destruct (decide (s = es)) as [->|Hne].
  - destruct (prioritized (removeFromCloseMergeSet ex es) h es) eqn:E1;
      [by right|].
    assert (prioritized ex h es = false) as ->; [|done].
    unfold prioritized in *. simpl in *.
    apply andb_false_iff in E1 as [E1|E1].
    + apply negb_false_iff, bool_decide_eq_true in E1.
      apply elem_of_difference in E1 as [_ E1].
      exfalso. apply E1. by apply elem_of_singleton.
    + unfold getInstrDistance in *. simpl in *. rewrite E1.
      apply andb_false_r.
  - assert (prioritized (removeFromCloseMergeSet ex es) h s
            = prioritized ex h s) as ->.
    + unfold prioritized, getInstrDistance. simpl. f_equal. f_equal.
      apply bool_decide_ext. rewrite elem_of_difference, elem_of_singleton.
      split; [by intros [? _]|by intros ?; split].
    + destruct (prioritized ex h s); [by left|done].
Qed.

(** X8.  The destructor of the handler registered last leaves
    [executor->mergeGroups] as it was before the constructor ran and
    releases the states; and whenever the destructor finds its handler, the
    other handlers stay registered, in some order. *)
Theorem destroy_undoes_registration this mergeGroups ex h :
  destroy this (registerHandler this mergeGroups) ex h
    = Some (mergeGroups, releaseStates ex h) ∧
  match unregisterHandler this mergeGroups with
  | Some rest => mergeGroups ≡ₚ this :: rest
  | None => this ∉ mergeGroups
  end.
Proof.
  split.
  - unfold destroy, unregisterHandler, registerHandler.
    by rewrite swap_and_pop_snoc.
  - unfold unregisterHandler.
    destruct (swap_and_pop this mergeGroups) eqn:E.
    + by apply swap_and_pop_perm.
    + by apply swap_and_pop_None.
Qed.

Lemma pausedBy_app a b : pausedBy (a ++ b) = pausedBy a ++ pausedBy b.
Proof. apply omap_app. Qed.

Lemma continuedBy_app a b :
  continuedBy (a ++ b) = continuedBy a ++ continuedBy b.
Proof. apply omap_app. Qed.

Lemma held_Permutation h :
  held h ≡ₚ concat (snd <$> map_to_list (reachedMergeClose h)).
Proof.
  unfold held, inKeyOrder.
  by rewrite (merge_sort_Permutation keyLe (map_to_list _)).
Qed.

Lemma held_insert_fresh h mp v :
  reachedMergeClose h !! mp = None ->
  held (set_reachedMergeClose h (<[mp := v]> (reachedMergeClose h)))
  ≡ₚ v ++ held h.
Proof.
  intros Hn. rewrite !held_Permutation. simpl.
  rewrite map_to_list_insert by done. done.
Qed.

Lemma held_insert_over h mp cpv es :
  reachedMergeClose h !! mp = Some cpv ->
  held (set_reachedMergeClose h (<[mp := cpv ++ [es]]> (reachedMergeClose h)))
  ≡ₚ es :: held h.
Proof.
  intros Hs. rewrite !held_Permutation. simpl.
  rewrite <- (insert_delete_id (reachedMergeClose h) mp cpv) at 2 by done.
  rewrite <- insert_delete_eq.
  rewrite !map_to_list_insert by apply lookup_delete_eq.
  simpl. rewrite <- app_assoc. simpl.
  by rewrite <- Permutation_middle.
Qed.

Lemma held_empty h : reachedMergeClose h = ∅ -> held h = [].
Proof. unfold held. intros ->. done. Qed.

Lemma concat_nil_elem {A} (ls : list (list A)) l :
  concat ls = [] -> l ∈ ls -> l = [].
Proof.
  induction ls as [|x ls IH]; simpl; intros E Hin.
  - by apply elem_of_nil in Hin.
  - apply app_eq_nil in E as [-> E].
    apply elem_of_cons in Hin as [->|Hin]; [done|by apply IH].
Qed.

Lemma fold_continueState l : ∀ ex,
  calls (fold_left continueState l ex) = calls ex ++ (ContinueState <$> l).
Proof.
  induction l as [|x l IH]; intros ex; simpl; [by rewrite app_nil_r|].
  rewrite IH. simpl. by rewrite <- app_assoc.
Qed.

Lemma pausedBy_continues l : pausedBy (ContinueState <$> l) = [].
Proof. by induction l. Qed.

Lemma continuedBy_continues l : continuedBy (ContinueState <$> l) = l.
Proof. induction l as [|x l IH]; [done|]. simpl. f_equal. exact IH. Qed.

Lemma releaseStates_calls ex h :
  calls (releaseStates ex h).2 = calls ex ++ (ContinueState <$> held h) ∧
  reachedMergeClose (releaseStates ex h).1 = ∅ ∧
  openStates (releaseStates ex h).1 = openStates h.
Proof. unfold releaseStates. simpl. by rewrite fold_continueState. Qed.

Section Life.
Variable merge : Executor -> ExecutionState -> ExecutionState -> bool.

Lemma mergeLoop_calls cpv : ∀ ex es b ex1,
  mergeLoop merge ex cpv es = (b, ex1) ->
  pausedBy (calls ex1) = pausedBy (calls ex) ∧
  continuedBy (calls ex1) = continuedBy (calls ex).
Proof.
  induction cpv as [|p cpv IH]; intros ex es b ex1 H; simpl in H.
  - by injection H as <- <-.
  - destruct (merge ex p es).
    + injection H as <- <-. simpl.
      rewrite !pausedBy_app, !continuedBy_app. simpl.
      by rewrite !app_nil_r.
    + apply IH in H as [-> ->]. simpl.
      rewrite pausedBy_app, continuedBy_app. simpl.
      by rewrite !app_nil_r.
Qed.

(** Every way [addClosedState] can return. *)
Lemma addClosedState_Some ex h es mp h' ex' :
  addClosedState merge ex h es mp = Some (h', ex') ->
  ∃ l, swap_and_pop es (openStates h) = Some l ∧
    openStates h' = l ∧
    closedStateCount h' = wrap64 (closedStateCount h + 1) ∧
    continuedBy (calls ex') = continuedBy (calls ex) ∧
    (reachedMergeClose h' = reachedMergeClose h ∧
       is_Some (reachedMergeClose h !! mp) ∧
       pausedBy (calls ex') = pausedBy (calls ex)
     ∨ reachedMergeClose h' =
         <[mp := default [] (reachedMergeClose h !! mp) ++ [es]]>
           (reachedMergeClose h) ∧
       pausedBy (calls ex') = pausedBy (calls ex) ++ [es]).
Proof.
  unfold addClosedState, removeOpenState. simpl.
  destruct (swap_and_pop es (openStates h)) as [l|]; [|done]. simpl.
  intros H. exists l. split; [done|].
  destruct (reachedMergeClose h !! mp) as [cpv|] eqn:Hb.
  - destruct (mergeLoop merge ex cpv es) as [b ex1] eqn:Hl.
    apply mergeLoop_calls in Hl as [Hp Hc].
    destruct b; injection H as <- <-; simpl.
    + split_and!; [done..|]. left. split_and!; [done|by eexists|done].
    + rewrite pausedBy_app, continuedBy_app. simpl. rewrite app_nil_r.
      split_and!; [done..|]. right. split; [done|]. by rewrite Hp.
  - injection H as <- <-. simpl.
    rewrite pausedBy_app, continuedBy_app. simpl. rewrite app_nil_r.
    split_and!; [done..|]. right. done.
Qed.

Lemma addClosedState_None ex h es mp :
  addClosedState merge ex h es mp = None <-> (es ∉ openStates h).
Proof.
  rewrite <- swap_and_pop_None.
  unfold addClosedState, removeOpenState. simpl.
  destruct (swap_and_pop es (openStates h)) as [l|]; simpl; [|done].
  destruct (reachedMergeClose h !! mp) as [cpv|].
  - destruct (mergeLoop merge ex cpv es) as [[] ex1]; split; done.
  - split; done.
Qed.

(** X4.  [addClosedState] stops at the assertion of [removeOpenState]
    exactly when the state is not open.  When it returns, one occurrence of
    the state has left the open states, the counter has gone up by one, and
    [hasMergedStates] holds: the bucket of the close point existed or has
    just been made. *)
Theorem addClosedState_closes_open_state ex h es mp :
  match addClosedState merge ex h es mp with
  | None => es ∉ openStates h
  | Some (h', ex') =>
      es ∈ openStates h ∧
      openStates h ≡ₚ es :: openStates h' ∧
      closedStateCount h' = wrap64 (closedStateCount h + 1) ∧
      hasMergedStates h' = true
  end.
Proof.
  destruct (addClosedState merge ex h es mp) as [[h' ex']|] eqn:H;
    [|by apply (addClosedState_None ex h es mp)].
  destruct (addClosedState_Some _ _ _ _ _ _ H)
    as (l & Hl & -> & Hn & _ & Hb).
  apply swap_and_pop_perm in Hl.
  split_and!; [|done..|].
  - rewrite Hl. apply list_elem_of_here.
  - unfold hasMergedStates. rewrite bool_decide_eq_false_2; [done|].
    destruct Hb as [(-> & [cpv Hs] & _)|[-> _]].
    + intros E. rewrite E in Hs. by rewrite lookup_empty in Hs.
    + apply insert_non_empty.
Qed.

(** X5.  When no state is open twice, a state that [addClosedState] has
    taken is open no longer, and still no state is open twice. *)
Theorem addClosedState_state_no_longer_open ex h es mp h' ex' :
  NoDup (openStates h) ->
  addClosedState merge ex h es mp = Some (h', ex') ->
  (es ∉ openStates h') ∧ NoDup (openStates h').
Proof.
  intros Hnd H.
  destruct (addClosedState_Some _ _ _ _ _ _ H) as (l & Hl & -> & _).
  apply swap_and_pop_perm in Hl. rewrite Hl in Hnd.
  by apply NoDup_cons in Hnd.
Qed.

Lemma happen_outstanding s e s' :
  happen merge s e = Some s' ->
  pausedBy (calls s.2) ≡ₚ continuedBy (calls s.2) ++ held s.1 ->
  pausedBy (calls s'.2) ≡ₚ continuedBy (calls s'.2) ++ held s'.1.
Proof.
  destruct s as [h ex].
  destruct e as [[es|es|es mp]| |]; simpl; intros H Hinv.
  - by injection H as <-.
  - unfold removeOpenState in H.
    destruct (swap_and_pop es (openStates h)); [|done].
    by injection H as <-.
  - destruct s' as [h' ex'].
    destruct (addClosedState_Some _ _ _ _ _ _ H)
      as (l & _ & _ & _ & Hc & Hb). simpl. rewrite Hc.
    destruct Hb as [(Hm & _ & ->)|[Hm ->]].
    + rewrite Hinv. unfold held. by rewrite Hm.
    + rewrite Hinv. rewrite <- app_assoc. apply Permutation_app_head.
      replace h' with (set_reachedMergeClose h'
        (<[mp := default [] (reachedMergeClose h !! mp) ++ [es]]>
           (reachedMergeClose h))) by (rewrite <- Hm; by destruct h').
      assert (∀ m, held (set_reachedMergeClose h' m)
                   = held (set_reachedMergeClose h m)) as -> by done.
      destruct (reachedMergeClose h !! mp) as [cpv|] eqn:Hb; simpl.
      * rewrite held_insert_over by done.
        symmetry. apply Permutation_cons_append.
      * rewrite held_insert_fresh by done. apply Permutation_app_comm.
  - by injection H as <-.
  - injection H as <-.
    destruct (releaseStates_calls ex h) as (-> & Hm & _).
    rewrite pausedBy_app, continuedBy_app, pausedBy_continues,
      continuedBy_continues, app_nil_r.
    rewrite (held_empty _ Hm), app_nil_r. done.
Qed.

Lemma life_outstanding evs : ∀ s s',
  life merge s evs = Some s' ->
  pausedBy (calls s.2) ≡ₚ continuedBy (calls s.2) ++ held s.1 ->
  pausedBy (calls s'.2) ≡ₚ continuedBy (calls s'.2) ++ held s'.1.
Proof.
  induction evs as [|e evs IH]; intros s s' H Hinv; simpl in H.
  - by injection H as <-.
  - destruct (happen merge s e) as [s1|] eqn:E; [|done]. simpl in H.
    eapply IH; [done|]. by eapply happen_outstanding.
Qed.

(** X6.  Pause and continue balance.  Start from a fresh handler and an
    executor in which every paused state has been continued, and let calls
    into the handler, steps of the interpreter and releases follow in any
    order.  Then the states paused and not yet continued are the states in
    the buckets, each as often as it was paused; after [releaseStates]
    every paused state has been continued exactly as often as it was
    paused, and [hasMergedStates] is false. *)
Theorem releaseStates_continues_what_was_paused
    ex0 es0 indeterminate evs h ex :
  pausedBy (calls ex0) ≡ₚ continuedBy (calls ex0) ->
  life merge (new ex0 es0 indeterminate, ex0) evs = Some (h, ex) ->
  pausedBy (calls ex) ≡ₚ continuedBy (calls ex) ++ held h ∧
  pausedBy (calls (releaseStates ex h).2)
    ≡ₚ continuedBy (calls (releaseStates ex h).2) ∧
  hasMergedStates (releaseStates ex h).1 = false.
Proof.
  intros H0 H.
  assert (pausedBy (calls ex) ≡ₚ continuedBy (calls ex) ++ held h) as Hinv.
  { apply (life_outstanding _ _ _ H). simpl. by rewrite app_nil_r. }
  split; [done|].
  destruct (releaseStates_calls ex h) as (-> & Hm & _).
  split.
  - rewrite pausedBy_app, continuedBy_app, pausedBy_continues,
      continuedBy_continues, app_nil_r. done.
  - unfold hasMergedStates. rewrite Hm. done.
Qed.

Lemma happen_buckets_filled s e s' :
  happen merge s e = Some s' ->
  (∀ mp cpv, reachedMergeClose s.1 !! mp = Some cpv -> cpv ≠ []) ->
  ∀ mp cpv, reachedMergeClose s'.1 !! mp = Some cpv -> cpv ≠ [].
Proof.
  destruct s as [h ex].
  destruct e as [[es|es|es mp]| |]; simpl; intros H Hinv.
  - by injection H as <-.
  - unfold removeOpenState in H.
    destruct (swap_and_pop es (openStates h)); [|done].
    by injection H as <-.
  - destruct s' as [h' ex'].
    destruct (addClosedState_Some _ _ _ _ _ _ H)
      as (l & _ & _ & _ & _ & Hb). simpl.
    destruct Hb as [(-> & _)|[-> _]]; [done|].
    intros k cpv Hk. destruct (decide (k = mp)) as [->|Hne].
    + rewrite lookup_insert_eq in Hk. injection Hk as <-.
      intros E. by apply app_eq_nil in E as [_ ?].
    + rewrite lookup_insert_ne in Hk by done. by eapply Hinv.
  - by injection H as <-.
  - injection H as <-. simpl. intros k cpv Hk.
    by rewrite lookup_empty in Hk.
Qed.

Lemma life_buckets_filled evs : ∀ s s',
  life merge s evs = Some s' ->
  (∀ mp cpv, reachedMergeClose s.1 !! mp = Some cpv -> cpv ≠ []) ->
  ∀ mp cpv, reachedMergeClose s'.1 !! mp = Some cpv -> cpv ≠ [].
Proof.
  induction evs as [|e evs IH]; intros s s' H Hinv; simpl in H.
  - by injection H as <-.
  - destruct (happen merge s e) as [s1|] eqn:E; [|done]. simpl in H.
    eapply IH; [done|]. by eapply happen_buckets_filled.
Qed.

(** X7.  No bucket of [reachedMergeClose] is ever empty, so
    [hasMergedStates] holds exactly when some state is held in a bucket. *)
Theorem hasMergedStates_iff_state_held ex0 es0 indeterminate evs h ex :
  life merge (new ex0 es0 indeterminate, ex0) evs = Some (h, ex) ->
  (∀ mp cpv, reachedMergeClose h !! mp = Some cpv -> cpv ≠ []) ∧
  (hasMergedStates h = true <-> held h ≠ []).
Proof.
  intros H.
  assert (∀ mp cpv, reachedMergeClose h !! mp = Some cpv -> cpv ≠ [])
    as Hinv.
  { apply (life_buckets_filled _ _ _ H). intros k cpv Hk.
    simpl in Hk. by rewrite lookup_empty in Hk. }
  split; [done|].
  unfold hasMergedStates. split.
  - intros Ht Hh.
    destruct (decide (reachedMergeClose h = ∅)) as [E|Hne].
    { by rewrite bool_decide_eq_true_2 in Ht. }
    apply map_choose in Hne as (k & cpv & Hk).
    pose proof (held_Permutation h) as Hp. rewrite Hh in Hp.
    apply Permutation_nil_l in Hp.
    apply (Hinv _ _ Hk).
    apply elem_of_map_to_list in Hk.
    assert (cpv ∈ snd <$> map_to_list (reachedMergeClose h)) as Hin.
    { apply list_elem_of_fmap. by exists (k, cpv). }
    by apply (concat_nil_elem _ _ (eq_sym Hp)).
  - intros Hh. rewrite bool_decide_eq_false_2; [done|].
    intros E. by apply held_empty in E.
Qed.

End Life.

Lemma addClosedState_state_no_longer_open_witness :
  let merge := λ (_ : Executor) (_ _ : ExecutionState), false in
  let ex := mkExecutor (λ _, 10) ∅ [] in
  let h := mkMergeHandler 0 [4%positive; 5%positive; 6%positive]
             {[7%positive := [1%positive]]} 1 9%Q 0 in
  let r := default (h, ex) (addClosedState merge ex h 4%positive 7%positive) in
  (4%positive ∉ openStates r.1) ∧ NoDup (openStates r.1).
Proof.
  intros merge ex h r.
  apply (addClosedState_state_no_longer_open merge ex h 4%positive 7%positive
           r.1 r.2).
  - apply (bool_decide_unpack _). vm_compute. exact I.
  - reflexivity.
Defined.

Lemma releaseStates_continues_what_was_paused_witness :
  let merge := λ (_ : Executor) (p _ : ExecutionState),
                 bool_decide (p = 2%positive) in
  let ex0 := mkExecutor (λ _, 0) ∅ [] in
  let evs := [Calls (AddOpenState 2%positive);
              Calls (AddOpenState 3%positive);
              Calls (AddClosedState 1%positive 9%positive);
              Interprets (λ _, 12) {[1%positive]};
              Calls (AddClosedState 2%positive 8%positive);
              Calls (AddClosedState 3%positive 8%positive)] in
  let s0 := (new ex0 1%positive (5 # 7), ex0) in
  let s := default s0 (life merge s0 evs) in
  pausedBy (calls s.2) ≡ₚ continuedBy (calls s.2) ++ held s.1 ∧
  pausedBy (calls (releaseStates s.2 s.1).2)
    ≡ₚ continuedBy (calls (releaseStates s.2 s.1).2) ∧
  hasMergedStates (releaseStates s.2 s.1).1 = false.
Proof.
  intros merge ex0 evs s0 s.
  apply (releaseStates_continues_what_was_paused merge ex0 1%positive (5 # 7)
           evs s.1 s.2).
  - vm_compute. reflexivity.
  - vm_compute. reflexivity.
Defined.

Lemma hasMergedStates_iff_state_held_witness :
  let merge := λ (_ : Executor) (_ _ : ExecutionState), false in
  let ex0 := mkExecutor (λ _, 0) ∅ [] in
  let evs := [Calls (AddOpenState 2%positive);
              Calls (AddClosedState 1%positive 9%positive);
              Releases;
              Calls (AddClosedState 2%positive 9%positive)] in
  let s0 := (new ex0 1%positive (5 # 7), ex0) in
  let s := default s0 (life merge s0 evs) in
  (∀ mp cpv, reachedMergeClose s.1 !! mp = Some cpv -> cpv ≠ []) ∧
  (hasMergedStates s.1 = true <-> held s.1 ≠ []).
Proof.
  intros merge ex0 evs s0 s.
  apply (hasMergedStates_iff_state_held merge ex0 1%positive (5 # 7)
           evs s.1 s.2).
  vm_compute. reflexivity.
Defined.

(** A handler's life: two states pause at two close points, a third one
    merges and is terminated, and the release continues the two by rising
    address of the close point. *)
Example life_release_order :
  let merge := λ (_ : Executor) (p _ : ExecutionState),
                 bool_decide (p = 2%positive) in
  let ex0 := mkExecutor (λ _, 0) ∅ [] in
  let evs := [Calls (AddOpenState 2%positive);
              Calls (AddOpenState 3%positive);
              Calls (AddClosedState 1%positive 9%positive);
              Calls (AddClosedState 2%positive 8%positive);
              Calls (AddClosedState 3%positive 8%positive);
              Releases] in
  (λ s : MergeHandler * Executor, (calls s.2, openStates s.1))
    <$> life merge (new ex0 1%positive (5 # 7), ex0) evs
  = Some ([PauseState 1%positive; PauseState 2%positive;
           Merge 2%positive 3%positive true; TerminateState 3%positive;
           ContinueState 2%positive; ContinueState 1%positive], []).
Proof. vm_compute. reflexivity. Qed.

End MergeHandlerProps.

Module CallTreeProps.
Import CallTree.

Section Insertion.
Variable eq : CallInfo.t -> CallInfo.t -> bool.
Hypothesis eq_reflexive : ∀ a, eq a a = true.
Hypothesis eq_symmetric : ∀ a b, eq a b = true -> eq b a = true.
Hypothesis eq_transitive :
  ∀ a b c, eq a b = true -> eq b c = true -> eq a c = true.

Lemma eq_comm a b : eq a b = eq b a.
Proof.
  destruct (eq a b) eqn:Hab, (eq b a) eqn:Hba; try done.
  - apply eq_symmetric in Hab. congruence.
  - apply eq_symmetric in Hba. congruence.
Qed.

Lemma tip_addCallPath p id n : tip (addCallPath eq p id n) = tip n.
Proof. by destruct p, n. Qed.

Lemma reaches_nil n : reaches eq [] n = true.
Proof. done. Qed.

Lemma reaches_cons h q n :
  reaches eq (h :: q) n =
  match findChild eq h (children n) with
  | Some (_, x) => reaches eq q x
  | None => false
  end.
Proof.
  unfold reaches. simpl.
  destruct (findChild eq h (children n)) as [[k x]|]; [|done].
  by destruct (follow eq q x).
Qed.

Lemma reaches_leaf tp q : q ≠ [] -> reaches eq q (Node tp []) = false.
Proof. by destruct q. Qed.

(** A path reaches into the tree after an insertion when it did before
    or when it starts the inserted path. *)
Lemma reaches_addCallPath q : ∀ p id n,
  reaches eq q (addCallPath eq p id n) = reaches eq q n || isPrefixOf eq q p.
Proof.
  induction q as [|h q IH]; intros p id n; [done|].
  destruct p as [|c p]; [by rewrite orb_false_r|].
  rewrite !reaches_cons. destruct n as [tp ch]. simpl.
  induction ch as [|i ch IHch]; simpl.
  - rewrite tip_addCallPath. simpl.
    rewrite (eq_comm c h). destruct (eq h c); [|done]. simpl.
    rewrite IH. by destruct q.
  - destruct (eq (call (tip i)) c) eqn:Hic; simpl.
    + rewrite tip_addCallPath.
      destruct (eq (call (tip i)) h) eqn:Hih.
      * rewrite IH. assert (eq h c = true) as ->; [|done].
        eapply eq_transitive; [apply eq_symmetric|]; eassumption.
      * destruct (eq h c) eqn:Hhc; [|by rewrite orb_false_r].
        assert (eq (call (tip i)) h = true); [|congruence].
        eapply eq_transitive; [|apply eq_symmetric]; eassumption.
    + destruct (eq (call (tip i)) h) eqn:Hih.
      * destruct (eq h c) eqn:Hhc; [|by rewrite orb_false_r].
        assert (eq (call (tip i)) c = true); [|congruence].
        eapply eq_transitive; eassumption.
      * destruct (findChild eq h (addBelow eq _ c id ch)) as [[k x]|],
          (findChild eq h ch) as [[k' x']|]; simpl in *; done.
Qed.

Lemma newNodes_leaf p tp : newNodes eq p (Node tp []) = length p.
Proof. by destruct p. Qed.

Lemma size_Node tp ch :
  size (Node tp ch) = list_sum (map (λ c, S (size c)) ch).
Proof. done. Qed.

Lemma size_addCallPath p : ∀ id n,
  size (addCallPath eq p id n) = (size n + newNodes eq p n)%nat.
Proof.
  induction p as [|c p IH]; intros id [tp ch]; [simpl; lia|].
  cbn [addCallPath newNodes children tip]. rewrite !size_Node.
  induction ch as [|i ch IHch]; cbn [addBelow findChild].
  - cbn [map]. rewrite IH, newNodes_leaf. simpl. lia.
  - destruct (eq (call (tip i)) c) eqn:Hic.
    + cbn [map]. rewrite IH. simpl. lia.
    + cbn [map]. change (list_sum (?x :: ?l)) with (x + list_sum l)%nat.
      rewrite IHch.
      destruct (findChild eq c ch) as [[k x]|]; simpl; lia.
Qed.

Lemma filter_fmap_length {A B} (f : B -> bool) (g : A -> B) l :
  length (List.filter f (g <$> l)) = length (List.filter (f ∘ g) l).
Proof.
  induction l as [|x l IH]; simpl; [done|].
  destruct (f (g x)); simpl; [f_equal|]; exact IH.
Qed.

Lemma length_prefixes {A} (p : list A) : length (prefixes p) = length p.
Proof.
  induction p as [|a p IH]; simpl; [done|]. by rewrite length_fmap, IH.
Qed.

Lemma prefixes_nonempty {A} (p q : list A) : q ∈ prefixes p -> q ≠ [].
Proof.
  destruct p as [|a p]; simpl; [by intros ?%elem_of_nil|].
  intros [->|(x & -> & _)%list_elem_of_fmap]%elem_of_cons; done.
Qed.

Lemma newNodes_unreached p : ∀ n,
  newNodes eq p n =
  length (List.filter (λ q, negb (reaches eq q n)) (prefixes p)).
Proof.
  induction p as [|c p IH]; intros n; [done|].
  cbn [newNodes prefixes List.filter].
  rewrite reaches_cons.
  destruct (findChild eq c (children n)) as [[k x]|] eqn:Hf; cbn [negb].
  - rewrite reaches_nil. cbn [negb].
    rewrite filter_fmap_length, IH. f_equal. apply filter_ext. intros q.
    simpl. by rewrite reaches_cons, Hf.
  - cbn [length]. rewrite filter_fmap_length.
    rewrite (filter_ext _ (λ _, true)).
    2:{ intros q. simpl. by rewrite reaches_cons, Hf. }
    f_equal. rewrite <- (length_prefixes p). f_equal.
    clear. induction (prefixes p) as [|x l IH]; simpl; [done|].
    f_equal; exact IH.
Qed.

Lemma pathEq_transitive p : ∀ q r,
  pathEq eq p q = true -> pathEq eq q r = true -> pathEq eq p r = true.
Proof.
  induction p as [|a p IH]; intros [|b q] [|c r]; simpl; try done.
  intros [Hab Hpq]%andb_prop [Hbc Hqr]%andb_prop.
  rewrite (eq_transitive _ _ _ Hab Hbc). simpl. by eapply IH.
Qed.

Lemma findChild_eq h1 h2 ch :
  eq h1 h2 = true -> findChild eq h1 ch = findChild eq h2 ch.
Proof.
  intros Hh. induction ch as [|i ch IH]; simpl; [done|].
  assert (eq (call (tip i)) h1 = eq (call (tip i)) h2) as ->.
  { destruct (eq (call (tip i)) h1) eqn:H1, (eq (call (tip i)) h2) eqn:H2;
      try done.
    - rewrite (eq_transitive _ _ _ H1 Hh) in H2. done.
    - rewrite (eq_transitive _ _ _ H2 (eq_symmetric _ _ Hh)) in H1. done. }
  by rewrite IH.
Qed.

Lemma follow_pathEq p : ∀ q n,
  pathEq eq p q = true -> follow eq p n = follow eq q n.
Proof.
  induction p as [|a p IH]; intros [|b q] n; simpl; try done.
  intros [Hab Hpq]%andb_prop. rewrite (findChild_eq a b) by done.
  destruct (findChild eq b (children n)) as [[k x]|]; [|done].
  by rewrite (IH q x).
Qed.

Lemma follow_length p : ∀ n ns,
  follow eq p n = Some ns -> length ns = length p.
Proof.
  induction p as [|a p IH]; intros n ns; simpl.
  - by intros [= <-].
  - destruct (findChild eq a (children n)) as [[k x]|]; [|done].
    destruct (follow eq p x) as [ms|] eqn:Hf; [|done].
    intros [= <-]. simpl. f_equal. by eapply IH.
Qed.

Lemma isPrefixOf_take p : ∀ k, isPrefixOf eq (take k p) p = true.
Proof.
  induction p as [|a p IH]; intros [|k]; simpl; try done.
  by rewrite eq_reflexive, IH.
Qed.

Lemma existsb_fmap_ext {A B} (f : B -> bool) (g : A -> B)
    (h : A -> bool) l :
  (∀ x, f (g x) = h x) -> existsb f (g <$> l) = existsb h l.
Proof.
  intros Hfg. induction l as [|x l IH]; [done|].
  cbn [fmap list_fmap existsb]. rewrite Hfg. f_equal. exact IH.
Qed.

Lemma existsb_false {A} (l : list A) : existsb (λ _, false) l = false.
Proof. by induction l. Qed.

Lemma isPrefixOf_prefixes p : ∀ q, q ≠ [] ->
  existsb (pathEq eq q) (prefixes p) = isPrefixOf eq q p.
Proof.
  induction p as [|b p IH]; intros [|a q] Hq; try done.
  cbn [prefixes existsb isPrefixOf].
  destruct (eq a b) eqn:Hab.
  - rewrite (existsb_fmap_ext _ _ (pathEq eq q)).
    2:{ intros x. simpl. by rewrite Hab. }
    simpl. rewrite Hab. simpl.
    destruct q as [|a' q]; [done|]. by rewrite IH.
  - rewrite (existsb_fmap_ext _ _ (λ _, false)).
    2:{ intros x. simpl. by rewrite Hab. }
    simpl. by rewrite Hab, existsb_false.
Qed.

Lemma existsb_flat_map {A B} (f : B -> bool) (g : A -> list B) l :
  existsb f (flat_map g l) = existsb (λ x, existsb f (g x)) l.
Proof.
  induction l as [|x l IH]; simpl; [done|].
  by rewrite existsb_app, IH.
Qed.

Lemma reaches_addCallPaths q paths : ∀ n,
  reaches eq q (addCallPaths eq paths n) =
  reaches eq q n || existsb (isPrefixOf eq q) paths.*1.
Proof.
  unfold addCallPaths.
  induction paths as [|[p id] paths IH]; intros n; simpl.
  - by rewrite orb_false_r.
  - rewrite IH, reaches_addCallPath. by rewrite orb_assoc.
Qed.

Section Distinct.
Context {A : Type} (same : A -> A -> bool).
Hypothesis same_transitive :
  ∀ a b c, same a b = true -> same b c = true -> same a c = true.

Lemma existsb_fold_keep x l : ∀ kept,
  existsb (same x) (fold_left (keepNew same) l kept) =
  existsb (same x) kept || existsb (same x) l.
Proof.
  induction l as [|y l IH]; intros kept; simpl.
  - by rewrite orb_false_r.
  - rewrite IH. unfold keepNew.
    destruct (existsb (same y) kept) eqn:Hy.
    + destruct (existsb (same x) kept) eqn:Hx; [done|]. simpl.
      destruct (same x y) eqn:Hxy; [|done]. exfalso.
      apply existsb_exists in Hy as (a & Ha & Hya).
      assert (existsb (same x) kept = true); [|congruence].
      apply existsb_exists. exists a. split; [done|].
      by eapply same_transitive.
    + rewrite existsb_app. simpl. by rewrite orb_false_r, orb_assoc.
Qed.

Lemma length_fold_keep l : ∀ kept,
  StronglySorted (λ y x, same x y = false) l ->
  length (fold_left (keepNew same) l kept) =
  (length kept +
   length (List.filter (λ x, negb (existsb (same x) kept)) l))%nat.
Proof.
  induction l as [|y l IH]; intros kept Hl; simpl; [lia|].
  apply StronglySorted_cons in Hl as [Hy Hl].
  rewrite IH by done. unfold keepNew.
  destruct (existsb (same y) kept) eqn:Hk; simpl; [done|].
  rewrite length_app. simpl.
  rewrite (filter_ext_in (λ x, negb (existsb (same x) (kept ++ [y])))
             (λ x, negb (existsb (same x) kept))); [lia|].
  intros x Hx. rewrite existsb_app. simpl.
  rewrite Forall_forall in Hy. rewrite (Hy x), !orb_false_r; [done|].
  by apply list_elem_of_In.
Qed.
End Distinct.

Lemma prefixes_sorted p :
  StronglySorted (λ y x, pathEq eq x y = false) (prefixes p).
Proof.
  induction p as [|a p IH]; simpl; constructor.
  - eapply StronglySorted_fmap; [|exact IH].
    intros x y Hxy. simpl. by rewrite Hxy, andb_false_r.
  - rewrite Forall_fmap. apply Forall_forall. intros q Hq. simpl.
    apply prefixes_nonempty in Hq. destruct q; [done|].
    by rewrite andb_false_r.
Qed.

(** The tree has one node for every distinct prefix of the paths put
    into it. *)
Lemma size_addCallPaths paths :
  size (addCallPaths eq paths empty) =
  length (distinct (pathEq eq) (flat_map prefixes paths.*1)).
Proof.
  induction paths as [|[p id] paths IH] using rev_ind; [done|].
  unfold addCallPaths, distinct in *.
  rewrite fold_left_app, fmap_app, flat_map_app, fold_left_app. simpl.
  rewrite app_nil_r, size_addCallPath, IH, newNodes_unreached.
  rewrite (length_fold_keep _ (prefixes p)) by apply prefixes_sorted.
  f_equal. f_equal.
  apply filter_ext_in. intros q Hq%list_elem_of_In%prefixes_nonempty.
  f_equal.
  rewrite (existsb_fold_keep _ pathEq_transitive). simpl.
  rewrite existsb_flat_map.
  pose proof (reaches_addCallPaths q paths empty) as Hr.
  unfold addCallPaths in Hr. rewrite Hr. unfold empty.
  rewrite reaches_leaf by done. simpl.
  clear -Hq eq_reflexive eq_symmetric eq_transitive.
  induction paths as [|[p id] paths IH]; [done|].
  cbn [fmap list_fmap existsb fst]. rewrite isPrefixOf_prefixes by done.
  f_equal. exact IH.
Qed.

Lemma forallb_addBelow (a : CallInfo.t) (descend : t -> t) c id ch :
  (∀ x, tip (descend x) = tip x) ->
  eq a c = false ->
  forallb (λ j, negb (eq a (call (tip j)))) ch = true ->
  forallb (λ j, negb (eq a (call (tip j))))
          (addBelow eq descend c id ch) = true.
Proof.
  intros Hd Hac. induction ch as [|i ch IH]; simpl.
  - intros _. by rewrite Hd, andb_true_r; simpl; rewrite Hac.
  - intros [Hi Hch]%andb_prop.
    destruct (eq (call (tip i)) c); simpl.
    + by rewrite Hd, Hi, Hch.
    + by rewrite Hi, IH.
Qed.

Lemma distinctTips_addBelow (descend : t -> t) c id ch :
  (∀ x, tip (descend x) = tip x) ->
  distinctTips eq ch = true ->
  distinctTips eq (addBelow eq descend c id ch) = true.
Proof.
  intros Hd. induction ch as [|i ch IH]; simpl; [done|].
  intros [Hi Hch]%andb_prop.
  destruct (eq (call (tip i)) c) eqn:Hic; simpl.
  - by rewrite Hd, Hi, Hch.
  - by rewrite forallb_addBelow, IH.
Qed.

Lemma distinctSiblings_addCallPath p : ∀ id n,
  distinctSiblings eq n = true ->
  distinctSiblings eq (addCallPath eq p id n) = true.
Proof.
  induction p as [|c p IH]; intros id [tp ch]; [done|].
  cbn [addCallPath distinctSiblings children tip].
  intros [Hd Hch]%andb_prop. apply andb_true_intro. split.
  - apply distinctTips_addBelow; [|done]. intros x. apply tip_addCallPath.
  - clear Hd. induction ch as [|i ch IHch]; simpl.
    + by rewrite IH.
    + simpl in Hch. apply andb_prop in Hch as [Hi Hch].
      destruct (eq (call (tip i)) c); simpl.
      * by rewrite IH, Hch.
      * by rewrite Hi, IHch.
Qed.

Lemma distinctSiblings_addCallPaths paths : ∀ n,
  distinctSiblings eq n = true ->
  distinctSiblings eq (addCallPaths eq paths n) = true.
Proof.
  unfold addCallPaths.
  induction paths as [|[p id] paths IH]; intros n Hn; simpl; [done|].
  by apply IH, distinctSiblings_addCallPath.
Qed.

(** Two inserted paths that agree on their first [k] calls lead through
    the same [k] nodes. *)
Lemma shared_prefix paths p q k :
  p ∈ paths.*1 -> q ∈ paths.*1 ->
  (k <= length p)%nat -> (k <= length q)%nat ->
  pathEq eq (take k p) (take k q) = true ->
  ∃ ns, length ns = k ∧
    follow eq (take k p) (addCallPaths eq paths empty) = Some ns ∧
    follow eq (take k q) (addCallPaths eq paths empty) = Some ns.
Proof.
  intros Hp Hq Hkp Hkq Hpq.
  assert (reaches eq (take k p) (addCallPaths eq paths empty) = true) as Hr.
  { rewrite reaches_addCallPaths. apply orb_true_iff. right.
    apply existsb_exists. exists p. split; [by apply list_elem_of_In|].
    apply isPrefixOf_take. }
  unfold reaches in Hr.
  destruct (follow eq (take k p) (addCallPaths eq paths empty)) as [ns|]
    eqn:Hf; [|done].
  exists ns. split_and!; [|done|].
  - apply follow_length in Hf. rewrite Hf, length_take. lia.
  - by rewrite <- (follow_pathEq _ _ _ Hpq).
Qed.

(** C3: insertion shares prefixes.  In the tree built from any paths, no
    node has two children with [eq] tips; two inserted paths that agree,
    by [eq], on their first [k] calls lead through the same [k] nodes; the
    number of nodes below the root is the number of distinct prefixes of
    the inserted paths; and [A = [c1,c2,c3]] followed by [B = [c1,c2,c4]]
    gives one node for [c1], one for [c2] beneath it, and beneath that the
    two children [c3] and [c4].  [eq] is taken to be an equivalence. *)
Theorem addCallPath_shares_prefixes (paths : list (list CallInfo.t * Z)) :
  let T := addCallPaths eq paths empty in
  distinctSiblings eq T = true ∧
  (∀ p q k, p ∈ paths.*1 -> q ∈ paths.*1 ->
     (k <= length p)%nat -> (k <= length q)%nat ->
     pathEq eq (take k p) (take k q) = true ->
     ∃ ns, length ns = k ∧ follow eq (take k p) T = Some ns ∧
           follow eq (take k q) T = Some ns) ∧
  size T = length (distinct (pathEq eq) (flat_map prefixes paths.*1)) ∧
  (∀ c1 c2 c3 c1' c2' c4 idA idB,
     eq c1 c1' = true -> eq c2 c2' = true -> eq c3 c4 = false ->
     let AB := addCallPaths eq [([c1; c2; c3], idA); ([c1'; c2'; c4], idB)]
                 empty in
     AB = Node (tip empty)
            [Node (mkTip c1 idA)
               [Node (mkTip c2 idA)
                  [Node (mkTip c3 idA) []; Node (mkTip c4 idB) []]]] ∧
     size AB = 4%nat).
Proof.
  intros T. split_and!.
  - by apply distinctSiblings_addCallPaths.
  - intros p q k. by apply shared_prefix.
  - apply size_addCallPaths.
  - intros c1 c2 c3 c1' c2' c4 idA idB H1 H2 H3 AB.
    unfold AB, addCallPaths. simpl. rewrite H1. simpl. rewrite H2. simpl.
    rewrite H3. done.
Qed.
End Insertion.

Section Grouping.
Variable sameInvocation : CallInfo.t -> CallInfo.t -> bool.

Lemma place_Permutation current ret :
  concat (place sameInvocation current ret) ≡ₚ concat ret ++ [current].
Proof.
  induction ret as [|g ret IH]; simpl; [done|].
  destruct (head g) as [first|].
  - destruct (sameInvocation _ _); simpl.
    + rewrite <- !app_assoc. apply Permutation_app_head.
      apply Permutation_app_comm.
    + rewrite IH. by rewrite app_assoc.
  - simpl. rewrite IH. by rewrite app_assoc.
Qed.

Lemma groupOk_snoc g current :
  groupOk sameInvocation g -> (∀ x, x ∈ g -> (x.1 < current.1)%nat) ->
  (∀ first, head g = Some first ->
     sameInvocation (call current.2) (call first.2) = true) ->
  groupOk sameInvocation (g ++ [current]).
Proof.
  intros (Hne & Hsorted & Hrep) Hlt Hsame. split_and!.
  - by destruct g.
  - rewrite fmap_app. apply StronglySorted_app_2; [|done|].
    + intros i j [x [-> Hx]]%list_elem_of_fmap Hj. simpl in Hj.
      apply list_elem_of_singleton in Hj as ->. by apply Hlt.
    + simpl. repeat constructor.
  - intros first x Hhead Hx.
    assert (head g = Some first) as Hg by (destruct g; [done|exact Hhead]).
    apply elem_of_app in Hx as [Hx|Hx]; [by eapply Hrep|].
    apply list_elem_of_singleton in Hx as ->. right. by apply Hsame.
Qed.

Lemma groupOk_singleton current : groupOk sameInvocation [current].
Proof.
  split_and!; [done|simpl; repeat constructor|].
  intros first x [= <-] Hx. apply list_elem_of_singleton in Hx. by left.
Qed.

Lemma place_groupOk current ret :
  Forall (groupOk sameInvocation) ret ->
  (∀ x, x ∈ concat ret -> (x.1 < current.1)%nat) ->
  Forall (groupOk sameInvocation) (place sameInvocation current ret).
Proof.
  induction ret as [|g ret IH]; simpl; intros Hok Hlt.
  - constructor; [apply groupOk_singleton|constructor].
  - apply Forall_cons in Hok as [Hg Hok].
    assert (Forall (groupOk sameInvocation)
              (place sameInvocation current ret)) as Hrest.
    { apply IH; [done|]. intros x Hx. apply Hlt. simpl.
      apply elem_of_app. by right. }
    destruct (head g) as [first|] eqn:Hhead; [|by constructor].
    destruct (sameInvocation _ _) eqn:Hsame; constructor; try done.
    apply groupOk_snoc; [done| |].
    + intros x Hx. apply Hlt. simpl. apply elem_of_app. by left.
    + intros first' Hf. congruence.
Qed.

Lemma place_heads current ret :
  Forall (λ g, g ≠ []) ret ->
  omap head (place sameInvocation current ret) = omap head ret ∨
  omap head (place sameInvocation current ret) = omap head ret ++ [current].
Proof.
  induction ret as [|g ret IH]; simpl; intros Hne; [by right|].
  apply Forall_cons in Hne as [Hg Hne].
  destruct g as [|first g]; [done|]. simpl.
  destruct (sameInvocation _ _); simpl; [by left|].
  destruct (IH Hne) as [E|E]; [left|right]; f_equal; exact E.
Qed.

Lemma heads_in_concat (ret : list (list TipPtr)) x :
  x ∈ omap head ret -> x ∈ concat ret.
Proof.
  induction ret as [|g ret IH]; simpl; [done|].
  destruct g as [|first g]; simpl; [done|].
  intros [->|Hx]%elem_of_cons.
  - apply list_elem_of_here.
  - apply list_elem_of_further, elem_of_app. right. by apply IH.
Qed.

Lemma fold_place l : ∀ ret,
  Forall (groupOk sameInvocation) ret ->
  StronglySorted lt (omap head ret).*1 ->
  StronglySorted lt l.*1 ->
  (∀ x y, x ∈ concat ret -> y ∈ l -> (x.1 < y.1)%nat) ->
  let r := fold_left (λ ret current, place sameInvocation current ret) l ret in
  Forall (groupOk sameInvocation) r ∧ StronglySorted lt (omap head r).*1 ∧
  concat r ≡ₚ concat ret ++ l.
Proof.
  induction l as [|current l IH]; intros ret Hok Hheads Hl Hlt; simpl.
  - by rewrite app_nil_r.
  - simpl in Hl. apply StronglySorted_cons in Hl as [Hcur Hl].
    destruct (IH (place sameInvocation current ret)) as (H1 & H2 & H3).
    + apply place_groupOk; [done|]. intros x Hx.
      apply Hlt; [done|apply list_elem_of_here].
    + assert (Forall (λ g, g ≠ []) ret) as Hne.
      { eapply Forall_impl; [exact Hok|]. by intros g (? & _). }
      destruct (place_heads current ret Hne) as [E|E]; rewrite E; [done|].
      rewrite fmap_app. apply StronglySorted_app_2; [|done|].
      * intros i j [x [-> Hx]]%list_elem_of_fmap Hj. simpl in Hj.
        apply list_elem_of_singleton in Hj as ->.
        apply Hlt; [by apply heads_in_concat|apply list_elem_of_here].
      * simpl. repeat constructor.
    + done.
    + intros x y Hx Hy. rewrite place_Permutation in Hx.
      apply elem_of_app in Hx as [Hx|Hx].
      * apply Hlt; [done|by apply list_elem_of_further].
      * apply list_elem_of_singleton in Hx as ->.
        rewrite Forall_forall in Hcur. apply Hcur.
        apply list_elem_of_fmap. eauto.
    + split_and!; [done..|]. rewrite H3, place_Permutation.
      by rewrite <- app_assoc.
Qed.

Lemma StronglySorted_seq a n : StronglySorted lt (seq a n).
Proof.
  revert a. induction n as [|n IH]; intros a; simpl; constructor; [done|].
  apply Forall_forall. intros x Hx%elem_of_seq. lia.
Qed.

Lemma tipPtrs_positions n : (tipPtrs n).*1 = seq 0 (length (children n)).
Proof.
  unfold tipPtrs. rewrite fmap_imap.
  rewrite (imap_ext _ (λ i _, id i)); [|done].
  rewrite (imap_seq_0 (children n) id). apply list_fmap_id.
Qed.

Lemma groupChildren_invariant n :
  let groups := groupChildren sameInvocation n in
  Forall (groupOk sameInvocation) groups ∧
  StronglySorted lt (omap head groups).*1 ∧
  concat groups ≡ₚ tipPtrs n.
Proof.
  unfold groupChildren.
  destruct (fold_place (tipPtrs n) []) as (H1 & H2 & H3);
    [constructor|constructor| |intros ?? []%elem_of_nil|done].
  rewrite tipPtrs_positions. apply StronglySorted_seq.
Qed.

Lemma place_nonempty current ret :
  Forall (λ g, g ≠ []) ret ->
  Forall (λ g, g ≠ []) (place sameInvocation current ret).
Proof.
  induction ret as [|g ret IH]; simpl; intros Hne.
  - by repeat constructor.
  - apply Forall_cons in Hne as [Hg Hne].
    destruct (head g) as [first|]; [|by constructor; [|apply IH]].
    destruct (sameInvocation _ _); constructor; try done; [|by apply IH].
    by destruct g.
Qed.

Lemma place_elem current ret g x :
  g ∈ place sameInvocation current ret -> x ∈ g ->
  x = current ∨ x ∈ concat ret.
Proof.
  intros Hg Hx.
  assert (x ∈ concat (place sameInvocation current ret)) as Hc.
  { apply list_elem_of_In, in_concat. exists g.
    split; by apply list_elem_of_In. }
  rewrite place_Permutation in Hc.
  apply elem_of_app in Hc as [Hc|Hc]; [by right|].
  apply list_elem_of_singleton in Hc. by left.
Qed.

Lemma elem_concat (ret : list (list TipPtr)) g x :
  g ∈ ret -> x ∈ g -> x ∈ concat ret.
Proof.
  intros Hg Hx. apply list_elem_of_In, in_concat. exists g.
  split; by apply list_elem_of_In.
Qed.

Lemma concat_elem (ret : list (list TipPtr)) x :
  x ∈ concat ret -> ∃ g, g ∈ ret ∧ x ∈ g.
Proof.
  intros (g & Hg & Hx)%list_elem_of_In%in_concat.
  exists g. split; by apply list_elem_of_In.
Qed.

Lemma place_apart current ret :
  Forall (λ g, g ≠ []) ret ->
  groupsApart sameInvocation ret ->
  groupsApart sameInvocation (place sameInvocation current ret).
Proof.
  induction ret as [|g ret IH]; intros Hne Hap.
  - simpl. split; [|done]. by intros ??? _ ?%elem_of_nil.
  - apply Forall_cons in Hne as [Hg Hne]. destruct Hap as [Hhead Hap].
    cbn [place].
    destruct (head g) as [first|] eqn:Hfirst; [|by destruct g].
    destruct (sameInvocation (call current.2) (call first.2)) eqn:Hsame.
    + split; [|done]. intros first' g' x Hf' Hg' Hx.
      assert (head g = Some first') as Hf by (destruct g; [done|exact Hf']).
      apply (Hhead first' g' x); [congruence|done|done].
    + split; [|by apply IH].
      intros first' g' x Hf' Hg' Hx.
      assert (first' = first) as -> by congruence.
      destruct (place_elem current ret g' x Hg' Hx) as [->|Hc]; [done|].
      apply concat_elem in Hc as (g0 & Hg0 & Hx0).
      by apply (Hhead first g0 x).
Qed.

Lemma fold_place_apart l : ∀ ret,
  Forall (λ g, g ≠ []) ret ->
  groupsApart sameInvocation ret ->
  groupsApart sameInvocation
    (fold_left (λ ret current, place sameInvocation current ret) l ret).
Proof.
  induction l as [|current l IH]; intros ret Hne Hap; [done|].
  simpl. apply IH; [by apply place_nonempty|by apply place_apart].
Qed.

Lemma groupChildren_apart n :
  groupsApart sameInvocation (groupChildren sameInvocation n).
Proof. unfold groupChildren. by apply fold_place_apart. Qed.

Lemma groupsApart_elem (groups : list (list TipPtr)) g g' :
  groupsApart sameInvocation groups -> g ∈ groups -> g' ∈ groups ->
  g = g' ∨
  (∀ first x, head g = Some first -> x ∈ g' ->
     sameInvocation (call x.2) (call first.2) = false) ∨
  (∀ first x, head g' = Some first -> x ∈ g ->
     sameInvocation (call x.2) (call first.2) = false).
Proof.
  induction groups as [|g0 groups IH]; intros Hap Hg Hg';
    [by apply elem_of_nil in Hg|].
  destruct Hap as [Hhead Hap].
  apply elem_of_cons in Hg as [->|Hg]; apply elem_of_cons in Hg' as [->|Hg'].
  - by left.
  - right; left. intros first x Hf Hx. by apply (Hhead first g' x).
  - right; right. intros first x Hf Hx. by apply (Hhead first g x).
  - by apply IH.
Qed.

(** C4: [groupChildren] depends on the children of the node only; every
    child tip is in exactly one group; every tip of a group is its first
    tip or [sameInvocation] to it, so that, [sameInvocation] being an
    equivalence, any two tips of a group are [sameInvocation]; the groups
    come in the order in which their first tips appear among the children,
    and the tips of a group in the order of the children.  No tip is
    [sameInvocation] to the first tip of a group before its own, so that,
    [sameInvocation] being an equivalence, two tips are in the same group
    exactly when they are [sameInvocation]. *)
Theorem groupChildren_partition n :
  let groups := groupChildren sameInvocation n in
  (∀ tip', groupChildren sameInvocation (Node tip' (children n)) = groups) ∧
  concat groups ≡ₚ tipPtrs n ∧
  NoDup (concat groups).*1 ∧
  (∀ g first x, g ∈ groups -> head g = Some first -> x ∈ g ->
     x = first ∨ sameInvocation (call x.2) (call first.2) = true) ∧
  ((∀ a, sameInvocation a a = true) ->
   (∀ a b, sameInvocation a b = true -> sameInvocation b a = true) ->
   (∀ a b c, sameInvocation a b = true -> sameInvocation b c = true ->
             sameInvocation a c = true) ->
   ∀ g x y, g ∈ groups -> x ∈ g -> y ∈ g ->
     sameInvocation (call x.2) (call y.2) = true) ∧
  StronglySorted lt (omap head groups).*1 ∧
  (∀ g, g ∈ groups -> g ≠ [] ∧ StronglySorted lt g.*1) ∧
  groupsApart sameInvocation groups ∧
  ((∀ a, sameInvocation a a = true) ->
   (∀ a b, sameInvocation a b = true -> sameInvocation b a = true) ->
   (∀ a b c, sameInvocation a b = true -> sameInvocation b c = true ->
             sameInvocation a c = true) ->
   ∀ g g' x y, g ∈ groups -> g' ∈ groups -> x ∈ g -> y ∈ g' ->
     (sameInvocation (call x.2) (call y.2) = true <-> g = g')).
Proof.
  intros groups.
  destruct (groupChildren_invariant n) as (Hok & Hheads & Hperm).
  fold groups in Hok, Hheads, Hperm. rewrite Forall_forall in Hok.
  pose proof (groupChildren_apart n) as Hap. fold groups in Hap.
  assert ((∀ a, sameInvocation a a = true) ->
          (∀ a b, sameInvocation a b = true -> sameInvocation b a = true) ->
          (∀ a b c, sameInvocation a b = true -> sameInvocation b c = true ->
                    sameInvocation a c = true) ->
          ∀ g x y, g ∈ groups -> x ∈ g -> y ∈ g ->
            sameInvocation (call x.2) (call y.2) = true) as Hpair.
  { intros Hrefl Hsym Htrans g x y Hg Hx Hy.
    destruct (Hok g Hg) as (Hne & _ & Hrep).
    destruct g as [|first g]; [done|].
    destruct (Hrep first x eq_refl Hx) as [->|Hxf];
      destruct (Hrep first y eq_refl Hy) as [->|Hyf]; eauto. }
  split_and!; [by destruct n|done| | |done|done| |done|].
  - rewrite Hperm, tipPtrs_positions. apply NoDup_seq.
  - intros g first x Hg Hfirst Hx. destruct (Hok g Hg) as (_ & _ & Hrep).
    by apply Hrep.
  - intros g Hg. destruct (Hok g Hg) as (? & ? & _). done.
  - intros Hrefl Hsym Htrans g g' x y Hg Hg' Hx Hy.
    split; [|intros <-; by eapply Hpair].
    intros Hxy.
    destruct (groupsApart_elem groups g g' Hap Hg Hg') as [E|[Hlate|Hlate]];
      [done| |].
    + destruct (Hok g Hg) as (Hne & _ & _).
      destruct g as [|first g]; [done|].
      pose proof (Hlate first y eq_refl Hy) as Hno.
      assert (sameInvocation (call x.2) (call first.2) = true) as Hxf.
      { by eapply Hpair; [..|exact Hg| |apply list_elem_of_here]. }
      rewrite (Htrans _ _ _ (Hsym _ _ Hxy) Hxf) in Hno. done.
    + destruct (Hok g' Hg') as (Hne & _ & _).
      destruct g' as [|first g']; [done|].
      pose proof (Hlate first x eq_refl Hx) as Hno.
      assert (sameInvocation (call y.2) (call first.2) = true) as Hyf.
      { by eapply Hpair; [..|exact Hg'| |apply list_elem_of_here]. }
      rewrite (Htrans _ _ _ Hxy Hyf) in Hno. done.
Qed.
End Grouping.

Lemma sameCallee_reflexive a : sameCallee a a = true.
Proof. by apply bool_decide_eq_true. Qed.

Lemma sameCallee_symmetric a b :
  sameCallee a b = true -> sameCallee b a = true.
Proof.
  intros [H1 H2]%bool_decide_eq_true. by apply bool_decide_eq_true.
Qed.

Lemma sameCallee_transitive a b c :
  sameCallee a b = true -> sameCallee b c = true -> sameCallee a c = true.
Proof.
  intros [H1 H2]%bool_decide_eq_true [H3 H4]%bool_decide_eq_true.
  apply bool_decide_eq_true. split; congruence.
Qed.

Lemma sameFunction_reflexive a : sameFunction a a = true.
Proof. by apply bool_decide_eq_true. Qed.

Lemma sameFunction_symmetric a b :
  sameFunction a b = true -> sameFunction b a = true.
Proof. intros H%bool_decide_eq_true. by apply bool_decide_eq_true. Qed.

Lemma sameFunction_transitive a b c :
  sameFunction a b = true -> sameFunction b c = true ->
  sameFunction a c = true.
Proof.
  intros H1%bool_decide_eq_true H2%bool_decide_eq_true.
  apply bool_decide_eq_true. congruence.
Qed.

Lemma addCallPath_shares_prefixes_witness :
  let paths := [([callTo "f" 1; callTo "g" 2; callTo "h" 3], 0%Z);
                ([callTo "f" 1; callTo "g" 2; callTo "k" 4], 1%Z)] in
  let T := addCallPaths sameCallee paths empty in
  distinctSiblings sameCallee T = true ∧
  (∀ p q k, p ∈ paths.*1 -> q ∈ paths.*1 ->
     (k <= length p)%nat -> (k <= length q)%nat ->
     pathEq sameCallee (take k p) (take k q) = true ->
     ∃ ns, length ns = k ∧ follow sameCallee (take k p) T = Some ns ∧
           follow sameCallee (take k q) T = Some ns) ∧
  size T = length (distinct (pathEq sameCallee) (flat_map prefixes paths.*1)).
Proof.
  intros paths T.
  pose proof (addCallPath_shares_prefixes sameCallee sameCallee_reflexive
                sameCallee_symmetric sameCallee_transitive paths)
    as (H1 & H2 & H3 & _).
  exact (conj H1 (conj H2 H3)).
Defined.

(** Scenario E4 and the tree of the two paths above: the shared calls
    have one node each, three paths give six distinct prefixes. *)
Example addCallPath_E4 :
  let f1 := callTo "f" 1 in
  let g2 := callTo "g" 2 in
  let g3 := callTo "g" 3 in
  let T := addCallPaths sameCallee [([f1; g2], 0%Z); ([f1; g3], 1%Z)] empty in
  T = Node (tip empty)
        [Node (mkTip f1 0) [Node (mkTip g2 0) []; Node (mkTip g3 1) []]] ∧
  follow sameCallee [f1; g2] T = Some [0; 0]%nat ∧
  follow sameCallee [f1; g3] T = Some [0; 1]%nat ∧
  size T = 3%nat ∧
  size (addCallPaths sameCallee
          [([f1; g2], 0%Z); ([f1; g3], 1%Z); ([g2; f1; g2], 2%Z)] empty)
    = 6%nat.
Proof. split_and!; reflexivity. Qed.

Lemma groupChildren_partition_witness :
  let n := Node (mkTip (callTo "f" 1) 0)
             [Node (mkTip (callTo "g" 2) 0) [];
              Node (mkTip (callTo "h" 5) 1) [];
              Node (mkTip (callTo "g" 3) 2) []] in
  let groups := groupChildren sameFunction n in
  concat groups ≡ₚ tipPtrs n ∧
  NoDup (concat groups).*1 ∧
  (∀ g x y, g ∈ groups -> x ∈ g -> y ∈ g ->
     sameFunction (call x.2) (call y.2) = true) ∧
  StronglySorted lt (omap head groups).*1 ∧
  (∀ g, g ∈ groups -> g ≠ [] ∧ StronglySorted lt g.*1) ∧
  (∀ g g' x y, g ∈ groups -> g' ∈ groups -> x ∈ g -> y ∈ g' ->
     (sameFunction (call x.2) (call y.2) = true <-> g = g')).
Proof.
  intros n groups.
  pose proof (groupChildren_partition sameFunction n)
    as (_ & H1 & H2 & _ & H3 & H4 & H5 & _ & H6).
  exact (conj H1 (conj H2 (conj
           (H3 sameFunction_reflexive sameFunction_symmetric
               sameFunction_transitive)
           (conj H4 (conj H5
             (H6 sameFunction_reflexive sameFunction_symmetric
                 sameFunction_transitive)))))).
Defined.

(** The two calls of [g] share a group that comes first, [h] is alone in
    the second; with a predicate that tells lines apart there are three
    groups. *)
Example groupChildren_groups :
  let n := Node (mkTip (callTo "f" 1) 0)
             [Node (mkTip (callTo "g" 2) 0) [];
              Node (mkTip (callTo "h" 5) 1) [];
              Node (mkTip (callTo "g" 3) 2) []] in
  map (map fst) (groupChildren sameFunction n) = [[0; 2]; [1]]%nat ∧
  map (map fst) (groupChildren sameCallee n) = [[0]; [1]; [2]]%nat.
Proof. split; reflexivity. Qed.

(** ** What an insertion keeps *)

Section Keeping.
Variable eq : CallInfo.t -> CallInfo.t -> bool.

Lemma walk_cons h q n :
  walk eq (h :: q) n =
  match findChild eq h (children n) with
  | Some (k, c) => cons (k, tip c) <$> walk eq q c
  | None => None
  end.
Proof. done. Qed.

Lemma walk_addCallPath q : ∀ p id n ts,
  walk eq q n = Some ts -> walk eq q (addCallPath eq p id n) = Some ts.
Proof.
  induction q as [|h q IH]; intros p id n ts H; [done|].
  destruct p as [|c p]; [done|].
  rewrite walk_cons in *. destruct n as [tp ch].
  cbn [addCallPath children tip] in *.
  revert ts H. induction ch as [|i ch IHch]; intros ts H;
    cbn [addBelow findChild] in *; [done|].
  destruct (eq (call (tip i)) c) eqn:Hic; cbn [findChild].
  - rewrite tip_addCallPath.
    destruct (eq (call (tip i)) h) eqn:Hih; [|exact H].
    destruct (walk eq q i) as [ts'|] eqn:Hw; [|done].
    rewrite (IH p id i ts' Hw), tip_addCallPath. exact H.
  - destruct (eq (call (tip i)) h) eqn:Hih; [exact H|].
    destruct (findChild eq h ch) as [[k x]|] eqn:Hf; [|done].
    cbn [fmap option_fmap option_map prod_map fst snd] in H. unfold Datatypes.id in H.
    destruct (walk eq q x) as [ts0|] eqn:Hw; [|discriminate H].
    specialize (IHch _ eq_refl).
    destruct (findChild eq h (addBelow eq (addCallPath eq p id) c id ch))
      as [[k' x']|]; [|discriminate IHch].
    cbn [fmap option_fmap option_map prod_map fst snd]. unfold Datatypes.id.
    destruct (walk eq q x') as [ts1|]; [|discriminate IHch].
    cbn in *. injection IHch as -> -> ->. exact H.
Qed.

Lemma addCallPath_reached p : ∀ id n,
  reaches eq p n = true -> addCallPath eq p id n = n.
Proof.
  induction p as [|c p IH]; intros id [tp ch] H; [done|].
  rewrite reaches_cons in H. cbn [addCallPath children tip] in *. f_equal.
  induction ch as [|i ch IHch]; cbn [addBelow findChild] in *; [done|].
  destruct (eq (call (tip i)) c) eqn:Hic.
  - f_equal. by apply IH.
  - f_equal. apply IHch.
    destruct (findChild eq c ch) as [[k x]|]; [exact H|discriminate H].
Qed.

Lemma newNodes_le p : ∀ n, (newNodes eq p n <= length p)%nat.
Proof.
  induction p as [|c p IH]; intros n; simpl; [done|].
  destruct (findChild eq c (children n)) as [[k x]|]; [|done].
  specialize (IH x). lia.
Qed.

(** X10.  [addCallPath] never moves, removes or relabels a node: a path
    that led through the tree leads through the same positions and meets
    the same tips, path ids included, after any insertion; and an
    insertion adds one node per call of the path at most. *)
Theorem addCallPath_keeps_nodes p id n :
  (∀ q ts, walk eq q n = Some ts ->
     walk eq q (addCallPath eq p id n) = Some ts) ∧
  (size n <= size (addCallPath eq p id n) <= size n + length p)%nat.
Proof.
  split; [intros q ts; apply walk_addCallPath|].
  rewrite size_addCallPath. pose proof (newNodes_le p n). lia.
Qed.

(** X11.  Adding a path that the tree holds already changes nothing, so
    the nodes keep the path id of the insertion that made them; with an
    [eq] that is an equivalence, adding the same path twice is adding it
    once. *)
Theorem addCallPath_again_changes_nothing :
  (∀ a, eq a a = true) ->
  (∀ a b, eq a b = true -> eq b a = true) ->
  (∀ a b c, eq a b = true -> eq b c = true -> eq a c = true) ->
  (∀ p id n, reaches eq p n = true -> addCallPath eq p id n = n) ∧
  (∀ p id id' n,
     addCallPath eq p id' (addCallPath eq p id n) = addCallPath eq p id n).
Proof.
  intros Hrefl Hsym Htrans. split; [apply addCallPath_reached|].
  intros p id id' n. apply addCallPath_reached.
  rewrite reaches_addCallPath by done.
  apply orb_true_iff. right.
  rewrite <- (take_ge p (length p)) at 1 by done.
  by apply isPrefixOf_take.
Qed.
End Keeping.

Lemma addCallPath_again_changes_nothing_witness :
  (∀ p id n, reaches sameCallee p n = true ->
     addCallPath sameCallee p id n = n) ∧
  (∀ p id id' n,
     addCallPath sameCallee p id' (addCallPath sameCallee p id n)
     = addCallPath sameCallee p id n).
Proof.
  apply (addCallPath_again_changes_nothing sameCallee).
  - apply sameCallee_reflexive.
  - apply sameCallee_symmetric.
  - apply sameCallee_transitive.
Defined.

(** The path ids after two insertions that share a call. *)
Example addCallPath_first_id_stays :
  addCallPath sameCallee [callTo "a" 1; callTo "c" 3] 8
    (addCallPath sameCallee [callTo "a" 1; callTo "b" 2] 7 empty)
  = Node (tip empty)
      [Node (mkTip (callTo "a" 1) 7)
         [Node (mkTip (callTo "b" 2) 7) [];
          Node (mkTip (callTo "c" 3) 8) []]] ∧
  walk sameCallee [callTo "a" 1; callTo "c" 3]
    (addCallPath sameCallee [callTo "a" 1; callTo "c" 3] 8
       (addCallPath sameCallee [callTo "a" 1; callTo "b" 2] 7 empty))
  = Some [(0%nat, mkTip (callTo "a" 1) 7); (1%nat, mkTip (callTo "c" 3) 8)].
Proof. split; vm_compute; reflexivity. Qed.

End CallTreeProps.

Module CallPathDumpProps.
Import CallTree KleeHandler.

Lemma string_app_assoc (a b c : string) : (a +:+ b) +:+ c = a +:+ (b +:+ c).
Proof.
  induction a as [|x a IH]; [done|].
  change (String x ((a +:+ b) +:+ c) = String x (a +:+ b +:+ c)).
  by rewrite IH.
Qed.

Lemma string_app_nil_r (a : string) : a +:+ "" = a.
Proof.
  induction a as [|x a IH]; [done|].
  change (String x (a +:+ "") = String x a). by rewrite IH.
Qed.

Lemma bind_Returned {A B} (m : Dump A) (k : A -> Dump B) a w :
  m = (Returned a, w) -> m ≫= k = ((k a).1, w +:+ (k a).2).
Proof. intros ->. unfold mbind, Dump_bind. by destruct (k a). Qed.

Lemma bind_status {A B} (m : Dump A) (k : A -> Dump B) :
  (m ≫= k).1 = match m.1 with
               | Returned a => (k a).1
               | AssertionFailed => AssertionFailed
               | NullDereference => NullDereference
               end.
Proof.
  destruct m as [[a| |] w]; unfold mbind, Dump_bind; simpl; [|done..].
  by destruct (k a).
Qed.

Lemma forEachWhile_halts {A} (body : A -> Dump bool) before x after
    partial :
  Forall (λ c, (body c).1 = Returned true) before ->
  body x = (Returned false, partial) ->
  forEachWhile body (before ++ x :: after) =
    (Returned false, joined ((λ c, (body c).2) <$> before) +:+ partial).
Proof.
  intros Hbefore Hx. induction Hbefore as [|c before Hc _ IH]; simpl.
  - rewrite (bind_Returned _ _ false partial) by done. simpl.
    by rewrite string_app_nil_r.
  - destruct (body c) as [st w] eqn:Hb. simpl in Hc. subst st.
    rewrite (bind_Returned _ _ true w) by done. rewrite IH. simpl.
    by rewrite string_app_assoc.
Qed.

Lemma forEach_cons {A} (body : A -> Dump unit) x l :
  forEach body (x :: l) = (body x;; forEach body l).
Proof. done. Qed.

Lemma forEach_constraints (constraints : list (ref Expr)) :
  Forall (λ e, e ≠ None) constraints ->
  forEach (λ ci, e ← deref ci; write e;; write nl) constraints =
    (Returned tt, joined ((λ e, default "" e +:+ nl) <$> constraints)).
Proof.
  induction 1 as [|[e|] constraints He _ IH]; [done| |done].
  rewrite forEach_cons, IH. unfold mbind, Dump_bind. simpl.
  by rewrite string_app_assoc.
Qed.

(** The way a sequence of writes ends is the way its first failing step
    ends. *)
Ltac status :=
  repeat (rewrite bind_status;
          cbn [fst snd write when mret Dump_ret assert deref]).

Lemma dumpArgPointee_missing p :
  FieldDescr.doTraceValueOut p = true -> FieldDescr.outVal p = None ->
  (FieldDescr.doTraceValueIn p = true -> is_Some (FieldDescr.inVal p)) ->
  (Plain.dumpArgPointee p).1 = Returned false.
Proof.
  intros Hout Hval Hin. unfold Plain.dumpArgPointee.
  rewrite Hout, Hval. status.
  destruct (FieldDescr.doTraceValueIn p); status; [|done].
  destruct (Hin eq_refl) as [v ->]. status. done.
Qed.

Lemma dumpArgField_missing fd :
  FieldDescr.doTraceValueOut fd = true -> FieldDescr.outVal fd = None ->
  (FieldDescr.doTraceValueIn fd = true -> is_Some (FieldDescr.inVal fd)) ->
  (Plain.dumpArgField fd).1 = Returned false.
Proof.
  intros Hout Hval Hin. unfold Plain.dumpArgField.
  rewrite Hout, Hval, orb_true_r. status.
  destruct (FieldDescr.doTraceValueIn fd); status; [|done].
  destruct (Hin eq_refl) as [v ->]. status. done.
Qed.

Lemma forEachWhile_status_false {A} (body : A -> Dump bool) good x rest :
  Forall (λ c, (body c).1 = Returned true) good ->
  (body x).1 = Returned false ->
  (forEachWhile body (good ++ x :: rest)).1 = Returned false.
Proof.
  intros Hgood Hx. induction Hgood as [|c good Hc _ IH]; simpl.
  - rewrite bind_status, Hx. done.
  - rewrite bind_status, Hc. done.
Qed.

Lemma dumpArgs_status_false good arg rest :
  Forall (λ a, ∀ is_last, (Plain.dumpArg a is_last).1 = Returned true) good ->
  (∀ is_last, (Plain.dumpArg arg is_last).1 = Returned false) ->
  (Plain.dumpArgs (good ++ arg :: rest)).1 = Returned false.
Proof.
  intros Hgood Harg. induction Hgood as [|a good Ha _ IH]; simpl.
  - rewrite bind_status, Harg. done.
  - rewrite bind_status, Ha. done.
Qed.

Lemma dumpArg_status_false arg e is_last :
  CallArg.expr arg = Some e -> CallArg.isPtr arg = true ->
  CallArg.funPtr arg = None ->
  FieldDescr.doTraceValueIn (CallArg.pointee arg) ||
    FieldDescr.doTraceValueOut (CallArg.pointee arg) = true ->
  (Plain.dumpArgPointee (CallArg.pointee arg)).1 = Returned false ->
  (Plain.dumpArg arg is_last).1 = Returned false.
Proof.
  intros He Hptr Hfun Htraced Hp. unfold Plain.dumpArg.
  rewrite He, Hptr, Hfun, Htraced. status. rewrite Hp. done.
Qed.

Lemma dumpCallInfo_status_false ci fn :
  CallInfo.f ci = Some fn -> CallInfo.returned ci = true ->
  (Plain.dumpArgs (CallInfo.args ci)).1 = Returned false ->
  (Plain.dumpCallInfo ci).1 = Returned false.
Proof.
  intros Hf Hret Hargs. unfold Plain.dumpCallInfo.
  rewrite Hf, Hret. status. rewrite Hargs. done.
Qed.

Lemma dumpArgPointee_field_missing p good k fd rest :
  (FieldDescr.doTraceValueIn p = true -> is_Some (FieldDescr.inVal p)) ->
  (FieldDescr.doTraceValueOut p = true -> is_Some (FieldDescr.outVal p)) ->
  FieldDescr.fields p = good ++ (k, fd) :: rest ->
  Forall (λ i, (Plain.dumpArgField i.2).1 = Returned true) good ->
  (Plain.dumpArgField fd).1 = Returned false ->
  (Plain.dumpArgPointee p).1 = Returned false.
Proof.
  intros Hin Hout Hfields Hgood Hfd. unfold Plain.dumpArgPointee.
  rewrite Hfields. status.
  assert ((forEachWhile (λ i : Z * FieldDescr.t, Plain.dumpArgField i.2)
             (good ++ (k, fd) :: rest)).1 = Returned false) as Hloop
    by (by apply forEachWhile_status_false).
  destruct (FieldDescr.doTraceValueIn p), (FieldDescr.doTraceValueOut p);
    try destruct (Hin eq_refl) as [v ->];
    try destruct (Hout eq_refl) as [v' ->];
    cbn [andb]; rewrite ?bool_decide_eq_false_2 by done;
    status; exact Hloop.
Qed.

Lemma neverFalse_bind {A} (m : Dump A) (k : A -> Dump bool) :
  (∀ a, m.1 = Returned a -> (k a).1 ≠ Returned false) ->
  (m ≫= k).1 ≠ Returned false.
Proof.
  intros Hk. rewrite bind_status.
  destruct m as [[a| |] w]; simpl; [by apply Hk|done..].
Qed.

Lemma forEachWhile_true {A} (body : A -> Dump bool) l a :
  (∀ x, (body x).1 ≠ Returned false) ->
  (forEachWhile body l).1 = Returned a -> a = true.
Proof.
  intros Hbody. induction l as [|x l IH]; simpl.
  - by intros [= <-].
  - rewrite bind_status. pose proof (Hbody x) as Hx.
    destruct (body x).1 as [[]| |]; try done.
Qed.

Lemma dumpCallArgSExpr_never_false arg :
  (SExpr.dumpCallArgSExpr arg).1 ≠ Returned false.
Proof.
  unfold SExpr.dumpCallArgSExpr.
  repeat (apply neverFalse_bind; intros). done.
Qed.

(** The s-expression serializer has no failure marker to return. *)
Lemma dumpCallInfoSExpr_never_false ci :
  (SExpr.dumpCallInfoSExpr ci).1 ≠ Returned false.
Proof.
  unfold SExpr.dumpCallInfoSExpr.
  do 9 (apply neverFalse_bind; intros).
  apply neverFalse_bind. intros go_on Hgo.
  apply forEachWhile_true in Hgo as ->;
    [|apply dumpCallArgSExpr_never_false].
  repeat (apply neverFalse_bind; intros). done.
Qed.

Section CallPaths.
Variable eq : CallInfo.t -> CallInfo.t -> bool.
Variable DumpCallTracePrefixes : bool.

Lemma callPathText_halts before ci after constraints partial :
  Forall (λ c, (Plain.dumpCallInfo c).1 = Returned true) before ->
  Plain.dumpCallInfo ci = (Returned false, partial) ->
  Forall (λ e, e ≠ None) constraints ->
  callPathText (mkState (before ++ ci :: after) constraints) =
    (Returned tt,
     joined ((λ c, (Plain.dumpCallInfo c).2) <$> before) +:+ partial +:+
     ";;-- Constraints --" +:+ nl +:+
     joined ((λ e, default "" e +:+ nl) <$> constraints)).
Proof.
  intros Hbefore Hci Hcs. unfold callPathText. simpl.
  rewrite (forEachWhile_halts _ _ _ _ partial) by done.
  rewrite forEach_constraints by done.
  unfold mbind, Dump_bind, write. simpl.
  by rewrite !string_app_assoc.
Qed.
End CallPaths.


(** X30.  The check the plaintext serializer does make.  When
    [dumpCallInfo] returns its failure marker for a call and the call-path
    file could be opened, [processCallPath] stops dumping calls there: the
    file holds the full text of the calls before it, the part of the
    failing call's line written up to the missing value, then the
    constraints section, and [processCallPath] returns.  The failure
    marker is returned when a pointer argument that is not a function
    pointer has a traced pointee that is marked [doTraceValueOut] without
    an [outVal], or a direct field of its traced pointee is, everything
    dumped before being present. *)
Theorem processCallPath_halts_at_missing_outVal
    (eq : CallInfo.t -> CallInfo.t -> bool) (DumpCallTracePrefixes : bool)
    (canOpen : string -> bool)
    (before : list CallInfo.t) (ci : CallInfo.t) (after : list CallInfo.t)
    (constraints : list (ref Expr)) (kh : KleeHandler.t) (partial : string) :
  canOpen ("call-path" +:+ setw6 (m_callPathIndex kh) +:+ ".txt") = true ->
  Forall (λ c, (Plain.dumpCallInfo c).1 = Returned true) before ->
  Plain.dumpCallInfo ci = (Returned false, partial) ->
  Forall (λ e, e ≠ None) constraints ->
  processCallPath eq DumpCallTracePrefixes true canOpen
      (mkState (before ++ ci :: after) constraints) kh =
    (Returned tt,
     KleeHandler.mk (wrap32 (m_callPathIndex kh + 1)) (m_callPathPrefixIndex kh)
       (if DumpCallTracePrefixes
        then addCallPath eq (before ++ ci :: after) (m_callPathIndex kh)
                         (m_callTree kh)
        else m_callTree kh)
       (files kh ++
        [("call-path" +:+ setw6 (m_callPathIndex kh) +:+ ".txt",
          joined ((λ c, (Plain.dumpCallInfo c).2) <$> before) +:+ partial +:+
          ";;-- Constraints --" +:+ nl +:+
          joined ((λ e, default "" e +:+ nl) <$> constraints))])) ∧
  (∀ c fn good arg rest e,
     CallInfo.f c = Some fn -> CallInfo.returned c = true ->
     CallInfo.args c = good ++ arg :: rest ->
     Forall (λ a, ∀ is_last, (Plain.dumpArg a is_last).1 = Returned true)
            good ->
     CallArg.expr arg = Some e -> CallArg.isPtr arg = true ->
     CallArg.funPtr arg = None ->
     (FieldDescr.doTraceValueIn (CallArg.pointee arg) = true ->
      is_Some (FieldDescr.inVal (CallArg.pointee arg))) ->
     FieldDescr.doTraceValueOut (CallArg.pointee arg) = true ->
     FieldDescr.outVal (CallArg.pointee arg) = None ->
     (Plain.dumpCallInfo c).1 = Returned false) ∧
  (∀ c fn good arg rest e goodFields k fd restFields,
     CallInfo.f c = Some fn -> CallInfo.returned c = true ->
     CallInfo.args c = good ++ arg :: rest ->
     Forall (λ a, ∀ is_last, (Plain.dumpArg a is_last).1 = Returned true)
            good ->
     CallArg.expr arg = Some e -> CallArg.isPtr arg = true ->
     CallArg.funPtr arg = None ->
     FieldDescr.doTraceValueIn (CallArg.pointee arg) ||
       FieldDescr.doTraceValueOut (CallArg.pointee arg) = true ->
     (FieldDescr.doTraceValueIn (CallArg.pointee arg) = true ->
      is_Some (FieldDescr.inVal (CallArg.pointee arg))) ->
     (FieldDescr.doTraceValueOut (CallArg.pointee arg) = true ->
      is_Some (FieldDescr.outVal (CallArg.pointee arg))) ->
     FieldDescr.fields (CallArg.pointee arg) =
       goodFields ++ (k, fd) :: restFields ->
     Forall (λ i, (Plain.dumpArgField i.2).1 = Returned true) goodFields ->
     (FieldDescr.doTraceValueIn fd = true -> is_Some (FieldDescr.inVal fd)) ->
     FieldDescr.doTraceValueOut fd = true ->
     FieldDescr.outVal fd = None ->
     (Plain.dumpCallInfo c).1 = Returned false).
Proof.
  intros Hopen Hbefore Hci Hcs. split_and!.
  - unfold processCallPath. simpl negb. cbn iota. rewrite Hopen.
    rewrite (callPathText_halts _ _ _ _ partial) by done.
    by destruct DumpCallTracePrefixes.
  - intros c fn good arg rest e Hf Hret Hargs Hgood He Hptr Hfun Hin Hout Hval.
    apply (dumpCallInfo_status_false c fn); [done..|]. rewrite Hargs.
    apply dumpArgs_status_false; [done|]. intros is_last.
    apply (dumpArg_status_false arg e); [done..| |].
    + by rewrite Hout, orb_true_r.
    + by apply dumpArgPointee_missing.
  - intros c fn good arg rest e goodFields k fd restFields Hf Hret Hargs
      Hgood He Hptr Hfun Htraced Hin Hout Hfields HgoodF Hfin Hfout Hfval.
    apply (dumpCallInfo_status_false c fn); [done..|]. rewrite Hargs.
    apply dumpArgs_status_false; [done|]. intros is_last.
    apply (dumpArg_status_false arg e); [done..|].
    eapply dumpArgPointee_field_missing; [done..|].
    by apply dumpArgField_missing.
Qed.

Lemma processCallPath_halts_at_missing_outVal_witness :
  processCallPath sameCallee false true
      (λ filename, String.eqb filename "call-path000003.txt")
      (mkState ([okCall] ++ e5Call :: [okCall]) [Some "(Eq 0 x)"%string])
      (KleeHandler.mk 3 0 empty []) =
    (Returned tt,
     KleeHandler.mk (wrap32 (3 + 1)) 0 empty
       ([] ++
        [("call-path" +:+ setw6 3 +:+ ".txt",
          joined ((λ c, (Plain.dumpCallInfo c).2) <$> [okCall]) +:+
          (Plain.dumpCallInfo e5Call).2 +:+
          ";;-- Constraints --" +:+ nl +:+
          joined ((λ e, default "" e +:+ nl) <$> [Some "(Eq 0 x)"%string]))])).
Proof.
  refine (proj1 (processCallPath_halts_at_missing_outVal sameCallee false
            (λ filename, String.eqb filename "call-path000003.txt")
            [okCall] e5Call [okCall] [Some "(Eq 0 x)"%string]
            (KleeHandler.mk 3 0 empty []) (Plain.dumpCallInfo e5Call).2
            _ _ _ _)).
  - vm_compute. reflexivity.
  - repeat constructor.
  - vm_compute. reflexivity.
  - repeat constructor. done.
Defined.

(** Scenario E5: the line of the failing call is cut at the missing value
    and the constraints section follows on the same line.  Where the file
    cannot be opened, the counter has gone up and the run ends in the null
    dereference. *)
Example processCallPath_E5 :
  processCallPath sameCallee false true (λ _, true)
      (mkState [okCall; e5Call; okCall] [Some "(Eq 0 x)"%string])
      (KleeHandler.mk 3 0 empty []) =
    (Returned tt,
     KleeHandler.mk 4 0 empty
       [("call-path000003.txt"%string,
         "7:start(n:(w32 3)) -> (w32 0)" +:+ nl +:+
         "12:recv(n:(w32 3),p:(w64 4096)&[(Read w8 0 pkt)" +:+
         ";;-- Constraints --" +:+ nl +:+
         "(Eq 0 x)" +:+ nl)]) ∧
  processCallPath sameCallee false true (λ _, false)
      (mkState [okCall; e5Call; okCall] [Some "(Eq 0 x)"%string])
      (KleeHandler.mk 3 0 empty []) =
    (NullDereference, KleeHandler.mk 4 0 empty []).
Proof. split; vm_compute; reflexivity. Qed.

(** C6: the code at a traced out-value that is absent, every file being
    opened.  For a pointee of an argument the plaintext serializer checks
    [outVal.isNull()] and returns its failure marker.  For the pointee of
    the return value it has no such check: on a call that returns a
    pointer whose traced pointee lacks its out-value, [dumpCallInfo]
    dereferences the null reference, and [processCallPath] ends there,
    in the middle of the file of that path.  The s-expression serializer
    has the check nowhere: on the call of scenario E5 it dereferences the
    null reference, and so does the prefix dump of a tree that holds the
    call. *)
Theorem missing_outVal_null_dereference :
  tracedOutAbsent retCall = true ∧
  (Plain.dumpCallInfo retCall).1 = NullDereference ∧
  (λ r : Status unit * KleeHandler.t,
     (r.1, m_callPathIndex r.2, (files r.2).*1))
    (processCallPath sameCallee false true (λ _, true)
       (mkState [okCall; retCall; okCall] [Some "(Eq 0 x)"%string])
       (KleeHandler.mk 3 0 empty []))
    = (NullDereference, 4, ["call-path000003.txt"%string]) ∧
  tracedOutAbsent e5Call = true ∧
  (Plain.dumpCallInfo e5Call).1 = Returned false ∧
  (SExpr.dumpCallInfoSExpr e5Call).1 = NullDereference ∧
  (dumpCallPathPrefixes sameFunction (λ _, true)
     (KleeHandler.mk 0 0 (addCallPath sameCallee [okCall; e5Call] 0 empty) [])).1
    = NullDereference ∧
  ¬ (∀ ci, tracedOutAbsent ci = true ->
       (SExpr.dumpCallInfoSExpr ci).1 = Returned false) ∧
  ¬ (∀ ci, tracedOutAbsent ci = true ->
       (Plain.dumpCallInfo ci).1 = Returned false).
Proof.
  split_and!.
  - vm_compute. reflexivity.
  - vm_compute. reflexivity.
  - vm_compute. reflexivity.
  - vm_compute. reflexivity.
  - vm_compute. reflexivity.
  - vm_compute. reflexivity.
  - vm_compute. reflexivity.
  - intros Hall. specialize (Hall e5Call eq_refl). vm_compute in Hall.
    discriminate Hall.
  - intros Hall. specialize (Hall retCall eq_refl). vm_compute in Hall.
    discriminate Hall.
Qed.

End CallPathDumpProps.

(** ** The serializers on whole call records *)

Module SerializerProps.
Import CallTree KleeHandler CallPathDumpProps.

Lemma FieldDescr_nested_ind (P : FieldDescr.t -> Prop) :
  (∀ fd, Forall (λ i, P i.2) (FieldDescr.fields fd) -> P fd) ->
  ∀ fd, P fd.
Proof.
  intros H. fix IH 1. intros fd. apply H.
  destruct fd as [n ty a di iv do ov fs]. simpl.
  induction fs as [|[k f] fs IHfs]; constructor; [apply IH|apply IHfs].
Qed.

Lemma forEach_Returned {A} (body : A -> Dump unit) l :
  Forall (λ x, (body x).1 = Returned tt) l ->
  (forEach body l).1 = Returned tt.
Proof.
  induction 1 as [|x l Hx _ IH]; [done|].
  rewrite forEach_cons, bind_status, Hx. exact IH.
Qed.

Lemma forEachWhile_Returned {A} (body : A -> Dump bool) l :
  Forall (λ x, (body x).1 = Returned true) l ->
  (forEachWhile body l).1 = Returned true.
Proof.
  induction 1 as [|x l Hx _ IH]; [done|].
  simpl. rewrite bind_status, Hx. exact IH.
Qed.

Lemma present_Some {A} (r : ref A) : present r = true -> ∃ a, r = Some a.
Proof. destruct r; [eauto|done]. Qed.

Lemma tracedPresent_unfold fd :
  tracedPresent fd = true ->
  (FieldDescr.doTraceValueIn fd = true -> ∃ v, FieldDescr.inVal fd = Some v) ∧
  (FieldDescr.doTraceValueOut fd = true -> ∃ v, FieldDescr.outVal fd = Some v) ∧
  Forall (λ i, tracedPresent i.2 = true) (FieldDescr.fields fd).
Proof.
  destruct fd as [n ty a di iv do ov fs]. simpl.
  rewrite !andb_true_iff. intros [[Hi Ho] Hf].
  split_and!.
  - intros ->. by apply present_Some.
  - intros ->. by apply present_Some.
  - apply Forall_forall. intros i Hin.
    rewrite forallb_forall in Hf. apply Hf. by apply list_elem_of_In.
Qed.

Lemma dumpPointeeInSExpr_eq pointee :
  SExpr.dumpPointeeInSExpr pointee =
  (write "((full (";;
   when (FieldDescr.doTraceValueIn pointee)
     (v ← deref (FieldDescr.inVal pointee); write v);;
   write "))";; write nl;; write " (sname (";;
   when (negb (bool_decide (FieldDescr.type pointee = "")))
     (write (FieldDescr.type pointee));;
   write "))";; write nl;;
   SExpr.dumpFieldsInSExpr (FieldDescr.fields pointee);;
   write ")").
Proof. by destruct pointee. Qed.

Lemma dumpPointeeOutSExpr_eq pointee :
  SExpr.dumpPointeeOutSExpr pointee =
  (write "((full (";;
   when (FieldDescr.doTraceValueOut pointee)
     (v ← deref (FieldDescr.outVal pointee); write v);;
   write "))";; write nl;; write " (sname (";;
   when (negb (bool_decide (FieldDescr.type pointee = "")))
     (write (FieldDescr.type pointee));;
   write "))";; write nl;;
   SExpr.dumpFieldsOutSExpr (FieldDescr.fields pointee);;
   write ")").
Proof. by destruct pointee. Qed.

Lemma dumpPointeeInSExpr_complete fd :
  tracedPresent fd = true -> (SExpr.dumpPointeeInSExpr fd).1 = Returned tt.
Proof.
  induction fd as [fd IH] using FieldDescr_nested_ind. intros Hp.
  apply tracedPresent_unfold in Hp as (Hi & _ & Hf).
  rewrite dumpPointeeInSExpr_eq.
  assert ((SExpr.dumpFieldsInSExpr (FieldDescr.fields fd)).1 = Returned tt)
    as Hloop.
  { unfold SExpr.dumpFieldsInSExpr. status.
    rewrite forEach_Returned; [done|].
    rewrite Forall_forall in IH, Hf. apply Forall_forall. intros i Hin.
    status. rewrite (IH i Hin (Hf i Hin)). status. done. }
  destruct (FieldDescr.doTraceValueIn fd);
    [destruct (Hi eq_refl) as [v ->]|];
    destruct (bool_decide (FieldDescr.type fd = ""));
    status; rewrite Hloop; status; done.
Qed.

Lemma dumpPointeeOutSExpr_complete fd :
  tracedPresent fd = true -> (SExpr.dumpPointeeOutSExpr fd).1 = Returned tt.
Proof.
  induction fd as [fd IH] using FieldDescr_nested_ind. intros Hp.
  apply tracedPresent_unfold in Hp as (_ & Ho & Hf).
  rewrite dumpPointeeOutSExpr_eq.
  assert ((SExpr.dumpFieldsOutSExpr (FieldDescr.fields fd)).1 = Returned tt)
    as Hloop.
  { unfold SExpr.dumpFieldsOutSExpr. status.
    rewrite forEach_Returned; [done|].
    rewrite Forall_forall in IH, Hf. apply Forall_forall. intros i Hin.
    status. rewrite (IH i Hin (Hf i Hin)). status. done. }
  destruct (FieldDescr.doTraceValueOut fd);
    [destruct (Ho eq_refl) as [v ->]|];
    destruct (bool_decide (FieldDescr.type fd = ""));
    status; rewrite Hloop; status; done.
Qed.

Lemma dumpCallArgSExpr_complete arg :
  present (CallArg.expr arg) = true ->
  tracedPresent (CallArg.pointee arg) = true ->
  (SExpr.dumpCallArgSExpr arg).1 = Returned true.
Proof.
  intros [e He]%present_Some Hp. unfold SExpr.dumpCallArgSExpr.
  rewrite He. status.
  destruct (CallArg.isPtr arg); [|status; done].
  destruct (CallArg.funPtr arg); [status; done|].
  destruct (_ || _); status; [|done].
  rewrite dumpPointeeInSExpr_complete by done. status.
  rewrite dumpPointeeOutSExpr_complete by done. status. done.
Qed.

Lemma dumpRetSExpr_complete ret :
  tracedPresent (RetVal.pointee ret) = true ->
  (SExpr.dumpRetSExpr ret).1 = Returned tt.
Proof.
  intros Hp. unfold SExpr.dumpRetSExpr.
  destruct (RetVal.expr ret); [|done]. status.
  destruct (RetVal.isPtr ret); [|status; done].
  destruct (RetVal.funPtr ret); [status; done|].
  destruct (_ || _); status; [|done].
  rewrite dumpPointeeOutSExpr_complete by done. status. done.
Qed.

Lemma dumpExtraPtrSExpr_complete cep :
  tracedPresent (CallExtraPtr.pointee cep) = true ->
  ∃ b, (SExpr.dumpExtraPtrSExpr cep).1 = Returned b.
Proof.
  intros Hp. unfold SExpr.dumpExtraPtrSExpr. status.
  destruct (CallExtraPtr.accessibleIn cep), (CallExtraPtr.accessibleOut cep);
    status;
    rewrite ?dumpPointeeInSExpr_complete by done; status;
    rewrite ?dumpPointeeOutSExpr_complete by done; status; eauto.
Qed.

Lemma contexts_complete (l : list (ref Expr)) :
  forallb present l = true ->
  (forEach (λ cci, write nl;; e ← deref cci; write e) l).1 = Returned tt.
Proof.
  intros H. apply forEach_Returned. apply Forall_forall. intros x Hin.
  rewrite forallb_forall in H.
  destruct (present_Some x (H x (proj1 (list_elem_of_In _ _) Hin))) as [e ->].
  done.
Qed.

Lemma dumpCallInfoSExpr_complete ci :
  complete ci = true -> (SExpr.dumpCallInfoSExpr ci).1 = Returned true.
Proof.
  unfold complete. rewrite !andb_true_iff.
  intros [[[[[[[fn Hf]%present_Some Hr] Ha] Hret] Hx] Hcc] Hrc].
  unfold SExpr.dumpCallInfoSExpr. rewrite Hf, Hr. status.
  rewrite forEachWhile_Returned.
  2:{ apply Forall_forall. intros arg Hin. rewrite forallb_forall in Ha.
      apply list_elem_of_In, Ha, andb_true_iff in Hin as [? ?].
      by apply dumpCallArgSExpr_complete. }
  status.
  rewrite forEach_Returned.
  2:{ apply Forall_forall. intros i Hin. rewrite forallb_forall in Hx.
      apply list_elem_of_In, Hx in Hin.
      destruct (dumpExtraPtrSExpr_complete _ Hin) as [b Hb].
      status. rewrite Hb. done. }
  status. rewrite dumpRetSExpr_complete by done. status.
  rewrite contexts_complete by done. status.
  rewrite contexts_complete by done. status. done.
Qed.

Lemma dumpArgField_complete fd :
  tracedPresent fd = true -> (Plain.dumpArgField fd).1 = Returned true.
Proof.
  intros (Hi & Ho & _)%tracedPresent_unfold. unfold Plain.dumpArgField.
  destruct (FieldDescr.doTraceValueIn fd);
    [destruct (Hi eq_refl) as [v ->]|];
    (destruct (FieldDescr.doTraceValueOut fd);
      [destruct (Ho eq_refl) as [v' ->]|]);
    cbn [orb andb]; rewrite ?bool_decide_eq_false_2 by done; status; done.
Qed.

Lemma dumpArgPointee_complete p :
  tracedPresent p = true -> (Plain.dumpArgPointee p).1 = Returned true.
Proof.
  intros Hp. pose proof Hp as (Hi & Ho & Hf)%tracedPresent_unfold.
  unfold Plain.dumpArgPointee.
  assert ((forEachWhile (λ i : Z * FieldDescr.t, Plain.dumpArgField i.2)
             (FieldDescr.fields p)).1 = Returned true) as Hloop.
  { apply forEachWhile_Returned. eapply Forall_impl; [exact Hf|].
    intros i Hi'. by apply dumpArgField_complete. }
  destruct (FieldDescr.doTraceValueIn p);
    [destruct (Hi eq_refl) as [v ->]|];
    (destruct (FieldDescr.doTraceValueOut p);
      [destruct (Ho eq_refl) as [v' ->]|]);
    cbn [orb andb]; rewrite ?bool_decide_eq_false_2 by done; status;
    exact Hloop.
Qed.

Lemma dumpArg_complete arg is_last :
  present (CallArg.expr arg) = true ->
  tracedPresent (CallArg.pointee arg) = true ->
  (Plain.dumpArg arg is_last).1 = Returned true.
Proof.
  intros [e He]%present_Some Hp. unfold Plain.dumpArg.
  rewrite He. status.
  destruct (CallArg.isPtr arg); [|status; by destruct is_last].
  destruct (CallArg.funPtr arg); [status; by destruct is_last|].
  destruct (_ || _); status; [|by destruct is_last].
  rewrite dumpArgPointee_complete by done. status. by destruct is_last.
Qed.

Lemma dumpArgs_complete args :
  forallb (λ arg, present (CallArg.expr arg) &&
                  tracedPresent (CallArg.pointee arg)) args = true ->
  (Plain.dumpArgs args).1 = Returned true.
Proof.
  induction args as [|arg args IH]; [done|].
  simpl. rewrite !andb_true_iff. intros [[He Hp] Hrest].
  rewrite bind_status, dumpArg_complete by done. by apply IH.
Qed.

Lemma dumpRetField_complete fd :
  tracedPresent fd = true -> (Plain.dumpRetField fd).1 = Returned tt.
Proof.
  intros (_ & Ho & _)%tracedPresent_unfold. unfold Plain.dumpRetField.
  destruct (FieldDescr.doTraceValueOut fd);
    [destruct (Ho eq_refl) as [v' ->]|]; status; done.
Qed.

Lemma dumpRet_complete r :
  tracedPresent (RetVal.pointee r) = true ->
  (Plain.dumpRet r).1 = Returned tt.
Proof.
  intros (_ & Ho & Hf)%tracedPresent_unfold. unfold Plain.dumpRet.
  destruct (RetVal.expr r); [|done]. status.
  destruct (RetVal.isPtr r); [|status; done].
  destruct (RetVal.funPtr r); [status; done|]. status.
  destruct (FieldDescr.doTraceValueOut (RetVal.pointee r)); [|status; done].
  destruct (Ho eq_refl) as [v' ->]. cbn [when]. status.
  rewrite forEach_Returned; [done|].
  eapply Forall_impl; [exact Hf|].
  intros i Hi'. by apply dumpRetField_complete.
Qed.

Lemma dumpExtraPtr_complete x :
  tracedPresent (CallExtraPtr.pointee x) = true ->
  (Plain.dumpExtraPtr x).1 = Returned tt.
Proof.
  intros (Hi & Ho & _)%tracedPresent_unfold. unfold Plain.dumpExtraPtr.
  destruct (FieldDescr.doTraceValueIn (CallExtraPtr.pointee x));
    [destruct (Hi eq_refl) as [v ->]|];
    (destruct (FieldDescr.doTraceValueOut (CallExtraPtr.pointee x));
      [destruct (Ho eq_refl) as [v' ->]|]); status; done.
Qed.

Lemma dumpCallInfo_complete ci :
  complete ci = true -> (Plain.dumpCallInfo ci).1 = Returned true.
Proof.
  unfold complete. rewrite !andb_true_iff.
  intros [[[[[[[fn Hf]%present_Some Hr] Ha] Hret] Hx] Hcc] Hrc].
  unfold Plain.dumpCallInfo. rewrite Hf, Hr. status.
  rewrite dumpArgs_complete by done. status.
  rewrite dumpRet_complete by done. status.
  rewrite forEach_Returned; [done|].
  apply Forall_forall. intros i Hin. rewrite forallb_forall in Hx.
  apply dumpExtraPtr_complete, Hx. by apply list_elem_of_In.
Qed.

(** X12.  On a complete call record, one whose callee is known and has
    returned, whose arguments and contexts have their expressions and
    whose traced values are all there, the plaintext serializer and the
    s-expression serializer both return [true]: no assertion fails, no
    null reference is read, and the failure marker is not returned. *)
Theorem serializers_return_true_on_complete_call ci :
  complete ci = true ->
  (Plain.dumpCallInfo ci).1 = Returned true ∧
  (SExpr.dumpCallInfoSExpr ci).1 = Returned true.
Proof.
  intros H. split.
  - by apply dumpCallInfo_complete.
  - by apply dumpCallInfoSExpr_complete.
Qed.

Lemma serializers_return_true_on_complete_call_witness :
  (Plain.dumpCallInfo sendCall).1 = Returned true ∧
  (SExpr.dumpCallInfoSExpr sendCall).1 = Returned true.
Proof.
  apply (serializers_return_true_on_complete_call sendCall).
  reflexivity.
Defined.

(** X13.  What the serializers do with a call that is not complete at
    its head.  Without a callee both read the name through a null
    pointer.  With a callee that has not returned both stop at
    [assert(ci.returned)], the plaintext one with the line number, the
    name and the opening parenthesis written, the s-expression one with
    [fun_name] written and [args] opened.  And the s-expression
    serializer never returns [false]. *)
Theorem serializers_stop_at_head ci :
  match CallInfo.f ci with
  | None =>
      (Plain.dumpCallInfo ci).1 = NullDereference ∧
      (SExpr.dumpCallInfoSExpr ci).1 = NullDereference
  | Some fn =>
      (CallInfo.returned ci = false ->
       Plain.dumpCallInfo ci
         = (AssertionFailed,
            decimal (CallInfo.callPlace ci) +:+ ":" +:+ fn +:+ "(") ∧
       SExpr.dumpCallInfoSExpr ci
         = (AssertionFailed,
            "((fun_name " +:+ dq +:+ fn +:+ dq +:+ ")" +:+ nl +:+ " (args ("))
  end ∧
  (SExpr.dumpCallInfoSExpr ci).1 ≠ Returned false.
Proof.
  split; [|apply dumpCallInfoSExpr_never_false].
  unfold Plain.dumpCallInfo, SExpr.dumpCallInfoSExpr.
  destruct (CallInfo.f ci) as [fn|]; [|done].
  intros ->. done.
Qed.

Lemma closes_app a : ∀ d b,
  closes d (a +:+ b) = closes d a ≫= λ d1, closes d1 b.
Proof.
  induction a as [|c a IH]; intros d b; [done|].
  change (closes d (String c (a +:+ b))
          = closes d (String c a) ≫= λ d1, closes d1 b).
  simpl. destruct (Ascii.eqb c "("); [apply IH|].
  destruct (Ascii.eqb c ")"); [|apply IH].
  destruct d; [done|apply IH].
Qed.

Lemma closes_shift s : ∀ a b d,
  closes a s = Some b -> closes (a + d) s = Some (b + d)%nat.
Proof.
  induction s as [|c s IH]; intros a b d; simpl.
  - by intros [= <-].
  - destruct (Ascii.eqb c "("); [apply (IH (S a))|].
    destruct (Ascii.eqb c ")"); [|apply IH].
    destruct a as [|a]; [done|]. apply IH.
Qed.

Lemma moves_write a b s : closes a s = Some b -> moves a b (write s).
Proof.
  intros H x w [= <- <-] d. by apply closes_shift.
Qed.

Lemma moves_balanced a s : balanced s = true -> moves a a (write s).
Proof.
  intros H%bool_decide_eq_true x w [= <- <-] d.
  apply (closes_shift s 0 0 (a + d)) in H. exact H.
Qed.

Lemma moves_ret {A} a (x : A) : moves a a (mret x).
Proof. intros y w [= <- <-] d. done. Qed.

Lemma moves_bind {A B} a b c (m : Dump A) (k : A -> Dump B) :
  moves a b m -> (∀ x, moves b c (k x)) -> moves a c (m ≫= k).
Proof.
  intros Hm Hk y w H d.
  destruct m as [[x| |] w1]; unfold mbind, Dump_bind in H; [|done..].
  destruct (k x) as [st w2] eqn:Hkx. injection H as -> <-.
  rewrite closes_app, (Hm x w1 eq_refl). simpl.
  by apply (Hk x y).
Qed.

Lemma moves_deref a (r : ref string) : moves a a (deref r).
Proof. destruct r; [apply moves_ret|]. intros y w [=]. Qed.

Lemma moves_assert a b : moves a a (assert b).
Proof. destruct b; [apply moves_ret|]. intros y w [=]. Qed.

Lemma moves_when a b body : moves a a body -> moves a a (when b body).
Proof. destruct b; [done|]. intros _. apply moves_ret. Qed.

Lemma moves_forEach {A} a (body : A -> Dump unit) l :
  Forall (λ x, moves a a (body x)) l -> moves a a (forEach body l).
Proof.
  induction 1 as [|x l Hx _ IH]; [apply moves_ret|].
  rewrite forEach_cons. eapply moves_bind; [exact Hx|]. intros _. exact IH.
Qed.

Lemma moves_forEachWhile {A} a (body : A -> Dump bool) l :
  Forall (λ x, moves a a (body x)) l -> moves a a (forEachWhile body l).
Proof.
  induction 1 as [|x l Hx _ IH]; [apply moves_ret|].
  simpl. eapply moves_bind; [exact Hx|]. intros [|]; [exact IH|].
  apply moves_ret.
Qed.

Lemma moves_at {A} k (m : Dump A) a b :
  moves a b m -> moves (a + k) (b + k) m.
Proof.
  intros H x w Hm d. rewrite <- !Nat.add_assoc. by apply (H x).
Qed.

Lemma closes_digits u : ∀ d, closes d (NilEmpty.string_of_uint u) = Some d.
Proof. induction u; intros d; simpl; auto. Qed.

Lemma closes_decimal n d : closes d (decimal n) = Some d.
Proof.
  unfold decimal, NilZero.string_of_uint.
  destruct (N.to_uint (Z.to_N n)) eqn:E; try apply closes_digits. done.
Qed.

Lemma moves_decimal a n : moves a a (write (decimal n)).
Proof. apply moves_write, closes_decimal. Qed.

Lemma moves_bind_val {A B} a b c (m : Dump A) (k : A -> Dump B) :
  moves a b m -> (∀ x w, m = (Returned x, w) -> moves b c (k x)) ->
  moves a c (m ≫= k).
Proof.
  intros Hm Hk y w H d.
  destruct m as [[x| |] w1]; unfold mbind, Dump_bind in H; [|done..].
  destruct (k x) as [st w2] eqn:Hkx. injection H as -> <-.
  rewrite closes_app, (Hm x w1 eq_refl). simpl.
  by apply (Hk x w1 eq_refl y).
Qed.

Lemma moves_deref_write a (r : ref string) :
  balancedRef r = true -> moves a a (v ← deref r; write v).
Proof.
  intros Hr. destruct r as [e|]; [|intros y w [=]].
  eapply moves_bind_val; [apply moves_ret|].
  intros x w [= <- _]. by apply moves_balanced.
Qed.

Lemma moves_deref_bind {B} a c (r : ref string) (k : string -> Dump B) :
  (∀ v, r = Some v -> moves a c (k v)) -> moves a c (deref r ≫= k).
Proof.
  intros Hk. destruct r as [e|]; [|intros y w [=]].
  replace a with (a + 0)%nat at 1 by lia.
  eapply moves_bind_val; [apply moves_ret|].
  intros x w [= <- _]. rewrite Nat.add_0_r. by apply Hk.
Qed.

Ltac lit := apply moves_write; reflexivity.
Ltac piece :=
  first [ lit
        | apply moves_decimal
        | apply moves_assert
        | apply moves_ret
        | (apply moves_balanced; eassumption)
        | (apply moves_deref_write; eassumption)
        | (apply moves_when; apply moves_deref_write; eassumption)
        | (apply moves_when; apply moves_balanced; eassumption)
        | eassumption ].
Ltac nestw known :=
  repeat first
    [ eapply moves_bind; [first [piece|known|solve [nestw known]]|intros _]
    | apply moves_deref_bind;
      let v := fresh "v" in let Hv := fresh "Hv" in
      intros v Hv; rewrite Hv in *; cbn [balancedRef] in * ];
  try first [piece|known].
Ltac nest := nestw fail.

Lemma balancedField_unfold fd :
  balancedField fd = true ->
  balanced (FieldDescr.name fd) = true ∧ balanced (FieldDescr.type fd) = true ∧
  balancedRef (FieldDescr.inVal fd) = true ∧
  balancedRef (FieldDescr.outVal fd) = true ∧
  Forall (λ i, balancedField i.2 = true) (FieldDescr.fields fd).
Proof.
  destruct fd as [n ty a di iv do ov fs]. simpl.
  rewrite !andb_true_iff. intros [[[[? ?] ?] ?] Hf].
  split_and!; [done..|].
  apply Forall_forall. intros i Hin.
  rewrite forallb_forall in Hf. apply Hf. by apply list_elem_of_In.
Qed.

Lemma dumpPointeeInSExpr_moves fd :
  balancedField fd = true -> ∀ a, moves a a (SExpr.dumpPointeeInSExpr fd).
Proof.
  induction fd as [fd IH] using FieldDescr_nested_ind. intros Hb a.
  apply balancedField_unfold in Hb as (Hn & Ht & Hi & Ho & Hf).
  rewrite dumpPointeeInSExpr_eq.
  assert (∀ a, moves a a (SExpr.dumpFieldsInSExpr (FieldDescr.fields fd)))
    as Hloop.
  { intros a'. unfold SExpr.dumpFieldsInSExpr.
    eapply moves_bind; [lit|intros _].
    eapply moves_bind; [|intros _].
    { apply moves_forEach.
      rewrite Forall_forall in IH, Hf. apply Forall_forall. intros i Hin.
      pose proof (IH i Hin (Hf i Hin)) as Hp.
      pose proof (balancedField_unfold _ (Hf i Hin)) as (Hn' & _).
      nestw ltac:(apply Hp). }
    lit. }
  nestw ltac:(apply Hloop).
Qed.

Lemma dumpPointeeOutSExpr_moves fd :
  balancedField fd = true -> ∀ a, moves a a (SExpr.dumpPointeeOutSExpr fd).
Proof.
  induction fd as [fd IH] using FieldDescr_nested_ind. intros Hb a.
  apply balancedField_unfold in Hb as (Hn & Ht & Hi & Ho & Hf).
  rewrite dumpPointeeOutSExpr_eq.
  assert (∀ a, moves a a (SExpr.dumpFieldsOutSExpr (FieldDescr.fields fd)))
    as Hloop.
  { intros a'. unfold SExpr.dumpFieldsOutSExpr.
    eapply moves_bind; [lit|intros _].
    eapply moves_bind; [|intros _].
    { apply moves_forEach.
      rewrite Forall_forall in IH, Hf. apply Forall_forall. intros i Hin.
      pose proof (IH i Hin (Hf i Hin)) as Hp.
      pose proof (balancedField_unfold _ (Hf i Hin)) as (Hn' & _).
      nestw ltac:(apply Hp). }
    lit. }
  nestw ltac:(apply Hloop).
Qed.

Lemma dumpCallArgSExpr_moves arg :
  balanced (CallArg.name arg) = true ->
  balancedRef (CallArg.expr arg) = true ->
  balancedRef (CallArg.funPtr arg) = true ->
  balancedField (CallArg.pointee arg) = true ->
  ∀ a, moves a a (SExpr.dumpCallArgSExpr arg).
Proof.
  intros Hn He Hf Hp a. unfold SExpr.dumpCallArgSExpr.
  pose proof (dumpPointeeInSExpr_moves _ Hp) as Hin.
  pose proof (dumpPointeeOutSExpr_moves _ Hp) as Hout.
  destruct (CallArg.isPtr arg); [|nest].
  destruct (CallArg.funPtr arg) as [fn|]; [simpl in Hf; nest|].
  destruct (_ || _); [|nest].
  nestw ltac:(first [apply Hin|apply Hout]).
Qed.

Lemma dumpRetSExpr_moves ret :
  balancedRef (RetVal.expr ret) = true ->
  balancedRef (RetVal.funPtr ret) = true ->
  balancedField (RetVal.pointee ret) = true ->
  ∀ a, moves a a (SExpr.dumpRetSExpr ret).
Proof.
  intros He Hf Hp a. unfold SExpr.dumpRetSExpr.
  pose proof (dumpPointeeOutSExpr_moves _ Hp) as Hout.
  destruct (RetVal.expr ret) as [e|]; [simpl in He|lit].
  destruct (RetVal.isPtr ret); [|nest].
  destruct (RetVal.funPtr ret) as [fn|]; [simpl in Hf; nest|].
  destruct (_ || _); [|nest].
  nestw ltac:(apply Hout).
Qed.

Lemma moves_eq {A} a b b' (m : Dump A) : b = b' -> moves a b m -> moves a b' m.
Proof. by intros ->. Qed.

Lemma Returned_true (m : Dump bool) x w :
  m.1 ≠ Returned false -> m = (Returned x, w) -> x = true.
Proof. intros Hm ->. by destruct x. Qed.

Ltac never_false := repeat (apply neverFalse_bind; intros); done.

Lemma dumpExtraPtrSExpr_moves cep :
  balanced (CallExtraPtr.name cep) = true ->
  balancedField (CallExtraPtr.pointee cep) = true ->
  ∀ a, moves a ((if inaccessible cep then 2 else 0) + a)
         (SExpr.dumpExtraPtrSExpr cep).
Proof.
  intros Hn Hp a. unfold SExpr.dumpExtraPtrSExpr, inaccessible.
  pose proof (dumpPointeeInSExpr_moves _ Hp) as Hin.
  pose proof (dumpPointeeOutSExpr_moves _ Hp) as Hout.
  destruct (CallExtraPtr.accessibleIn cep), (CallExtraPtr.accessibleOut cep);
    cbn [negb andb]; nest.
  - eapply moves_bind_val;
      [solve [nestw ltac:(first [apply Hin|apply Hout])]|].
    intros go_on w Hb. apply Returned_true in Hb as ->; [nest|never_false].
  - eapply moves_bind_val;
      [solve [nestw ltac:(first [apply Hin|apply Hout])]|].
    intros go_on w Hb. apply Returned_true in Hb as ->; [nest|never_false].
  - eapply moves_bind_val;
      [solve [nestw ltac:(first [apply Hin|apply Hout])]|].
    intros go_on w Hb. apply Returned_true in Hb as ->; [nest|never_false].
Qed.

Lemma extraPtrs_moves (l : list (Z * CallExtraPtr.t)) :
  forallb (λ i, balanced (CallExtraPtr.name i.2) &&
                balancedField (CallExtraPtr.pointee i.2)) l = true ->
  ∀ a, moves a (a + 2 * length (List.filter (λ i, inaccessible i.2) l))
         (forEach (λ i, SExpr.dumpExtraPtrSExpr i.2;; mret tt) l).
Proof.
  induction l as [|i l IH]; intros Hb a.
  - simpl. rewrite Nat.add_0_r. apply moves_ret.
  - simpl in Hb. apply andb_true_iff in Hb as [[Hn Hp]%andb_true_iff Hl].
    rewrite forEach_cons. eapply moves_bind.
    + eapply moves_bind; [by apply dumpExtraPtrSExpr_moves|].
      intros _. apply moves_ret.
    + intros _. eapply moves_eq; [|apply (IH Hl)].
      simpl. destruct (inaccessible i.2); simpl; lia.
Qed.

Lemma contexts_moves (l : list (ref Expr)) :
  forallb balancedRef l = true ->
  ∀ a, moves a a (forEach (λ cci, write nl;; e ← deref cci; write e) l).
Proof.
  intros Hb a. apply moves_forEach. apply Forall_forall. intros r Hin.
  rewrite forallb_forall in Hb.
  pose proof (Hb r (proj1 (list_elem_of_In _ _) Hin)) as Hr.
  nest.
Qed.

(** X14.  Parentheses in the s-expression serializer's output.  Let
    every name, type and expression of the call record be balanced by
    itself.  When the serializer returns, it returns [true], no closing
    parenthesis of the text comes without an open one, and as many
    parentheses are left open at the end as twice the number of extra
    pointers that are accessible neither before nor after the call: for
    such a pointer [dumpExtraPtrSExpr] returns [false] after it has
    opened two, and [dumpCallInfoSExpr] drops that result.  Without such
    a pointer the text is balanced. *)
Theorem dumpCallInfoSExpr_nesting ci w b :
  balancedCall ci = true ->
  SExpr.dumpCallInfoSExpr ci = (Returned b, w) ->
  b = true ∧ closes 0 w = Some (2 * inaccessibleExtraPtrs ci)%nat.
Proof.
  unfold balancedCall. rewrite !andb_true_iff.
  intros [[[[[Hf Ha] Hx] [[Hre Hrf] Hrp]] Hcc] Hrc] Hrun.
  split.
  { pose proof (dumpCallInfoSExpr_never_false ci) as Hn.
    rewrite Hrun in Hn. by destruct b. }
  assert (moves 0 (2 * inaccessibleExtraPtrs ci)
            (SExpr.dumpCallInfoSExpr ci)) as Hm.
  2:{ specialize (Hm b w Hrun 0%nat). by rewrite !Nat.add_0_r in Hm. }
  clear Hrun. unfold SExpr.dumpCallInfoSExpr, inaccessibleExtraPtrs.
  pose proof (extraPtrs_moves _ Hx) as Hextra.
  pose proof (dumpRetSExpr_moves _ Hre Hrf Hrp) as Hret.
  pose proof (contexts_moves _ Hcc) as Hcall.
  pose proof (contexts_moves _ Hrc) as Hrctx.
  assert (∀ a, moves a a (forEachWhile SExpr.dumpCallArgSExpr
                            (CallInfo.args ci))) as Hargs.
  { intros a. apply moves_forEachWhile. apply Forall_forall. intros arg Hin.
    rewrite forallb_forall in Ha.
    apply list_elem_of_In, Ha in Hin.
    rewrite !andb_true_iff in Hin. destruct Hin as [[[? ?] ?] ?].
    by apply dumpCallArgSExpr_moves. }
  nest.
  eapply moves_bind_val; [apply Hargs|].
  intros go_on w' Hgo.
  assert (go_on = true) as ->.
  { eapply forEachWhile_true; [apply dumpCallArgSExpr_never_false|].
    by rewrite Hgo. }
  nestw ltac:(first [apply Hextra|apply Hret|apply Hcall|apply Hrctx]).
Qed.

Lemma dumpCallInfoSExpr_nesting_witness :
  true = true ∧
  closes 0 (SExpr.dumpCallInfoSExpr lostCall).2
    = Some (2 * inaccessibleExtraPtrs lostCall)%nat.
Proof.
  apply (dumpCallInfoSExpr_nesting lostCall
           (SExpr.dumpCallInfoSExpr lostCall).2 true).
  - vm_compute. reflexivity.
  - vm_compute. reflexivity.
Defined.

(** The text for a call with its pointers accessible is balanced; the
    text for a call with one inaccessible extra pointer leaves two
    parentheses open. *)
Example dumpCallInfoSExpr_depths :
  balanced (SExpr.dumpCallInfoSExpr sendCall).2 = true ∧
  closes 0 (SExpr.dumpCallInfoSExpr lostCall).2 = Some 2%nat ∧
  (SExpr.dumpCallInfoSExpr lostCall).1 = Returned true.
Proof. split_and!; vm_compute; reflexivity. Qed.

End SerializerProps.

Module KleeHandlerProps.
Import KleeHandler.

Lemma rfindFrom_noUnderscore s : ∀ i found,
  noUnderscore s = true -> rfindFrom i found s = found.
Proof.
  induction s as [|c s IH]; intros i found H; simpl in *; [done|].
  apply andb_prop in H as [Hc H]. apply negb_true_iff in Hc.
  rewrite Hc. by apply IH.
Qed.

Lemma rfindFrom_last pre suf : ∀ i found,
  noUnderscore suf = true ->
  rfindFrom i found (pre +:+ String "_" suf)
    = Some (i + Z.of_nat (String.length pre)).
Proof.
  induction pre as [|c pre IH]; intros i found H; simpl.
  - rewrite rfindFrom_noUnderscore by done. f_equal. lia.
  - rewrite IH by done. f_equal. lia.
Qed.

Lemma length_append (a b : string) :
  String.length (a +:+ b) = (String.length a + String.length b)%nat.
Proof. induction a as [|c a IH]; simpl; [done|]. by rewrite IH. Qed.

Lemma get_append_r (a b : string) n :
  String.get (String.length a + n) (a +:+ b) = String.get n b.
Proof. induction a as [|c a IH]; simpl; done. Qed.

Lemma substring_append_l (a b : string) :
  String.substring 0 (String.length a) (a +:+ b) = a.
Proof.
  induction a as [|c a IH]; simpl; [by destruct b|]. by rewrite IH.
Qed.

Lemma append_snoc (a : string) c (b : string) :
  (a +:+ String c "") +:+ b = a +:+ String c b.
Proof.
  induction a as [|x a IH]; [done|].
  change (String x ((a +:+ String c "") +:+ b) = String x (a +:+ String c b)).
  by rewrite IH.
Qed.

Lemma allDigitsFrom_suffix b : ∀ a fuel,
  Z.of_nat (String.length (a +:+ b)) < 2 ^ 32 ->
  (String.length b < fuel)%nat ->
  allDigitsFrom fuel (a +:+ b) (Z.of_nat (String.length a))
    = Some (allDigits b).
Proof.
  induction b as [|c b IH]; intros a fuel Hlen Hfuel.
  - destruct fuel as [|fuel]; [simpl in Hfuel; lia|]. simpl.
    rewrite length_append. simpl.
    destruct (Z.ltb_spec (Z.of_nat (String.length a))
                (Z.of_nat (String.length a + 0))); [lia|done].
  - destruct fuel as [|fuel]; [simpl in Hfuel; lia|].
    cbn [allDigitsFrom allDigits].
    rewrite length_append in Hlen |- *. simpl String.length in Hlen |- *.
    destruct (Z.ltb_spec (Z.of_nat (String.length a))
                (Z.of_nat (String.length a + S (String.length b))));
      [|lia].
    rewrite Nat2Z.id.
    replace (String.length a) with (String.length a + 0)%nat at 1 by lia.
    rewrite get_append_r. simpl.
    destruct (isDigit c); [|done]. simpl.
    unfold wrap32. rewrite Z.mod_small by lia.
    rewrite <- append_snoc.
    replace (Z.of_nat (String.length a) + 1)
      with (Z.of_nat (String.length (a +:+ String c ""))).
    2:{ rewrite length_append. simpl. lia. }
    apply IH.
    + rewrite !length_append. simpl. lia.
    + simpl in Hfuel. lia.
Qed.

Lemma last_underscore_split (name : string) :
  noUnderscore name = true ∨
  ∃ pre suf, name = pre +:+ String "_" suf ∧ noUnderscore suf = true.
Proof.
  induction name as [|c name IH]; [by left|].
  destruct IH as [Hno|(pre & suf & -> & Hsuf)].
  - destruct (Ascii.eqb c "_") eqn:Hc.
    + right. exists ""%string, name. apply Ascii.eqb_eq in Hc as ->. done.
    + left. simpl. by rewrite Hc, Hno.
  - right. by exists (String c pre), suf.
Qed.

(** C9: the name given to a symbolic object loses a trailing underscore
    followed by digits only, and nothing else: a name is either free of
    underscores, and then kept, or splits at its last underscore into
    [pre], the underscore and [suf]; it becomes [pre] when [suf] holds
    digits only and is kept otherwise.  Names are shorter than [2^32]
    characters, the range of the [unsigned] loop counter. *)
Theorem objectName_drops_digit_suffix (name : string) :
  Z.of_nat (String.length name) < 2 ^ 32 ->
  (noUnderscore name = true ∨
   ∃ pre suf, name = pre +:+ String "_" suf ∧ noUnderscore suf = true) ∧
  (noUnderscore name = true -> objectName name = Some name) ∧
  (∀ pre suf, name = pre +:+ String "_" suf -> noUnderscore suf = true ->
     objectName name = Some (if allDigits suf then pre else name)).
Proof.
  intros Hlen. split; [apply last_underscore_split|]. split.
  - intros H. unfold objectName, rfind_underscore.
    by rewrite rfindFrom_noUnderscore.
  - intros pre suf -> H. unfold objectName, rfind_underscore.
    rewrite rfindFrom_last by done. rewrite Z.add_0_l.
    assert (Z.of_nat (String.length pre) + 1 < 2 ^ 32) as Hpre.
    { rewrite length_append in Hlen. simpl in Hlen. lia. }
    unfold wrap32 at 1. rewrite Z.mod_small by lia.
    rewrite <- append_snoc.
    replace (Z.of_nat (String.length pre) + 1)
      with (Z.of_nat (String.length (pre +:+ String "_" "")))
      by (rewrite length_append; simpl; lia).
    rewrite allDigitsFrom_suffix.
    + simpl. destruct (allDigits suf); [|done].
      rewrite append_snoc, Nat2Z.id.
      by rewrite substring_append_l.
    + rewrite !length_append in *. simpl in *. lia.
    + rewrite !length_append. simpl. lia.
Qed.

Lemma objectName_drops_digit_suffix_witness :
  (noUnderscore "arr_12" = true ∨
   ∃ pre suf, "arr_12"%string = pre +:+ String "_" suf ∧
              noUnderscore suf = true) ∧
  (noUnderscore "arr_12" = true -> objectName "arr_12" = Some "arr_12"%string) ∧
  (∀ pre suf, "arr_12"%string = pre +:+ String "_" suf ->
     noUnderscore suf = true ->
     objectName "arr_12" = Some (if allDigits suf then pre else "arr_12"%string)).
Proof.
  apply (objectName_drops_digit_suffix "arr_12"). vm_compute. reflexivity.
Defined.

(** A suffix of digits goes, [_1a] stays, and so does a name without an
    underscore; only the last underscore counts; an underscore at the very
    end goes as well, for no character after it is a non-digit. *)
Example objectName_examples :
  objectName "arr_12" = Some "arr"%string ∧
  objectName "arr_1a" = Some "arr_1a"%string ∧
  objectName "arr" = Some "arr"%string ∧
  objectName "a_b_3" = Some "a_b"%string ∧
  objectName "user_buf_007" = Some "user_buf"%string ∧
  objectName "arr_" = Some "arr"%string.
Proof. split_and!; reflexivity. Qed.

(** ** Names of the output files, and the mask of a havoced location *)

Lemma zeros_cons k :
  String.concat "" (replicate (S k) "0"%string)
  = String "0" (String.concat "" (replicate k "0"%string)).
Proof. destruct k; reflexivity. Qed.

Lemma uint_of_string_zeros k s d :
  NilEmpty.uint_of_string s = Some d ->
  ∃ d', NilEmpty.uint_of_string
          (String.concat "" (replicate k "0"%string) +:+ s) = Some d' ∧
        N.of_uint d' = N.of_uint d.
Proof.
  intros Hs. induction k as [|k (d' & Hd' & Hn)].
  - exists d. done.
  - exists (Decimal.D0 d'). rewrite zeros_cons.
    change (String "0" ?a +:+ s) with (String "0" (a +:+ s)).
    simpl. rewrite Hd'. done.
Qed.

Lemma decimal_nonempty n : decimal n ≠ ""%string.
Proof.
  unfold decimal, NilZero.string_of_uint.
  destruct (N.to_uint (Z.to_N n)); done.
Qed.

Lemma uint_of_string_decimal n :
  NilEmpty.uint_of_string (decimal n) = Some (N.to_uint (Z.to_N n)).
Proof.
  unfold decimal, NilZero.string_of_uint.
  pose proof (NilEmpty.usu (N.to_uint (Z.to_N n))) as H.
  destruct (N.to_uint (Z.to_N n)) eqn:E; try exact H.
  exfalso. destruct (Z.to_N n); [done|].
  simpl in E. by apply (Unsigned.to_uint_nonnil p).
Qed.

Lemma readDecimal_setw6 id : 0 <= id -> readDecimal (setw6 id) = Some id.
Proof.
  intros Hid. unfold readDecimal, setw6.
  destruct (uint_of_string_zeros (6 - String.length (decimal id)) _ _
              (uint_of_string_decimal id)) as (d' & Hd' & Hn).
  unfold NilZero.uint_of_string.
  destruct (String.concat _ _ +:+ decimal id) eqn:E.
  - exfalso. apply (f_equal String.length) in E.
    rewrite length_append in E. simpl in E.
    pose proof (decimal_nonempty id) as Hne.
    destruct (decimal id); [done|]. simpl in E. lia.
  - rewrite Hd'. simpl. rewrite Hn, DecimalN.Unsigned.of_to. f_equal. lia.
Qed.

Lemma setw6_inj a b : 0 <= a -> 0 <= b -> setw6 a = setw6 b -> a = b.
Proof.
  intros Ha Hb E. apply (f_equal readDecimal) in E.
  rewrite !readDecimal_setw6 in E by done. by injection E.
Qed.

Lemma append_inj_l (p a b : string) : p +:+ a = p +:+ b -> a = b.
Proof.
  induction p as [|c p IH]; [done|].
  change (String c (p +:+ a) = String c (p +:+ b) -> a = b).
  intros [= E]. by apply IH.
Qed.

Lemma append_inj_r (a b t : string) : a +:+ t = b +:+ t -> a = b.
Proof.
  revert b. induction a as [|c a IH]; intros [|c' b] E; [done| | |].
  - exfalso. apply (f_equal String.length) in E.
    rewrite !length_append in E. simpl in E. lia.
  - exfalso. apply (f_equal String.length) in E.
    rewrite !length_append in E. simpl in E. lia.
  - change (String c (a +:+ t) = String c' (b +:+ t)) in E.
    injection E as -> E. f_equal. by apply IH.
Qed.

(** X15.  The six-digit field of a file name reads back as the index it
    was made from and is six characters wide at least, so two test cases,
    two call paths or two call-path prefixes with different indices never
    share a file name. *)
Theorem getTestFilename_tells_tests_apart suffix id1 id2 :
  0 <= id1 -> 0 <= id2 ->
  readDecimal (setw6 id1) = Some id1 ∧
  (6 <= String.length (setw6 id1))%nat ∧
  (getTestFilename suffix id1 = getTestFilename suffix id2 -> id1 = id2) ∧
  (callPathFile id1 = callPathFile id2 -> id1 = id2) ∧
  (callPrefixFile id1 = callPrefixFile id2 -> id1 = id2).
Proof.
  intros H1 H2. split_and!.
  - by apply readDecimal_setw6.
  - unfold setw6. rewrite length_append.
    assert (∀ k, String.length (String.concat "" (replicate k "0"%string)) = k)
      as ->; [|lia].
    induction k as [|k IH]; [done|]. rewrite zeros_cons. simpl. by rewrite IH.
  - unfold getTestFilename. intros E%append_inj_l.
    rewrite <- !CallPathDumpProps.string_app_assoc in E. apply append_inj_r in E.
    apply append_inj_r in E. by apply setw6_inj.
  - unfold callPathFile. intros E%append_inj_l%append_inj_r.
    by apply setw6_inj.
  - unfold callPrefixFile. intros E%append_inj_l%append_inj_r.
    by apply setw6_inj.
Qed.

Lemma substring_all (s : string) n :
  (String.length s <= n)%nat -> String.substring 0 n s = s.
Proof.
  revert n. induction s as [|c s IH]; intros [|n] H; simpl in *;
    [done|done|lia|].
  f_equal. apply IH. lia.
Qed.

Lemma substring_append_r (a b : string) n :
  String.substring (String.length a) n (a +:+ b) = String.substring 0 n b.
Proof.
  induction a as [|c a IH]; [done|].
  change (String.substring (S (String.length a)) n (String c (a +:+ b))
          = String.substring 0 n b).
  simpl. exact IH.
Qed.

Lemma substring_split (s : string) : ∀ n m,
  (n <= String.length s)%nat -> (String.length s <= n + m)%nat ->
  s = String.substring 0 n s +:+ String.substring n m s.
Proof.
  induction s as [|c s IH]; intros n m Hn Hm.
  - destruct n, m; done.
  - destruct n as [|n].
    + change (String.substring 0 0 (String c s)) with ""%string.
      change ("" +:+ ?x) with x. symmetry. apply substring_all. lia.
    + change (String c s = String c (String.substring 0 n s +:+
                String.substring n m s)).
      f_equal. apply IH; simpl in *; lia.
Qed.

Lemma isKTestFile_iff f :
  isKTestFile f = true <-> ∃ stem, f = stem +:+ ".ktest".
Proof.
  unfold isKTestFile. rewrite andb_true_iff, Nat.leb_le, String.eqb_eq.
  split.
  - intros [Hlen E]. exists (String.substring 0 (String.length f - 6) f).
    rewrite <- E. apply substring_split; lia.
  - intros [stem ->]. rewrite length_append. simpl. split; [lia|].
    replace (String.length stem + 6 - 6)%nat with (String.length stem) by lia.
    rewrite substring_append_r. apply substring_all. simpl. lia.
Qed.

Lemma getKTestFilesInDir_fold entries : ∀ results,
  fold_left (λ results f, if isKTestFile f then results ++ [f] else results)
            entries results
  = results ++ List.filter isKTestFile entries.
Proof.
  induction entries as [|f entries IH]; intros results; simpl.
  - by rewrite app_nil_r.
  - rewrite IH. destruct (isKTestFile f); [|done].
    by rewrite <- app_assoc.
Qed.

(** X16.  [getKTestFilesInDir] appends to [results], in directory
    order, exactly the paths that end in [.ktest], and exits with code 1
    when the directory walk ended on an error.  Every test case that
    [processTestCase] writes, in whatever directory, passes its test, so a
    replay or seed directory finds the test cases of an earlier run. *)
Theorem getKTestFilesInDir_finds_test_cases entries ec results :
  getKTestFilesInDir entries ec results
    = (if ec then Exits 1
       else Returns (results ++ List.filter isKTestFile entries)) ∧
  (∀ f, isKTestFile f = true <-> ∃ stem, f = stem +:+ ".ktest") ∧
  (∀ dir id, isKTestFile (dir +:+ getTestFilename "ktest" id) = true).
Proof.
  split_and!.
  - unfold getKTestFilesInDir. by rewrite getKTestFilesInDir_fold.
  - apply isKTestFile_iff.
  - intros dir id. apply isKTestFile_iff.
    exists (dir +:+ "test" +:+ setw6 id). unfold getTestFilename.
    by rewrite !CallPathDumpProps.string_app_assoc.
Qed.

(** X17.  The mask of a havoced location holds one bit per byte of the
    location, rounded up to whole 32-bit words: [mask_size] is four times
    the number of words, and that number is the least one whose bits cover
    [numBytes]. *)
Theorem mask_size_one_bit_per_byte numBytes :
  0 <= numBytes <= 2 ^ 32 - 32 ->
  mask_size numBytes = 4 * maskWords numBytes ∧
  32 * (maskWords numBytes - 1) < numBytes <= 32 * maskWords numBytes.
Proof.
  intros H. unfold maskWords, mask_size, wrap32.
  rewrite (Z.mod_small (numBytes + 31)) by lia.
  pose proof (Z.div_mod (numBytes + 31) 32 ltac:(lia)) as Hd.
  pose proof (Z.mod_pos_bound (numBytes + 31) 32 ltac:(lia)) as Hm.
  assert (0 <= (numBytes + 31) / 32 < 2 ^ 27) as Hq.
  { split; [apply Z.div_pos; lia|]. apply Z.div_lt_upper_bound; lia. }
  rewrite Z.mod_small by lia.
  rewrite Z.div_mul by lia. lia.
Qed.

Lemma getTestFilename_tells_tests_apart_witness :
  readDecimal (setw6 7) = Some 7 ∧
  (6 <= String.length (setw6 7))%nat ∧
  (getTestFilename "ktest" 7 = getTestFilename "ktest" 1000000 ->
   7 = 1000000) ∧
  (callPathFile 7 = callPathFile 1000000 -> 7 = 1000000) ∧
  (callPrefixFile 7 = callPrefixFile 1000000 -> 7 = 1000000).
Proof.
  apply (getTestFilename_tells_tests_apart "ktest" 7 1000000); lia.
Defined.

Lemma mask_size_one_bit_per_byte_witness :
  mask_size 33 = 4 * maskWords 33 ∧
  32 * (maskWords 33 - 1) < 33 <= 32 * maskWords 33.
Proof. apply (mask_size_one_bit_per_byte 33). lia. Defined.

Example test_case_files :
  getTestFilename "ktest" 7 = "test000007.ktest"%string ∧
  getTestFilename "ktest" 1234567 = "test1234567.ktest"%string ∧
  getKTestFilesInDir
    ["out/test000001.ktest"; "out/test000001.path"; "out/info"; ".ktest";
     "ktest"; "out/test000002.ktest"]%string false ["seed.ktest"%string]
  = Returns ["seed.ktest"; "out/test000001.ktest"; ".ktest";
             "out/test000002.ktest"]%string ∧
  mask_size <$> [0; 1; 32; 33; 64] = [0; 4; 4; 8; 8].
Proof. split_and!; vm_compute; reflexivity. Qed.

End KleeHandlerProps.

(** ** The files of a run: call paths and call-path prefixes *)

Module CallPathFilesProps.
Import CallTree KleeHandler KleeHandlerProps CallPathDumpProps SerializerProps.

Lemma wrap32_add_l a b : wrap32 (wrap32 a + b) = wrap32 (a + b).
Proof. unfold wrap32. by rewrite Zplus_mod_idemp_l. Qed.

Lemma wrap32_small a : 0 <= a < 2 ^ 32 -> wrap32 a = a.
Proof. unfold wrap32. apply Z.mod_small. Qed.

Lemma wrap32_range a : 0 <= wrap32 a < 2 ^ 32.
Proof. unfold wrap32. apply Z.mod_pos_bound. lia. Qed.

Section Files.
Variable eq : CallInfo.t -> CallInfo.t -> bool.
Variable sameInvocation : CallInfo.t -> CallInfo.t -> bool.
Variable DumpCallTracePrefixes DumpCallTraces : bool.
Variable canOpen : string -> bool.

Lemma processCallPath_Returned state kh kh' :
  processCallPath eq DumpCallTracePrefixes DumpCallTraces canOpen state kh
    = (Returned tt, kh') ->
  m_callPathPrefixIndex kh' = m_callPathPrefixIndex kh ∧
  m_callTree kh' =
    (if DumpCallTracePrefixes
     then addCallPath eq (callPath state) (m_callPathIndex kh) (m_callTree kh)
     else m_callTree kh) ∧
  if DumpCallTraces then
    m_callPathIndex kh' = wrap32 (m_callPathIndex kh + 1) ∧
    (files kh').*1 = (files kh).*1 ++ [callPathFile (m_callPathIndex kh)] ∧
    canOpen (callPathFile (m_callPathIndex kh)) = true
  else
    m_callPathIndex kh' = m_callPathIndex kh ∧ files kh' = files kh.
Proof.
  unfold processCallPath. destruct DumpCallTraces; simpl.
  - fold (callPathFile (m_callPathIndex kh)).
    destruct (canOpen (callPathFile (m_callPathIndex kh))) eqn:Hopen;
      [|discriminate].
    destruct (callPathText state) as [st text]. intros [= -> <-]. simpl.
    split_and!; [done..| |done]. by rewrite fmap_app.
  - intros [= <-]. done.
Qed.

Lemma processCallPaths_Returned states : ∀ kh kh',
  0 <= m_callPathIndex kh < 2 ^ 32 ->
  processCallPaths eq DumpCallTracePrefixes DumpCallTraces canOpen states kh
    = (Returned tt, kh') ->
  m_callPathPrefixIndex kh' = m_callPathPrefixIndex kh ∧
  m_callTree kh' =
    (if DumpCallTracePrefixes
     then addCallPaths eq
            (imap (λ k state,
                     (callPath state,
                      if DumpCallTraces
                      then wrap32 (m_callPathIndex kh + Z.of_nat k)
                      else m_callPathIndex kh)) states)
            (m_callTree kh)
     else m_callTree kh) ∧
  if DumpCallTraces then
    m_callPathIndex kh'
      = wrap32 (m_callPathIndex kh + Z.of_nat (length states)) ∧
    (files kh').*1 =
      (files kh).*1 ++
      ((λ k, callPathFile (wrap32 (m_callPathIndex kh + Z.of_nat k)))
         <$> seq 0 (length states)) ∧
    Forall (λ filename, canOpen filename = true)
      ((λ k, callPathFile (wrap32 (m_callPathIndex kh + Z.of_nat k)))
         <$> seq 0 (length states))
  else
    m_callPathIndex kh' = m_callPathIndex kh ∧ files kh' = files kh.
Proof.
  induction states as [|state states IH]; intros kh kh' Hidx H.
  - injection H as <-. simpl. rewrite Z.add_0_r, wrap32_small, app_nil_r by done.
    by destruct DumpCallTracePrefixes, DumpCallTraces.
  - cbn [processCallPaths] in H.
    destruct (processCallPath eq DumpCallTracePrefixes DumpCallTraces canOpen
                state kh) as [[[]| |] kh1] eqn:H1; try discriminate H.
    apply processCallPath_Returned in H1 as (Hp1 & Ht1 & H1).
    assert (0 <= m_callPathIndex kh1 < 2 ^ 32) as Hidx1.
    { destruct DumpCallTraces; destruct H1 as [-> _];
        [apply wrap32_range|done]. }
    destruct (IH kh1 kh' Hidx1 H) as (Hp & Ht & Hrest).
    split_and!.
    + congruence.
    + rewrite Ht, Ht1. destruct DumpCallTracePrefixes; [|done].
      cbn [imap addCallPaths fold_left fst snd]. unfold addCallPaths.
      f_equal.
      * apply imap_ext. intros k st _. simpl. f_equal.
        destruct DumpCallTraces; destruct H1 as [-> _]; [|done].
        rewrite wrap32_add_l. f_equal. lia.
      * f_equal. destruct DumpCallTraces; [|done].
        by rewrite Z.add_0_r, wrap32_small.
    + destruct DumpCallTraces.
      * destruct H1 as (Hi1 & Hf1 & Ho1), Hrest as (Hi & Hf & Ho).
        assert ((λ k, callPathFile (wrap32 (m_callPathIndex kh + Z.of_nat k)))
                  <$> seq 0 (length (state :: states))
                = [callPathFile (m_callPathIndex kh)] ++
                  ((λ k, callPathFile
                           (wrap32 (m_callPathIndex kh1 + Z.of_nat k)))
                     <$> seq 0 (length states))) as Hnames.
        { cbn [length seq fmap list_fmap]. rewrite Z.add_0_r.
          rewrite (wrap32_small (m_callPathIndex kh)) by done.
          change (?x :: ?l) with ([x] ++ l). f_equal.
          rewrite <- fmap_S_seq, <- list_fmap_compose.
          apply list_fmap_ext. intros i k _. simpl.
          rewrite Hi1, wrap32_add_l. do 2 f_equal. lia. }
        split_and!.
        -- rewrite Hi, Hi1, wrap32_add_l. f_equal. simpl length. lia.
        -- by rewrite Hf, Hf1, <- app_assoc, Hnames.
        -- rewrite Hnames. apply Forall_app. split; [by constructor|done].
      * destruct H1 as [Hi1 Hf1], Hrest as [Hi Hf]. split; congruence.
Qed.

Lemma callPathFiles_NoDup idx n :
  Z.of_nat n <= 2 ^ 32 ->
  NoDup ((λ k, callPathFile (wrap32 (idx + Z.of_nat k))) <$> seq 0 n).
Proof.
  intros Hn. apply NoDup_fmap_2_strong; [|apply NoDup_seq].
  intros i j Hi%elem_of_seq Hj%elem_of_seq E.
  unfold callPathFile in E.
  apply append_inj_l, append_inj_r, setw6_inj in E;
    [|apply wrap32_range..].
  unfold wrap32 in E.
  assert ((Z.of_nat i - Z.of_nat j) mod 2 ^ 32 = 0) as Hd.
  { replace (Z.of_nat i - Z.of_nat j)
      with ((idx + Z.of_nat i) - (idx + Z.of_nat j)) by lia.
    rewrite Zminus_mod, E, Z.sub_diag. done. }
  apply Z.mod_divide in Hd as [q Hq]; [|lia].
  assert (q = 0) by nia. lia.
Qed.

End Files.

Lemma CallTree_nested_ind (P : CallTree.t -> Prop) :
  (∀ tp ch, Forall P ch -> P (Node tp ch)) -> ∀ n, P n.
Proof.
  intros H. fix IH 1. intros [tp ch]. apply H.
  induction ch as [|c ch IHch]; constructor; [apply IH|apply IHch].
Qed.

Lemma prefix_names_app idx a b :
  (λ k, callPrefixFile (wrap32 (idx + Z.of_nat k))) <$> seq 1 (a + b)
  = ((λ k, callPrefixFile (wrap32 (idx + Z.of_nat k))) <$> seq 1 a) ++
    ((λ k, callPrefixFile (wrap32 (wrap32 (idx + Z.of_nat a) + Z.of_nat k)))
       <$> seq 1 b).
Proof.
  rewrite seq_app, fmap_app. f_equal.
  replace (1 + a)%nat with (a + 1)%nat by lia.
  rewrite <- (fmap_add_seq a 1 b), <- list_fmap_compose.
  apply list_fmap_ext. intros i k _. simpl.
  rewrite wrap32_add_l. do 2 f_equal. lia.
Qed.

Section Prefixes.
Variable sameInvocation : CallInfo.t -> CallInfo.t -> bool.
Variable canOpen : string -> bool.

Lemma dumpGroups_Returned accumulated_prefix tipCalls : ∀ kh kh',
  dumpGroups canOpen accumulated_prefix tipCalls kh = (Returned tt, kh') ->
  m_callPathIndex kh' = m_callPathIndex kh ∧
  m_callTree kh' = m_callTree kh ∧
  wrap32 (m_callPathPrefixIndex kh')
    = wrap32 (m_callPathPrefixIndex kh + Z.of_nat (length tipCalls)) ∧
  (0 <= m_callPathPrefixIndex kh < 2 ^ 32 ->
   0 <= m_callPathPrefixIndex kh' < 2 ^ 32) ∧
  (files kh').*1 =
    (files kh).*1 ++
    ((λ k, callPrefixFile (wrap32 (m_callPathPrefixIndex kh + Z.of_nat k)))
       <$> seq 1 (length tipCalls)) ∧
  Forall (λ filename, canOpen filename = true)
    ((λ k, callPrefixFile (wrap32 (m_callPathPrefixIndex kh + Z.of_nat k)))
       <$> seq 1 (length tipCalls)).
Proof.
  induction tipCalls as [|ti rest IH]; intros kh kh' H.
  - injection H as <-. simpl. rewrite Z.add_0_r, app_nil_r.
    split_and!; [done..|constructor].
  - cbn [dumpGroups] in H.
    fold (callPrefixFile (wrap32 (m_callPathPrefixIndex kh + 1))) in H.
    destruct (canOpen (callPrefixFile (wrap32 (m_callPathPrefixIndex kh + 1))))
      eqn:Hopen; [|discriminate H].
    destruct (prefixText accumulated_prefix ti) as [[[]| |] text];
      try discriminate H.
    apply IH in H as (Hi & Ht & Hp & Hr & Hf & Ho).
    cbn [m_callPathIndex m_callTree m_callPathPrefixIndex files] in *.
    change (length (ti :: rest)) with (1 + length rest)%nat.
    rewrite prefix_names_app.
    split_and!; [done..| | | |].
    + rewrite Hp, wrap32_add_l. f_equal. lia.
    + intros _. apply Hr, wrap32_range.
    + rewrite Hf, fmap_app, <- app_assoc. done.
    + apply Forall_app. split; [|done]. by repeat constructor.
Qed.

Lemma dumpCallPrefixesSExpr_Returned n : ∀ accumulated_prefix kh kh',
  dumpCallPrefixesSExpr sameInvocation canOpen n accumulated_prefix kh
    = (Returned tt, kh') ->
  m_callPathIndex kh' = m_callPathIndex kh ∧
  m_callTree kh' = m_callTree kh ∧
  wrap32 (m_callPathPrefixIndex kh')
    = wrap32 (m_callPathPrefixIndex kh
              + Z.of_nat (groupsIn sameInvocation n)) ∧
  (0 <= m_callPathPrefixIndex kh < 2 ^ 32 ->
   0 <= m_callPathPrefixIndex kh' < 2 ^ 32) ∧
  (files kh').*1 =
    (files kh).*1 ++
    ((λ k, callPrefixFile (wrap32 (m_callPathPrefixIndex kh + Z.of_nat k)))
       <$> seq 1 (groupsIn sameInvocation n)) ∧
  Forall (λ filename, canOpen filename = true)
    ((λ k, callPrefixFile (wrap32 (m_callPathPrefixIndex kh + Z.of_nat k)))
       <$> seq 1 (groupsIn sameInvocation n)).
Proof.
  induction n as [tp ch IH] using CallTree_nested_ind.
  intros accumulated_prefix kh kh' H.
  cbn [dumpCallPrefixesSExpr groupsIn] in *.
  destruct (dumpGroups canOpen accumulated_prefix
              (groupChildren sameInvocation (Node tp ch)) kh)
    as [[[]| |] kh1] eqn:Hg; try discriminate H.
  apply dumpGroups_Returned in Hg as (Hi1 & Ht1 & Hp1 & Hr1 & Hf1 & Ho1).
  set (a := length (groupChildren sameInvocation (Node tp ch))) in *.
  clearbody a. revert kh1 a Hi1 Ht1 Hp1 Hr1 Hf1 Ho1 H.
  induction IH as [|c ch Hc _ IHch]; intros kh1 a Hi1 Ht1 Hp1 Hr1 Hf1 Ho1 H.
  - injection H as <-. simpl. rewrite Nat.add_0_r. done.
  - destruct (dumpCallPrefixesSExpr sameInvocation canOpen c
                (accumulated_prefix ++ [call (tip c)]) kh1)
      as [[[]| |] kh2] eqn:Hc2; try discriminate H.
    apply Hc in Hc2 as (Hi2 & Ht2 & Hp2 & Hr2 & Hf2 & Ho2).
    specialize (IHch kh2 (a + groupsIn sameInvocation c)%nat).
    cbn [map]. change (list_sum (?x :: ?l)) with (x + list_sum l)%nat.
    rewrite Nat.add_assoc.
    assert ((λ k, callPrefixFile
                    (wrap32 (m_callPathPrefixIndex kh1 + Z.of_nat k)))
              <$> seq 1 (groupsIn sameInvocation c)
            = (λ k, callPrefixFile
                      (wrap32 (wrap32 (m_callPathPrefixIndex kh + Z.of_nat a)
                               + Z.of_nat k)))
                <$> seq 1 (groupsIn sameInvocation c)) as Hnames.
    { apply list_fmap_ext. intros i k _. simpl.
      rewrite <- Hp1, !wrap32_add_l. done. }
    apply IHch; [congruence..| | | | |exact H].
    + rewrite Hp2, <- wrap32_add_l, Hp1, wrap32_add_l. f_equal. lia.
    + intros Hr. by apply Hr2, Hr1.
    + rewrite Hf2, Hf1, <- app_assoc. f_equal.
      rewrite prefix_names_app. f_equal. exact Hnames.
    + rewrite prefix_names_app. apply Forall_app. split; [done|].
      by rewrite <- Hnames.
Qed.

Lemma length_groups_le (groups : list (list TipPtr)) :
  Forall (groupOk sameInvocation) groups ->
  (length groups <= length (concat groups))%nat.
Proof.
  induction 1 as [|g groups [Hne _] _ IH]; simpl; [done|].
  rewrite length_app. destruct g; [done|]. simpl. lia.
Qed.

Lemma length_groupChildren n :
  (length (groupChildren sameInvocation n) <= length (children n))%nat.
Proof.
  destruct (CallTreeProps.groupChildren_invariant sameInvocation n)
    as (Hok & _ & Hperm).
  etransitivity; [by apply length_groups_le|].
  rewrite Hperm. unfold tipPtrs. by rewrite length_imap.
Qed.

Lemma groupsIn_le_size n : (groupsIn sameInvocation n <= size n)%nat.
Proof.
  induction n as [tp ch IH] using CallTree_nested_ind.
  cbn [groupsIn size].
  pose proof (length_groupChildren (Node tp ch)) as Hl. simpl in Hl.
  assert (length ch + list_sum (map (groupsIn sameInvocation) ch)
          <= list_sum (map (λ c, S (size c)) ch))%nat; [|lia].
  clear Hl. induction IH as [|c ch Hc _ IHch]; simpl; [done|]. lia.
Qed.

End Prefixes.

Lemma prefix_names_wrap i j n :
  wrap32 i = wrap32 j ->
  (λ k, callPrefixFile (wrap32 (i + Z.of_nat k))) <$> seq 1 n
  = (λ k, callPrefixFile (wrap32 (j + Z.of_nat k))) <$> seq 1 n.
Proof.
  intros E. apply list_fmap_ext. intros _ k _. simpl.
  by rewrite <- (wrap32_add_l i), E, wrap32_add_l.
Qed.

Lemma path_names_cons idx n :
  0 <= idx < 2 ^ 32 ->
  (λ k, callPathFile (wrap32 (idx + Z.of_nat k))) <$> seq 0 (S n)
  = callPathFile idx ::
    ((λ k, callPathFile (wrap32 (wrap32 (idx + 1) + Z.of_nat k)))
       <$> seq 0 n).
Proof.
  intros Hidx. cbn [seq fmap list_fmap]. rewrite Z.add_0_r.
  rewrite (wrap32_small idx) by done. f_equal.
  rewrite <- fmap_S_seq, <- list_fmap_compose.
  apply list_fmap_ext. intros _ k _. simpl.
  rewrite wrap32_add_l. do 2 f_equal. lia.
Qed.

Section Returns.
Variable eq : CallInfo.t -> CallInfo.t -> bool.
Variable sameInvocation : CallInfo.t -> CallInfo.t -> bool.
Variable DumpCallTracePrefixes DumpCallTraces : bool.
Variable canOpen : string -> bool.

Lemma callPathText_Returned state :
  Forall (λ c, complete c = true) (callPath state) ->
  Forall (λ e, present e = true) (constraints state) ->
  (callPathText state).1 = Returned tt.
Proof.
  intros Hc He. unfold callPathText. status.
  rewrite forEachWhile_Returned.
  2:{ eapply Forall_impl; [exact Hc|]. intros c. apply dumpCallInfo_complete. }
  status. apply forEach_Returned.
  eapply Forall_impl; [exact He|]. intros [e|]; [done|done].
Qed.

Lemma processCallPaths_returns states : ∀ kh,
  0 <= m_callPathIndex kh < 2 ^ 32 ->
  Forall (λ state, Forall (λ c, complete c = true) (callPath state) ∧
                   Forall (λ e, present e = true) (constraints state))
         states ->
  (DumpCallTraces = true ->
   Forall (λ filename, canOpen filename = true)
     ((λ k, callPathFile (wrap32 (m_callPathIndex kh + Z.of_nat k)))
        <$> seq 0 (length states))) ->
  ∃ kh', processCallPaths eq DumpCallTracePrefixes DumpCallTraces canOpen
           states kh = (Returned tt, kh').
Proof.
  induction states as [|state states IH]; intros kh Hidx Hs Hopen;
    [by eexists|].
  apply Forall_cons in Hs as [[Hc He] Hs].
  cbn [processCallPaths]. unfold processCallPath.
  destruct DumpCallTraces eqn:Htraces; cbn [negb].
  - specialize (Hopen eq_refl). cbn [length] in Hopen.
    rewrite path_names_cons in Hopen by done.
    apply Forall_cons in Hopen as [Hopen1 Hopen].
    unfold callPathFile in Hopen1. rewrite Hopen1.
    pose proof (callPathText_Returned state Hc He) as Ht.
    destruct (callPathText state) as [st text]. simpl in Ht. subst st.
    apply IH; [apply wrap32_range|done|]. intros _. exact Hopen.
  - apply IH; [done|done|]. intros [=].
Qed.

Lemma prefixText_Returned accumulated_prefix (ti : list TipPtr) :
  Forall (λ c, complete c = true) accumulated_prefix ->
  Forall (λ chi : TipPtr, complete (call chi.2) = true) ti ->
  (prefixText accumulated_prefix ti).1 = Returned tt.
Proof.
  intros Hp Ht. unfold prefixText. status.
  rewrite forEach_Returned.
  2:{ eapply Forall_impl; [exact Hp|]. intros c Hc. status.
      by rewrite dumpCallInfoSExpr_complete. }
  status. rewrite forEach_Returned; [done|].
  eapply Forall_impl; [exact Ht|]. intros c Hc. status.
  by rewrite dumpCallInfoSExpr_complete.
Qed.

Lemma dumpGroups_returns accumulated_prefix tipCalls : ∀ kh,
  Forall (λ c, complete c = true) accumulated_prefix ->
  Forall (Forall (λ chi : TipPtr, complete (call chi.2) = true)) tipCalls ->
  Forall (λ filename, canOpen filename = true)
    ((λ k, callPrefixFile (wrap32 (m_callPathPrefixIndex kh + Z.of_nat k)))
       <$> seq 1 (length tipCalls)) ->
  ∃ kh', dumpGroups canOpen accumulated_prefix tipCalls kh
         = (Returned tt, kh').
Proof.
  induction tipCalls as [|ti rest IH]; intros kh Hp Ht Hopen; [by eexists|].
  apply Forall_cons in Ht as [Hti Ht]. cbn [dumpGroups].
  change (length (ti :: rest)) with (1 + length rest)%nat in Hopen.
  rewrite prefix_names_app in Hopen.
  apply Forall_app in Hopen as [Hopen1 Hopen].
  apply Forall_cons in Hopen1 as [Hopen1 _].
  unfold callPrefixFile in Hopen1. change (Z.of_nat 1) with 1 in Hopen1.
  rewrite Hopen1.
  pose proof (prefixText_Returned _ _ Hp Hti) as Hx.
  destruct (prefixText accumulated_prefix ti) as [st text]. simpl in Hx.
  subst st. by apply IH.
Qed.

Lemma groups_complete n :
  Forall (λ c, complete (call (tip c)) = true) (children n) ->
  Forall (Forall (λ chi : TipPtr, complete (call chi.2) = true))
         (groupChildren sameInvocation n).
Proof.
  intros Hc.
  destruct (CallTreeProps.groupChildren_invariant sameInvocation n)
    as (_ & _ & Hperm).
  apply Forall_forall. intros g Hg. apply Forall_forall. intros chi Hchi.
  assert (chi ∈ tipPtrs n) as Hin.
  { rewrite <- Hperm. apply list_elem_of_In, in_concat.
    exists g. split; by apply list_elem_of_In. }
  unfold tipPtrs in Hin. apply elem_of_lookup_imap in Hin as (i & c & -> & Hi).
  rewrite Forall_forall in Hc. apply Hc. by eapply list_elem_of_lookup_2.
Qed.

Lemma dumpCallPrefixesSExpr_returns n : ∀ accumulated_prefix kh,
  Forall (λ c, complete c = true) accumulated_prefix ->
  Forall (λ c, complete c = true) (callsBelow n) ->
  Forall (λ filename, canOpen filename = true)
    ((λ k, callPrefixFile (wrap32 (m_callPathPrefixIndex kh + Z.of_nat k)))
       <$> seq 1 (groupsIn sameInvocation n)) ->
  ∃ kh', dumpCallPrefixesSExpr sameInvocation canOpen n accumulated_prefix kh
         = (Returned tt, kh').
Proof.
  induction n as [tp ch IH] using CallTree_nested_ind.
  intros accumulated_prefix kh Hp Hn Hopen.
  cbn [dumpCallPrefixesSExpr groupsIn] in *.
  assert (Forall (λ c, complete (call (tip c)) = true) ch ∧
          Forall (λ c, Forall (λ c, complete c = true) (callsBelow c)) ch)
    as [Htips Hbelow].
  { cbn [callsBelow] in Hn. clear IH Hopen.
    induction ch as [|c ch IHch]; [done|].
    simpl in Hn. apply Forall_cons in Hn as [Hc Hn].
    apply Forall_app in Hn as [Hcb Hn].
    destruct (IHch Hn). split; by constructor. }
  rewrite prefix_names_app in Hopen.
  apply Forall_app in Hopen as [Hopen1 Hopen].
  destruct (dumpGroups_returns accumulated_prefix
              (groupChildren sameInvocation (Node tp ch)) kh Hp
              (groups_complete (Node tp ch) Htips) Hopen1) as [kh1 Hg].
  rewrite Hg.
  apply (dumpGroups_Returned canOpen) in Hg as (_ & _ & Hp1 & _).
  rewrite <- (prefix_names_wrap (m_callPathPrefixIndex kh1)) in Hopen
    by (rewrite Hp1; unfold wrap32; by rewrite Zmod_mod).
  clear Hn Hopen1 Hp1. revert kh1 Hopen.
  induction IH as [|c ch Hc _ IHch]; intros kh1 Hopen; [by eexists|].
  apply Forall_cons in Htips as [Htc Htips].
  apply Forall_cons in Hbelow as [Hbc Hbelow].
  cbn [map] in Hopen.
  change (list_sum (?x :: ?l)) with (x + list_sum l)%nat in Hopen.
  rewrite prefix_names_app in Hopen.
  apply Forall_app in Hopen as [Hopen1 Hopen].
  destruct (Hc (accumulated_prefix ++ [call (tip c)]) kh1) as [kh2 Hc2];
    [apply Forall_app; split; [done|by constructor]|done|done|].
  rewrite Hc2.
  apply (dumpCallPrefixesSExpr_Returned sameInvocation canOpen) in Hc2
    as (_ & _ & Hp2 & _).
  apply IHch; [done|done|].
  rewrite (prefix_names_wrap (m_callPathPrefixIndex kh2)
             (wrap32 (m_callPathPrefixIndex kh1
                      + Z.of_nat (groupsIn sameInvocation c)))); [done|].
  rewrite Hp2. unfold wrap32. by rewrite Zmod_mod.
Qed.
End Returns.

Section Numbering.
Variable eq : CallInfo.t -> CallInfo.t -> bool.
Variable sameInvocation : CallInfo.t -> CallInfo.t -> bool.
Variable DumpCallTracePrefixes DumpCallTraces : bool.
Variable canOpen : string -> bool.

(** X18.  The call-path files of a run.  With [-dump-call-traces] the
    [k]-th state that terminates goes to the call-path file numbered
    [m_callPathIndex + k], the counter ends [n] higher, modulo 2^32, and
    the names of the files are pairwise different; without it no file is
    written and the counter stays.  With [-dump-call-trace-prefixes] the
    paths enter the call tree in that order, each under the number of its
    file, or all under the one number the counter holds when no files are
    written.  The prefix counter is not touched.  On states whose calls
    are complete and whose constraints are there, the run returns exactly
    when every one of its files can be opened: [processCallPath] writes
    through the null pointer that [openOutputFile] returns for a file that
    cannot. *)
Theorem processCallPaths_numbers_files states kh :
  0 <= m_callPathIndex kh < 2 ^ 32 ->
  (∀ kh',
     processCallPaths eq DumpCallTracePrefixes DumpCallTraces canOpen states kh
       = (Returned tt, kh') ->
     m_callPathPrefixIndex kh' = m_callPathPrefixIndex kh ∧
     m_callTree kh' =
       (if DumpCallTracePrefixes
        then addCallPaths eq
               (imap (λ k state,
                        (callPath state,
                         if DumpCallTraces
                         then wrap32 (m_callPathIndex kh + Z.of_nat k)
                         else m_callPathIndex kh)) states)
               (m_callTree kh)
        else m_callTree kh) ∧
     (if DumpCallTraces then
        m_callPathIndex kh'
          = wrap32 (m_callPathIndex kh + Z.of_nat (length states)) ∧
        (files kh').*1 =
          (files kh).*1 ++
          ((λ k, callPathFile (wrap32 (m_callPathIndex kh + Z.of_nat k)))
             <$> seq 0 (length states))
      else
        m_callPathIndex kh' = m_callPathIndex kh ∧ files kh' = files kh)) ∧
  (Z.of_nat (length states) <= 2 ^ 32 ->
   NoDup ((λ k, callPathFile (wrap32 (m_callPathIndex kh + Z.of_nat k)))
            <$> seq 0 (length states))) ∧
  (Forall (λ state, Forall (λ c, complete c = true) (callPath state) ∧
                    Forall (λ e, present e = true) (constraints state))
          states ->
   (∃ kh', processCallPaths eq DumpCallTracePrefixes DumpCallTraces canOpen
             states kh = (Returned tt, kh')) <->
   (DumpCallTraces = true ->
    Forall (λ filename, canOpen filename = true)
      ((λ k, callPathFile (wrap32 (m_callPathIndex kh + Z.of_nat k)))
         <$> seq 0 (length states)))).
Proof.
  intros Hidx. split_and!.
  - intros kh' H.
    apply processCallPaths_Returned in H as (Hp & Ht & H); [|done].
    split_and!; [done..|]. destruct DumpCallTraces; [|done].
    destruct H as (? & ? & _). done.
  - apply callPathFiles_NoDup.
  - intros Hs. split.
    + intros [kh' H] Htraces.
      apply processCallPaths_Returned in H as (_ & _ & H); [|done].
      rewrite Htraces in H. by destruct H as (_ & _ & Ho).
    + by apply processCallPaths_returns.
Qed.

(** X19.  The prefix files of a call tree.  When the walk over the tree
    returns, it has written one file for every group of children at every
    node, the root included: the files are numbered on from
    [m_callPathPrefixIndex], the counter ends that many higher, modulo
    2^32, the earlier files, the call-path counter and the tree are as
    they were, and there are no more files than nodes below the root.  On
    a tree of complete calls the walk returns exactly when every one of
    these files can be opened: it writes through the null pointer that
    [openNextCallPathPrefixFile] returns for a file that cannot. *)
Theorem dumpCallPrefixesSExpr_numbers_files n accumulated_prefix kh :
  0 <= m_callPathPrefixIndex kh < 2 ^ 32 ->
  (∀ kh',
     dumpCallPrefixesSExpr sameInvocation canOpen n accumulated_prefix kh
       = (Returned tt, kh') ->
     (files kh').*1 =
       (files kh).*1 ++
       ((λ k, callPrefixFile (wrap32 (m_callPathPrefixIndex kh + Z.of_nat k)))
          <$> seq 1 (groupsIn sameInvocation n)) ∧
     m_callPathPrefixIndex kh'
       = wrap32 (m_callPathPrefixIndex kh
                 + Z.of_nat (groupsIn sameInvocation n)) ∧
     m_callPathIndex kh' = m_callPathIndex kh ∧
     m_callTree kh' = m_callTree kh) ∧
  (groupsIn sameInvocation n <= size n)%nat ∧
  (Forall (λ c, complete c = true) accumulated_prefix ->
   Forall (λ c, complete c = true) (callsBelow n) ->
   (∃ kh', dumpCallPrefixesSExpr sameInvocation canOpen n accumulated_prefix kh
           = (Returned tt, kh')) <->
   Forall (λ filename, canOpen filename = true)
     ((λ k, callPrefixFile (wrap32 (m_callPathPrefixIndex kh + Z.of_nat k)))
        <$> seq 1 (groupsIn sameInvocation n))).
Proof.
  intros Hr. split_and!.
  - intros kh' H.
    apply dumpCallPrefixesSExpr_Returned in H
      as (Hi & Ht & Hp & Hr' & Hf & _).
    split_and!; [done| |done..].
    rewrite <- Hp. symmetry. by apply wrap32_small, Hr'.
  - apply groupsIn_le_size.
  - intros Hp Hn. split.
    + intros [kh' H].
      by apply dumpCallPrefixesSExpr_Returned in H as (_ & _ & _ & _ & _ & Ho).
    + by apply dumpCallPrefixesSExpr_returns.
Qed.
End Numbering.

Lemma processCallPaths_numbers_files_witness :
  let states := [mkState [okCall; sendCall] [Some "(Eq 0 x)"%string];
                 mkState [okCall] []] in
  let kh := KleeHandler.mk 3 0 empty [] in
  let canOpen := λ filename, negb (String.eqb filename "call-path000005.txt") in
  (∀ kh',
     processCallPaths sameCallee true true canOpen states kh
       = (Returned tt, kh') ->
     m_callPathPrefixIndex kh' = m_callPathPrefixIndex kh ∧
     m_callTree kh' =
       addCallPaths sameCallee
         (imap (λ k state,
                  (callPath state, wrap32 (m_callPathIndex kh + Z.of_nat k)))
               states)
         (m_callTree kh) ∧
     m_callPathIndex kh'
       = wrap32 (m_callPathIndex kh + Z.of_nat (length states)) ∧
     (files kh').*1 =
       (files kh).*1 ++
       ((λ k, callPathFile (wrap32 (m_callPathIndex kh + Z.of_nat k)))
          <$> seq 0 (length states))) ∧
  (Z.of_nat (length states) <= 2 ^ 32 ->
   NoDup ((λ k, callPathFile (wrap32 (m_callPathIndex kh + Z.of_nat k)))
            <$> seq 0 (length states))) ∧
  (Forall (λ state, Forall (λ c, complete c = true) (callPath state) ∧
                    Forall (λ e, present e = true) (constraints state))
          states ->
   (∃ kh', processCallPaths sameCallee true true canOpen states kh
           = (Returned tt, kh')) <->
   (true = true ->
    Forall (λ filename, canOpen filename = true)
      ((λ k, callPathFile (wrap32 (m_callPathIndex kh + Z.of_nat k)))
         <$> seq 0 (length states)))).
Proof.
  intros states kh canOpen.
  apply (processCallPaths_numbers_files sameCallee true true canOpen states kh).
  simpl. lia.
Defined.

Lemma dumpCallPrefixesSExpr_numbers_files_witness :
  let n := addCallPaths sameCallee
             [([okCall; sendCall], 3); ([okCall; lostCall], 4)] empty in
  let kh := KleeHandler.mk 5 0 n [] in
  let canOpen := λ filename, negb (String.eqb filename "call-prefix000003.txt") in
  (∀ kh',
     dumpCallPrefixesSExpr sameFunction canOpen n [] kh = (Returned tt, kh') ->
     (files kh').*1 =
       (files kh).*1 ++
       ((λ k, callPrefixFile (wrap32 (m_callPathPrefixIndex kh + Z.of_nat k)))
          <$> seq 1 (groupsIn sameFunction n)) ∧
     m_callPathPrefixIndex kh'
       = wrap32 (m_callPathPrefixIndex kh
                 + Z.of_nat (groupsIn sameFunction n)) ∧
     m_callPathIndex kh' = m_callPathIndex kh ∧
     m_callTree kh' = m_callTree kh) ∧
  (groupsIn sameFunction n <= size n)%nat ∧
  (Forall (λ c, complete c = true) [] ->
   Forall (λ c, complete c = true) (callsBelow n) ->
   (∃ kh', dumpCallPrefixesSExpr sameFunction canOpen n [] kh
           = (Returned tt, kh')) <->
   Forall (λ filename, canOpen filename = true)
     ((λ k, callPrefixFile (wrap32 (m_callPathPrefixIndex kh + Z.of_nat k)))
        <$> seq 1 (groupsIn sameFunction n))).
Proof.
  intros n kh canOpen.
  apply (dumpCallPrefixesSExpr_numbers_files sameFunction canOpen n [] kh).
  simpl. lia.
Defined.

(** Two paths through [start], one to each of two [send] calls at
    different lines: a tree of three nodes, two groups, two prefix files;
    and two call-path files for the two states.  Where the second file of
    either kind cannot be opened, the run ends at it with the first file
    written and the counter one further. *)
Example call_path_files :
  let n := addCallPaths sameCallee
             [([okCall; sendCall], 3); ([okCall; lostCall], 4)] empty in
  size n = 3%nat ∧ groupsIn sameFunction n = 2%nat ∧
  ((λ r : Status unit * KleeHandler.t,
      (r.1, (files r.2).*1, m_callPathPrefixIndex r.2))
     (dumpCallPathPrefixes sameFunction (λ _, true) (KleeHandler.mk 5 0 n [])))
  = (Returned tt,
     ["call-prefix000001.txt"; "call-prefix000002.txt"]%string, 2) ∧
  ((λ r : Status unit * KleeHandler.t,
      (r.1, (files r.2).*1, m_callPathIndex r.2))
     (processCallPaths sameCallee false true (λ _, true)
        [mkState [okCall; sendCall] []; mkState [okCall; lostCall] []]
        (KleeHandler.mk 3 0 empty [])))
  = (Returned tt, ["call-path000003.txt"; "call-path000004.txt"]%string, 5) ∧
  ((λ r : Status unit * KleeHandler.t,
      (r.1, (files r.2).*1, m_callPathPrefixIndex r.2))
     (dumpCallPathPrefixes sameFunction
        (λ filename, negb (String.eqb filename "call-prefix000002.txt"))
        (KleeHandler.mk 5 0 n [])))
  = (NullDereference, ["call-prefix000001.txt"]%string, 2) ∧
  ((λ r : Status unit * KleeHandler.t,
      (r.1, (files r.2).*1, m_callPathIndex r.2))
     (processCallPaths sameCallee false true
        (λ filename, negb (String.eqb filename "call-path000004.txt"))
        [mkState [okCall; sendCall] []; mkState [okCall; lostCall] []]
        (KleeHandler.mk 3 0 empty [])))
  = (NullDereference, ["call-path000003.txt"]%string, 5).
Proof. split_and!; vm_compute; reflexivity. Qed.

End CallPathFilesProps.

(** ** The driver's helpers *)

Module DriverProps.
Import Driver KleeHandlerProps.

Lemma list_ascii_of_string_length s : length (list_ascii_of_string s) = String.length s.
Proof. induction s as [|c s IH]; simpl; [done|]. by rewrite IH. Qed.

Lemma list_ascii_of_string_lookup s : ∀ n, String.get n s = list_ascii_of_string s !! n.
Proof.
  induction s as [|c s IH]; intros [|n]; simpl; done.
Qed.

Lemma list_ascii_of_string_substring s : ∀ n m,
  list_ascii_of_string (String.substring n m s) = take m (drop n (list_ascii_of_string s)).
Proof.
  induction s as [|c s IH]; intros [|n] [|m]; simpl; try done;
    try (f_equal; apply (IH 0%nat)); try apply IH.
Qed.

Lemma list_ascii_of_string_append a b : list_ascii_of_string (a +:+ b) = list_ascii_of_string a ++ list_ascii_of_string b.
Proof.
  induction a as [|c a IH]; [done|].
  change (c :: list_ascii_of_string (a +:+ b) = c :: list_ascii_of_string a ++ list_ascii_of_string b). by rewrite IH.
Qed.

Lemma list_ascii_of_string_inj a b : list_ascii_of_string a = list_ascii_of_string b -> a = b.
Proof.
  intros E. rewrite <- (string_of_list_ascii_of_string a),
    <- (string_of_list_ascii_of_string b). by rewrite E.
Qed.

Lemma allSpace_list_ascii_of_string s : allSpace s = forallb isspace (list_ascii_of_string s).
Proof. induction s as [|c s IH]; simpl; [done|]. by rewrite IH. Qed.

Lemma spaceInFront_list_ascii_of_string s :
  spaceInFront s = match list_ascii_of_string s !! 0%nat with
                   | Some c => isspace c
                   | None => false
                   end.
Proof. by destruct s. Qed.

Lemma spaceAtEnd_list_ascii_of_string s :
  spaceAtEnd s = match last (list_ascii_of_string s) with
                 | Some c => isspace c
                 | None => false
                 end.
Proof.
  induction s as [|c s IH]; [done|].
  destruct s as [|c' s]; [done|].
  change (spaceAtEnd (String c (String c' s))) with (spaceAtEnd (String c' s)).
  rewrite IH. done.
Qed.

Lemma charAt_lookup s i c :
  0 <= i -> list_ascii_of_string s !! Z.to_nat i = Some c -> charAt s i = c.
Proof. intros Hi H. unfold charAt. by rewrite list_ascii_of_string_lookup, H. Qed.

Lemma wrap32_small_nat n : Z.of_nat n < 2 ^ 32 -> wrap32 (Z.of_nat n) = Z.of_nat n.
Proof. intros H. unfold wrap32. apply Z.mod_small. lia. Qed.

Section Strip.
Variable s : string.
Hypothesis Hlen : Z.of_nat (String.length s) < 2 ^ 32.

Lemma skipLead_spec n : ∀ lead,
  0 <= lead <= (Z.of_nat (String.length s)) -> (Z.to_nat ((Z.of_nat (String.length s)) - lead) <= n)%nat ->
  Forall (λ c, isspace c = true) (take (Z.to_nat lead) (list_ascii_of_string s)) ->
  let r := skipLead n s (Z.of_nat (String.length s)) lead in
  lead <= r <= (Z.of_nat (String.length s)) ∧
  Forall (λ c, isspace c = true) (take (Z.to_nat r) (list_ascii_of_string s)) ∧
  (r < (Z.of_nat (String.length s)) -> isspace (charAt s r) = false).
Proof.
  induction n as [|n IH]; intros lead Hl Hn Hsp; simpl.
  - split_and!; [lia..|done|lia].
  - destruct (Z.ltb_spec lead (Z.of_nat (String.length s))) as [Hlt|Hge]; simpl.
    + destruct (isspace (charAt s lead)) eqn:Hc.
      * assert (wrap32 (lead + 1) = lead + 1) as ->
          by (unfold wrap32; apply Z.mod_small; lia).
        destruct (IH (lead + 1)) as (H1 & H2 & H3); [lia|lia| |].
        { replace (Z.to_nat (lead + 1)) with (S (Z.to_nat lead)) by lia.
          destruct (lookup_lt_is_Some_2 (list_ascii_of_string s) (Z.to_nat lead)) as [c Hlc].
          { rewrite list_ascii_of_string_length. lia. }
          rewrite (take_S_r _ _ c) by done.
          apply Forall_app. split; [done|].
          constructor; [|done].
          pose proof (charAt_lookup s lead c ltac:(lia) Hlc) as <-. exact Hc. }
        split_and!; [lia|lia|done|done].
      * split_and!; [lia|lia|done|done].
    + split_and!; [lia|lia|done|lia].
Qed.

Lemma skipTrail_spec lead n : ∀ trail,
  0 <= lead <= trail -> trail <= (Z.of_nat (String.length s)) ->
  (Z.to_nat (trail - lead) <= n)%nat ->
  Forall (λ c, isspace c = true) (drop (Z.to_nat trail) (list_ascii_of_string s)) ->
  let r := skipTrail n s lead trail in
  lead <= r <= trail ∧
  Forall (λ c, isspace c = true) (drop (Z.to_nat r) (list_ascii_of_string s)) ∧
  (lead < r -> isspace (charAt s (r - 1)) = false).
Proof.
  induction n as [|n IH]; intros trail Hl Ht Hn Hsp; simpl.
  - split_and!; [lia..|done|lia].
  - destruct (Z.ltb_spec lead trail) as [Hlt|Hge]; simpl.
    + destruct (isspace (charAt s (trail - 1))) eqn:Hc.
      * assert (wrap32 (trail - 1) = trail - 1) as ->
          by (unfold wrap32; apply Z.mod_small; lia).
        destruct (IH (trail - 1)) as (H1 & H2 & H3); [lia|lia|lia| |].
        { destruct (lookup_lt_is_Some_2 (list_ascii_of_string s) (Z.to_nat (trail - 1))) as [c Hlc].
          { rewrite list_ascii_of_string_length. lia. }
          rewrite (drop_S _ c) by done.
          replace (S (Z.to_nat (trail - 1))) with (Z.to_nat trail) by lia.
          constructor; [|done].
          pose proof (charAt_lookup s (trail - 1) c ltac:(lia) Hlc) as <-.
          exact Hc. }
        split_and!; [lia|lia|done|done].
      * split_and!; [lia|lia|done|done].
    + split_and!; [lia|lia|done|lia].
Qed.
End Strip.

Lemma Forall_forallb {A} (f : A -> bool) l :
  Forall (λ c, f c = true) l -> forallb f l = true.
Proof. induction 1 as [|x l Hx _ IH]; simpl; [done|]. by rewrite Hx, IH. Qed.

Lemma strip_shape (s : string) :
  Z.of_nat (String.length s) < 2 ^ 32 ->
  ∃ lead trail,
    s = lead +:+ strip s +:+ trail ∧
    allSpace lead = true ∧ allSpace trail = true ∧
    spaceInFront (strip s) = false ∧ spaceAtEnd (strip s) = false.
Proof.
  intros Hlen. unfold strip.
  rewrite (wrap32_small_nat (String.length s)) by lia.
  rewrite Nat2Z.id.
  destruct (skipLead_spec s Hlen (String.length s) 0) as (HL1 & HL2 & HL3);
    [lia|lia|by rewrite take_0|].
  set (L := skipLead (String.length s) s (Z.of_nat (String.length s)) 0) in *.
  destruct (skipTrail_spec s Hlen L (String.length s)
              (Z.of_nat (String.length s))) as (HT1 & HT2 & HT3);
    [lia|lia|lia| |].
  { rewrite Nat2Z.id, drop_ge; [done|].
    by rewrite list_ascii_of_string_length. }
  set (T := skipTrail (String.length s) s L (Z.of_nat (String.length s))) in *.
  assert (wrap32 (T - L) = T - L) as ->
    by (unfold wrap32; apply Z.mod_small; lia).
  exists (string_of_list_ascii (take (Z.to_nat L) (list_ascii_of_string s))),
    (string_of_list_ascii (drop (Z.to_nat T) (list_ascii_of_string s))).
  split_and!.
  - apply list_ascii_of_string_inj.
    rewrite !list_ascii_of_string_append, list_ascii_of_string_substring,
      !list_ascii_of_string_of_list_ascii.
    rewrite <- (take_drop (Z.to_nat L) (list_ascii_of_string s)) at 1.
    f_equal.
    rewrite <- (take_drop (Z.to_nat (T - L))
                  (drop (Z.to_nat L) (list_ascii_of_string s))) at 1.
    f_equal. rewrite drop_drop. f_equal. lia.
  - rewrite allSpace_list_ascii_of_string, list_ascii_of_string_of_list_ascii.
    by apply Forall_forallb.
  - rewrite allSpace_list_ascii_of_string, list_ascii_of_string_of_list_ascii.
    by apply Forall_forallb.
  - rewrite spaceInFront_list_ascii_of_string,
      list_ascii_of_string_substring.
    destruct (decide (L < T)) as [Hlt|Hge].
    + rewrite lookup_take_lt by lia. rewrite lookup_drop, Nat.add_0_r.
      destruct (list_ascii_of_string s !! Z.to_nat L) as [c|] eqn:Hc; [|done].
      rewrite <- (charAt_lookup s L c) by (done || lia). apply HL3. lia.
    + replace (Z.to_nat (T - L)) with 0%nat by lia. by rewrite take_0.
  - rewrite spaceAtEnd_list_ascii_of_string,
      list_ascii_of_string_substring.
    destruct (decide (L < T)) as [Hlt|Hge].
    + rewrite last_lookup, length_take, length_drop,
        list_ascii_of_string_length.
      replace (pred (Z.to_nat (T - L) `min`
                 (String.length s - Z.to_nat L)))%nat
        with (Z.to_nat (T - L) - 1)%nat by lia.
      rewrite lookup_take_lt by lia. rewrite lookup_drop.
      replace (Z.to_nat L + (Z.to_nat (T - L) - 1))%nat
        with (Z.to_nat (T - 1)) by lia.
      destruct (list_ascii_of_string s !! Z.to_nat (T - 1)) as [c|] eqn:Hc;
        [|done].
      rewrite <- (charAt_lookup s (T - 1) c) by (done || lia). by apply HT3.
    + replace (Z.to_nat (T - L)) with 0%nat by lia. by rewrite take_0.
Qed.

Lemma strip_fixed (s : string) :
  Z.of_nat (String.length s) < 2 ^ 32 ->
  spaceInFront s = false -> spaceAtEnd s = false -> strip s = s.
Proof.
  intros Hlen Hf He. unfold strip.
  rewrite (wrap32_small_nat (String.length s)) by lia.
  rewrite Nat2Z.id.
  destruct (skipLead_spec s Hlen (String.length s) 0) as (HL1 & HL2 & _);
    [lia|lia|by rewrite take_0|].
  set (L := skipLead (String.length s) s (Z.of_nat (String.length s)) 0) in *.
  assert (L = 0) as HL.
  { destruct (decide (L = 0)) as [|Hne]; [done|]. exfalso.
    rewrite spaceInFront_list_ascii_of_string in Hf.
    destruct (lookup_lt_is_Some_2 (list_ascii_of_string s) 0) as [c Hc].
    { rewrite list_ascii_of_string_length. lia. }
    rewrite Hc in Hf. rewrite Forall_forall in HL2.
    rewrite (HL2 c) in Hf; [done|].
    apply (list_elem_of_lookup_2 _ 0). rewrite lookup_take_lt by lia. done. }
  clearbody L. subst L.
  destruct (skipTrail_spec s Hlen 0 (String.length s)
              (Z.of_nat (String.length s))) as (HT1 & HT2 & _);
    [lia|lia|lia| |].
  { rewrite Nat2Z.id, drop_ge; [done|].
    by rewrite list_ascii_of_string_length. }
  set (T := skipTrail (String.length s) s 0 (Z.of_nat (String.length s))) in *.
  assert (T = Z.of_nat (String.length s)) as HT.
  { destruct (decide (T = Z.of_nat (String.length s))) as [|Hne]; [done|].
    exfalso. rewrite spaceAtEnd_list_ascii_of_string in He.
    destruct (last (list_ascii_of_string s)) as [c|] eqn:Hc.
    - rewrite Forall_forall in HT2. rewrite (HT2 c) in He; [done|].
      rewrite last_lookup in Hc.
      apply (list_elem_of_lookup_2 _
               (pred (length (list_ascii_of_string s)) - Z.to_nat T)).
      rewrite lookup_drop, <- Hc. f_equal.
      rewrite list_ascii_of_string_length. lia.
    - apply last_None in Hc. apply (f_equal length) in Hc.
      rewrite list_ascii_of_string_length in Hc. simpl in Hc. lia. }
  clearbody T. subst T.
  rewrite Z.sub_0_r, wrap32_small_nat, Nat2Z.id by lia.
  by apply substring_all.
Qed.

Lemma environItems_filter lines : ∀ items,
  fold_left (λ items line,
               let line := strip line in
               if negb (String.eqb line "") then items ++ [line] else items)
            lines items
  = items ++ List.filter (λ line, negb (String.eqb line "")) (strip <$> lines).
Proof.
  induction lines as [|line lines IH]; intros items; simpl.
  - by rewrite app_nil_r.
  - rewrite IH. destruct (negb (strip line =? "")%string); [|done].
    by rewrite <- app_assoc.
Qed.

Lemma length_strip s :
  Z.of_nat (String.length s) < 2 ^ 32 ->
  (String.length (strip s) <= String.length s)%nat.
Proof.
  intros Hlen. destruct (strip_shape s Hlen) as (a & b & E & _).
  rewrite E at 2. rewrite !length_append. lia.
Qed.

Lemma strip_twice (s : string) :
  Z.of_nat (String.length s) < 2 ^ 32 ->
  strip (strip s) = strip s ∧
  (strip s = s <-> spaceInFront s = false ∧ spaceAtEnd s = false) ∧
  (allSpace s = true -> strip s = ""%string).
Proof.
  intros Hlen.
  destruct (strip_shape s Hlen) as (a & b & E & Ha & Hb & Hf & He).
  pose proof (length_strip s Hlen) as Hl.
  split_and!.
  - apply strip_fixed; [lia|done..].
  - split; [by intros <-|]. intros [? ?]. by apply strip_fixed.
  - intros Hall. destruct (strip s) as [|c r] eqn:Hs; [done|]. exfalso.
    rewrite E in Hall. rewrite !allSpace_list_ascii_of_string in *.
    rewrite !list_ascii_of_string_append, !forallb_app in Hall.
    simpl in Hall, Hf. rewrite Hf in Hall. simpl in Hall.
    by rewrite andb_false_r in Hall.
Qed.

(** X20.  [strip] cuts white space off both ends and nothing else: the
    string is some white space, then the result, then some white space,
    and the result neither begins nor ends with white space.  For strings
    shorter than 2^32 characters, which is what the [unsigned] counters
    hold. *)
Theorem strip_trims (s : string) :
  Z.of_nat (String.length s) < 2 ^ 32 ->
  ∃ lead trail,
    s = lead +:+ strip s +:+ trail ∧
    allSpace lead = true ∧ allSpace trail = true ∧
    spaceInFront (strip s) = false ∧ spaceAtEnd (strip s) = false.
Proof. intros Hlen. destruct (strip_shape s Hlen) as (a & b & H). eauto. Qed.

(** X21.  Stripping twice is stripping once; [strip] returns its argument
    unchanged exactly when that neither begins nor ends with white space;
    and a string of white space only is stripped to the empty string. *)
Theorem strip_idempotent (s : string) :
  Z.of_nat (String.length s) < 2 ^ 32 ->
  strip (strip s) = strip s ∧
  (strip s = s <-> spaceInFront s = false ∧ spaceAtEnd s = false) ∧
  (allSpace s = true -> strip s = ""%string).
Proof. intros Hlen. destruct (strip_twice s Hlen) as (H1 & H2 & H3). eauto. Qed.

(** X22.  The items [main] reads from the [--environ] file are the
    stripped lines that are not empty, in the order of the file; no item
    is empty or has white space at either end. *)
Theorem environItems_trimmed (lines : list string) :
  Forall (λ line, Z.of_nat (String.length line) < 2 ^ 32) lines ->
  environItems lines
    = List.filter (λ line, negb (String.eqb line "")) (strip <$> lines) ∧
  Forall (λ item, item ≠ ""%string ∧ spaceInFront item = false ∧
                  spaceAtEnd item = false ∧ strip item = item)
         (environItems lines).
Proof.
  intros Hlines. unfold environItems. rewrite environItems_filter. simpl.
  split; [done|].
  apply Forall_forall. intros item Hin.
  apply list_elem_of_In, filter_In in Hin as [Hin Hne].
  apply list_elem_of_In, list_elem_of_fmap in Hin as (line & -> & Hline).
  rewrite Forall_forall in Hlines. specialize (Hlines line Hline).
  destruct (strip_shape line Hlines) as (a & b & _ & _ & _ & Hf & He).
  split_and!; [|done|done|exact (proj1 (strip_twice line Hlines))].
  intros E. rewrite E in Hne. done.
Qed.

Lemma pad2_zeros k :
  String.concat "" (replicate (S k) "0"%string)
  = String "0" (String.concat "" (replicate k "0"%string)).
Proof. destruct k; reflexivity. Qed.

Lemma readDecimal_pad2 n : 0 <= n -> KleeHandler.readDecimal (pad2 n) = Some n.
Proof.
  intros Hn. unfold KleeHandler.readDecimal, pad2.
  destruct (uint_of_string_zeros (2 - String.length (decimal n)) _ _
              (uint_of_string_decimal n)) as (d' & Hd' & HN).
  unfold NilZero.uint_of_string.
  destruct (String.concat _ _ +:+ decimal n) eqn:E.
  - exfalso. apply (f_equal String.length) in E.
    rewrite length_append in E. simpl in E.
    pose proof (decimal_nonempty n) as Hne.
    destruct (decimal n); [done|]. simpl in E. lia.
  - rewrite Hd'. simpl. rewrite HN, DecimalN.Unsigned.of_to. f_equal. lia.
Qed.

Lemma length_pad2 n : 0 <= n < 100 -> String.length (pad2 n) = 2%nat.
Proof.
  intros Hn. rewrite <- (Z2Nat.id n) by lia.
  assert (Z.to_nat n < 100)%nat as Hk by lia.
  revert Hk. generalize (Z.to_nat n). clear. intros k Hk.
  do 100 (destruct k as [|k]; [vm_compute; reflexivity|]). lia.
Qed.

(** X23.  [format_tdiff] splits a number of seconds that is not
    negative into days, hours below 24, minutes below 60 and seconds below
    60 that add up to it, writes the days only when there are some, and
    writes hours, minutes and seconds as three fields of exactly two
    digits that read back as these numbers.  On a negative number the
    assertion fails and nothing is written. *)
Theorem format_tdiff_splits seconds :
  if 0 <=? seconds then
    let '(days, hours, minutes, secs) := tdiff seconds in
    seconds = ((days * 24 + hours) * 60 + minutes) * 60 + secs ∧
    0 <= days ∧ 0 <= hours < 24 ∧ 0 <= minutes < 60 ∧ 0 <= secs < 60 ∧
    format_tdiff seconds =
      (Returned tt,
       (if 0 <? days then decimal days +:+ " days, " else "") +:+
       pad2 hours +:+ ":" +:+ pad2 minutes +:+ ":" +:+ pad2 secs) ∧
    KleeHandler.readDecimal <$> [pad2 hours; pad2 minutes; pad2 secs]
      = [Some hours; Some minutes; Some secs] ∧
    String.length <$> [pad2 hours; pad2 minutes; pad2 secs]
      = [2; 2; 2]%nat
  else format_tdiff seconds = (AssertionFailed, ""%string).
Proof.
  destruct (Z.leb_spec 0 seconds) as [Hs|Hs].
  2:{ unfold format_tdiff.
      destruct (Z.leb_spec 0 seconds) as [|_]; [lia|done]. }
  unfold format_tdiff, tdiff.
  destruct (Z.leb_spec 0 seconds) as [_|]; [|lia].
  assert (0 <= seconds / 60) as H3 by (apply Z.div_pos; lia).
  assert (0 <= seconds / 60 / 60) as H6 by (apply Z.div_pos; lia).
  rewrite (Z.quot_div_nonneg seconds 60), (Z.rem_mod_nonneg seconds 60),
    (Z.quot_div_nonneg (seconds / 60) 60),
    (Z.rem_mod_nonneg (seconds / 60) 60),
    (Z.quot_div_nonneg (seconds / 60 / 60) 24),
    (Z.rem_mod_nonneg (seconds / 60 / 60) 24) by lia.
  pose proof (Z.div_mod seconds 60 ltac:(lia)) as H1.
  pose proof (Z.mod_pos_bound seconds 60 ltac:(lia)) as H2.
  pose proof (Z.div_mod (seconds / 60) 60 ltac:(lia)) as H4.
  pose proof (Z.mod_pos_bound (seconds / 60) 60 ltac:(lia)) as H5.
  pose proof (Z.div_mod (seconds / 60 / 60) 24 ltac:(lia)) as H7.
  pose proof (Z.mod_pos_bound (seconds / 60 / 60) 24 ltac:(lia)) as H8.
  assert (0 <= seconds / 60 / 60 / 24) as H9 by (apply Z.div_pos; lia).
  split_and!; try lia.
  - destruct (0 <? seconds / 60 / 60 / 24); unfold mbind, Dump_bind, write,
      assert, when, mret, Dump_ret; simpl;
      rewrite ?CallPathDumpProps.string_app_assoc,
        ?CallPathDumpProps.string_app_nil_r; done.
  - simpl. rewrite !readDecimal_pad2 by lia. done.
  - simpl. rewrite !length_pad2 by lia. done.
Qed.

(** X24.  What repeated ctrl-c does.  The process exits with code 1 at
    the first press when [interrupted] is set or no interpreter exists
    yet, and at the second press otherwise; the interpreter is asked to
    halt once at most, at the first press. *)
Theorem interrupts_halt_once interrupted theInterpreter :
  match interrupts interrupted theInterpreter with
  | [] => theInterpreter = []
  | [Exit code] =>
      code = 1 ∧ (interrupted = true ∨ head theInterpreter = Some false)
  | [HaltRequested] => interrupted = false ∧ theInterpreter = [true]
  | [HaltRequested; Exit code] =>
      code = 1 ∧ interrupted = false ∧ head theInterpreter = Some true
  | _ => False
  end.
Proof.
  destruct theInterpreter as [|there rest]; [done|].
  destruct interrupted, there; simpl; try (split; [done|]; by eauto).
  destruct rest as [|there2 rest]; [done|].
  simpl. done.
Qed.

Lemma watch_escalates MaxTime rounds : ∀ nextStep level,
  0 <= level ->
  (watch MaxTime rounds nextStep level).1
    `prefix_of` drop (Z.to_nat (Z.min level 2)) [SendINT; HaltViaGdb; SendKILL] ∧
  (SendKILL ∈ (watch MaxTime rounds nextStep level).1 ->
   (watch MaxTime rounds nextStep level).2 = Some (KleeHandler.Returns 1)).
Proof.
  induction rounds as [|r rounds IH]; intros nextStep level Hl; simpl.
  { split; [apply prefix_nil|by intros ?%elem_of_nil]. }
  destruct (waited r); simpl;
    try (split; [apply prefix_nil|by intros ?%elem_of_nil]);
    [by apply IH|].
  destruct (Double.ltb nextStep (time r)); [|by apply IH].
  set (next := Double.add (timeAfter r)
                 (Double.max (Double.of_Z 15)
                             (Double.mul MaxTime (Double.tenths 1)))).
  destruct (Z.eqb_spec (level + 1) 1) as [E1|N1].
  { destruct (IH next (level + 1)) as [Hp Hk]; [lia|].
    destruct (watch MaxTime rounds _ (level + 1)) as [acts ending].
    simpl in *. replace level with 0 in * by lia. simpl in *.
    split; [by apply prefix_cons|].
    intros [?|?]%elem_of_cons; [done|by apply Hk]. }
  destruct (Z.eqb_spec (level + 1) 2) as [E2|N2].
  { destruct (IH next (level + 1)) as [Hp Hk]; [lia|].
    destruct (watch MaxTime rounds _ (level + 1)) as [acts ending].
    simpl in *. replace level with 1 in * by lia. simpl in *.
    split; [by apply prefix_cons|].
    intros [?|?]%elem_of_cons; [done|by apply Hk]. }
  simpl. replace (Z.min level 2) with 2 by lia. simpl. done.
Qed.

Lemma watch_waits MaxTime rounds nextStep : ∀ level,
  Forall (λ r, Double.ltb nextStep (time r) = false) rounds ->
  (watch MaxTime rounds nextStep level).1 = [].
Proof.
  induction 1 as [|r rounds Hr _ IH]; simpl; [done|].
  destruct (waited r); simpl; try done. by rewrite Hr.
Qed.

(** X25.  The watchdog escalates in one order: what it does to the
    child is a beginning of SIGINT, halt through gdb, SIGKILL; it returns
    1 right after the SIGKILL; and it does nothing as long as no reading
    of the wall clock is above the first deadline, the [double] that
    [start + MaxTime*1.1] comes to. *)
Theorem watchdog_escalates MaxTime start rounds :
  (watchdog MaxTime start rounds).1
    `prefix_of` [SendINT; HaltViaGdb; SendKILL] ∧
  (SendKILL ∈ (watchdog MaxTime start rounds).1 ->
   (watchdog MaxTime start rounds).2 = Some (KleeHandler.Returns 1)) ∧
  (Forall (λ r, Double.ltb
                  (Double.add start (Double.mul MaxTime (Double.tenths 11)))
                  (time r) = false) rounds ->
   (watchdog MaxTime start rounds).1 = []).
Proof.
  unfold watchdog.
  destruct (watch_escalates MaxTime rounds
              (Double.add start (Double.mul MaxTime (Double.tenths 11))) 0)
    as [Hp Hk]; [done|].
  split_and!; [done|done|apply watch_waits].
Qed.

(** With [MaxTime] 100 and the start at 0 the first deadline is the
    [double] after 110, since [100*1.1] rounds up: a reading of exactly
    that value is not yet above it.  The later deadlines are 15 seconds
    after the reading that follows each step. *)
Example watchdog_three_steps :
  let at_ := λ t : Z,
    mkRound StillRunning (Double.of_Z t) (Double.of_Z (t + 1)) in
  let interrupted := λ t : Z,
    mkRound Interrupted (Double.of_Z t) (Double.of_Z t) in
  let exited := λ (status t : Z),
    mkRound (ChildExited status) (Double.of_Z t) (Double.of_Z t) in
  let deadline := Double.succ (Double.of_Z 110) in
  Double.tenths 11 = S754_finite false 4953959590107546 (-52) ∧
  Double.add Double.zero (Double.mul (Double.of_Z 100) (Double.tenths 11))
    = deadline ∧
  watchdog (Double.of_Z 100) Double.zero
    [at_ 50; mkRound StillRunning deadline deadline] = ([], None) ∧
  watchdog (Double.of_Z 100) Double.zero
    [mkRound StillRunning (Double.succ deadline) (Double.succ deadline)]
    = ([SendINT], None) ∧
  watchdog (Double.of_Z 100) Double.zero
    [at_ 50; interrupted 105; at_ 111; at_ 120;
     at_ 128; at_ 140; at_ 150; at_ 160]
    = ([SendINT; HaltViaGdb; SendKILL], Some (KleeHandler.Returns 1)) ∧
  watchdog (Double.of_Z 100) Double.zero
    [at_ 50; at_ 111; exited 0 112; at_ 300]
    = ([SendINT], Some (KleeHandler.Returns 0)).
Proof. split_and!; vm_compute; reflexivity. Qed.

Lemma strip_trims_witness :
  let s := ("   PATH=/bin  " +:+ nl)%string in
  ∃ lead trail,
    s = lead +:+ strip s +:+ trail ∧
    allSpace lead = true ∧ allSpace trail = true ∧
    spaceInFront (strip s) = false ∧ spaceAtEnd (strip s) = false.
Proof.
  intros s. apply (strip_trims s). vm_compute. reflexivity.
Defined.

Lemma strip_idempotent_witness :
  let s := ("  a b " +:+ nl)%string in
  strip (strip s) = strip s ∧
  (strip s = s <-> spaceInFront s = false ∧ spaceAtEnd s = false) ∧
  (allSpace s = true -> strip s = ""%string).
Proof.
  intros s. apply (strip_idempotent s). vm_compute. reflexivity.
Defined.

Lemma environItems_trimmed_witness :
  let lines := ["A=1 "; ""; "  "; " B=two words"; ""]%string in
  environItems lines
    = List.filter (λ line, negb (String.eqb line "")) (strip <$> lines) ∧
  Forall (λ item, item ≠ ""%string ∧ spaceInFront item = false ∧
                  spaceAtEnd item = false ∧ strip item = item)
         (environItems lines).
Proof.
  intros lines. apply (environItems_trimmed lines).
  repeat (constructor; [vm_compute; reflexivity|]). constructor.
Defined.

Example driver_helpers :
  strip ("  a b " +:+ nl) = "a b"%string ∧
  strip "   " = ""%string ∧
  environItems ["A=1 "; ""; "  "; " B=two words"; ""]%string
    = ["A=1"; "B=two words"]%string ∧
  format_tdiff 93784 = (Returned tt, "1 days, 02:03:04"%string) ∧
  format_tdiff 59 = (Returned tt, "00:00:59"%string) ∧
  interrupts false [true; true; true] = [HaltRequested; Exit 1] ∧
  interrupts false [false; true] = [Exit 1].
Proof. split_and!; vm_compute; reflexivity. Qed.

End DriverProps.

(** ** Test cases and the output directory *)

Module TestCasesProps.
Import TestCases.

Lemma chooseFrom_least mkdir rounds : ∀ i k,
  (Z.to_nat k < rounds)%nat -> 0 <= k ->
  (∀ j, i <= j < i + k -> mkdir j = EEXIST) ->
  mkdir (i + k) ≠ EEXIST ->
  chooseFrom mkdir rounds i
  = Some (match mkdir (i + k) with
          | Made => Directory (i + k)
          | _ => CannotCreate
          end).
Proof.
  induction rounds as [|rounds IH]; intros i k Hr Hk Hbelow Hfree; [lia|].
  simpl. destruct (decide (k = 0)) as [->|Hne].
  - rewrite Z.add_0_r in *. by destruct (mkdir i).
  - rewrite (Hbelow i) by lia.
    replace (i + k) with (i + 1 + (k - 1)) in * by lia.
    apply IH; [lia|lia| |done].
    intros j Hj. apply Hbelow. lia.
Qed.

Lemma chooseFrom_all_exist mkdir rounds : ∀ i,
  (∀ j, i <= j < i + Z.of_nat rounds -> mkdir j = EEXIST) ->
  chooseFrom mkdir rounds i = None.
Proof.
  induction rounds as [|rounds IH]; intros i Hall; [done|].
  simpl. rewrite (Hall i) by lia. apply IH. intros j Hj. apply Hall. lia.
Qed.

(** X27.  The constructor's loop makes [klee-out-<k>] for the least [k]
    that does not exist yet: when [mkdir] answers EEXIST for every index
    below [k] and something else for [k], with [k] no more than INT_MAX,
    the loop ends in round [k], with the directory of index [k] when
    [mkdir] made it and with a [klee_error] otherwise. *)
Theorem chooseOutputDirectory_least_free mkdir k :
  0 <= k < 2 ^ 31 ->
  (∀ j, 0 <= j < k -> mkdir j = EEXIST) ->
  mkdir k ≠ EEXIST ->
  chooseOutputDirectory mkdir
  = Some (match mkdir k with
          | Made => Directory k
          | _ => CannotCreate
          end).
Proof.
  intros Hk Hbelow Hfree. unfold chooseOutputDirectory.
  rewrite (chooseFrom_least mkdir _ 0 k); [done|lia|lia|..].
  - intros j Hj. apply Hbelow. lia.
  - done.
Qed.

Lemma wrap32_small' a : 0 <= a < 2 ^ 32 -> wrap32 a = a.
Proof. unfold wrap32. apply Z.mod_small. Qed.

Lemma opens_files b suffix id files :
  ∃ new, opens b suffix id files = files ++ new ∧
    Forall (λ f, ∃ suffix, f = KleeHandler.getTestFilename suffix id) new.
Proof.
  destruct b; simpl.
  - exists [KleeHandler.getTestFilename suffix id]. split; [done|].
    constructor; [by eexists|done].
  - exists []. by rewrite app_nil_r.
Qed.

Lemma processTestCase_output o c h :
  NoOutput o = false ->
  let h1 := handlerOf (processTestCase o c h) in
  m_numTotalTests h1 = wrap32 (m_numTotalTests h + 1) ∧
  m_numGeneratedTests h1 =
    (if success c && written c then wrap32 (m_numGeneratedTests h + 1)
     else m_numGeneratedTests h) ∧
  haltExecution h1 =
    haltExecution h || (m_numGeneratedTests h1 =? StopAfterNTests o) ∧
  m_pathWriter h1 = m_pathWriter h ∧ m_symPathWriter h1 = m_symPathWriter h ∧
  ∃ new, opened h1 = opened h ++ new ∧
    Forall (λ f, ∃ suffix,
              f = KleeHandler.getTestFilename suffix (m_numTotalTests h1)) new.
Proof.
  intros Hout. unfold processTestCase. rewrite Hout.
  destruct (present (errorMessage c) && OptExitOnError o);
    cbn [handlerOf m_numTotalTests m_numGeneratedTests haltExecution
         m_pathWriter m_symPathWriter opened];
    (split_and!; [done..|]);
    repeat match goal with
    | |- context [opens ?b ?sfx ?id ?files] =>
        let new := fresh "new" in let E := fresh "E" in let F := fresh "F" in
        destruct (opens_files b sfx id files) as (new & E & F);
        rewrite E; clear E
    end;
    rewrite <- ?app_assoc; eexists; (split; [reflexivity|]);
    rewrite ?Forall_app; repeat split; assumption.
Qed.

Lemma processTestCases_run o cs : ∀ h h1,
  NoOutput o = false ->
  0 <= m_numGeneratedTests h <= m_numTotalTests h ->
  m_numTotalTests h + Z.of_nat (length cs) < 2 ^ 32 ->
  processTestCases o cs h = Back h1 ->
  m_numTotalTests h1 = m_numTotalTests h + Z.of_nat (length cs) ∧
  m_numGeneratedTests h1 =
    m_numGeneratedTests h +
    Z.of_nat (length (List.filter (λ c, success c && written c) cs)) ∧
  (∃ new, opened h1 = opened h ++ new ∧
     Forall (λ f, ∃ suffix id,
               m_numTotalTests h < id <= m_numTotalTests h1 ∧
               f = KleeHandler.getTestFilename suffix id) new) ∧
  (Forall (λ c, success c && written c = true) cs ->
   haltExecution h1 =
     haltExecution h ||
     bool_decide (m_numGeneratedTests h < StopAfterNTests o
                    <= m_numGeneratedTests h + Z.of_nat (length cs))).
Proof.
  induction cs as [|c cs IH]; intros h h1 Hout Hg Ht H.
  - injection H as <-. simpl. rewrite !Z.add_0_r.
    split_and!; [done..| |].
    + exists []. by rewrite app_nil_r.
    + intros _. rewrite bool_decide_eq_false_2 by lia. by rewrite orb_false_r.
  - cbn [processTestCases] in H.
    pose proof (processTestCase_output o c h Hout)
      as (Ht1 & Hg1 & Hh1 & _ & _ & new1 & Hf1 & Hn1).
    destruct (processTestCase o c h) as [h2|h2]; [|done].
    cbn [handlerOf] in *. simpl length in *.
    rewrite (wrap32_small' (m_numTotalTests h + 1)) in Ht1 by lia.
    assert (m_numGeneratedTests h2 =
            m_numGeneratedTests h + (if success c && written c then 1 else 0))
      as Hg2.
    { rewrite Hg1. destruct (success c && written c); [|lia].
      apply wrap32_small'. lia. }
    destruct (IH h2 h1 Hout) as (Ht' & Hg' & (new & Hf & Hn) & Hh');
      [destruct (success c && written c); lia|lia|done|].
    split_and!.
    + lia.
    + rewrite Hg', Hg2. simpl. destruct (success c && written c); simpl; lia.
    + exists (new1 ++ new). split; [by rewrite Hf, Hf1, app_assoc|].
      apply Forall_app. split.
      * eapply Forall_impl; [exact Hn1|]. intros f [suffix ->].
        exists suffix, (m_numTotalTests h2). split; [lia|done].
      * eapply Forall_impl; [exact Hn|]. intros f (suffix & id & Hid & ->).
        exists suffix, id. split; [lia|done].
    + intros [Hc Hcs]%Forall_cons. rewrite (Hh' Hcs), Hh1, Hg2, Hc.
      rewrite <- orb_assoc. f_equal.
      destruct (Z.eqb_spec (m_numGeneratedTests h + 1) (StopAfterNTests o))
        as [E|N].
      * simpl. symmetry. apply bool_decide_eq_true. lia.
      * simpl. apply bool_decide_ext. lia.
Qed.



(** X29.  When execution is halted for [-stop-after-n-tests].  In a run
    in which every test case is written, halt has been requested exactly
    when the limit is at least 1 and at most the number of test cases so
    far.  With the limit 0, the default, a first test case that is not
    written requests halt, because 0 tests generated equals the limit. *)
Theorem processTestCases_halt o cs pathWriter symPathWriter h :
  NoOutput o = false ->
  Z.of_nat (length cs) < 2 ^ 32 ->
  processTestCases o cs (fresh pathWriter symPathWriter) = Back h ->
  (Forall (λ c, success c && written c = true) cs ->
   haltExecution h
   = bool_decide (1 <= StopAfterNTests o <= Z.of_nat (length cs))) ∧
  (∀ c, success c && written c = false -> StopAfterNTests o = 0 ->
     haltExecution
       (handlerOf (processTestCase o c (fresh pathWriter symPathWriter)))
     = true).
Proof.
  intros Hout Hn H. split.
  - intros Hall.
    destruct (processTestCases_run o cs (fresh pathWriter symPathWriter) h Hout)
      as (_ & _ & _ & Hh);
      [simpl; lia|simpl; lia|done|].
    rewrite (Hh Hall). simpl. apply bool_decide_ext. lia.
  - intros c Hc HN.
    pose proof (processTestCase_output o c (fresh pathWriter symPathWriter)
                  Hout) as (_ & Hg & Hh & _).
    rewrite Hh, Hg, Hc, HN. done.
Qed.

Lemma chooseOutputDirectory_least_free_witness :
  let mkdir := λ i, if i <? 3 then EEXIST else Made in
  chooseOutputDirectory mkdir
  = Some (match mkdir 3 with
          | Made => Directory 3
          | _ => CannotCreate
          end).
Proof.
  intros mkdir. apply (chooseOutputDirectory_least_free mkdir 3).
  - lia.
  - intros j Hj. unfold mkdir. destruct (Z.ltb_spec j 3); [done|lia].
  - discriminate.
Defined.


Lemma processTestCases_halt_witness :
  let o := mkOptions false false false false false false false false 2 in
  let cs := [mkOutcome true true None ""; mkOutcome true true None "";
             mkOutcome true true None ""] in
  let h := handlerOf (processTestCases o cs (fresh false false)) in
  (Forall (λ c, success c && written c = true) cs ->
   haltExecution h
   = bool_decide (1 <= StopAfterNTests o <= Z.of_nat (length cs))) ∧
  (∀ c, success c && written c = false -> StopAfterNTests o = 0 ->
     haltExecution (handlerOf (processTestCase o c (fresh false false)))
     = true).
Proof.
  intros o cs h.
  apply (processTestCases_halt o cs false false h).
  - reflexivity.
  - vm_compute. reflexivity.
  - reflexivity.
Defined.

(** Three test cases: one written, one that ends in an error and whose
    test cannot be written, one without a solution. *)
Example test_case_run :
  let o := mkOptions false true false false false true false false 0 in
  let cs := [mkOutcome true true None "";
             mkOutcome true false (Some "memory error"%string) "ptr.err";
             mkOutcome false false None ""] in
  (λ h, (m_numTotalTests h, m_numGeneratedTests h, haltExecution h, opened h))
    (handlerOf (processTestCases o cs (fresh true false)))
  = (3, 1, false,
     ["test000001.ktest"; "test000001.call_path"; "test000001.path";
      "test000001.cov";
      "test000002.call_path"; "test000002.ptr.err"; "test000002.path";
      "test000002.kquery"; "test000002.cov";
      "test000003.path"; "test000003.cov"]%string) ∧
  chooseFrom (λ i, if i <? 3 then EEXIST else Made) 10 0
    = Some (Directory 3) ∧
  outputDirectoryName 3 = "klee-out-3"%string.
Proof. split_and!; vm_compute; reflexivity. Qed.

End TestCasesProps.

Module SymbolicRangeProps.
Import SymbolicRange.

(** C10: with [addr] and [name] non-null and [nbytes] equal to 0,
    [klee_make_symbolic_range] returns at once: no call is made, to
    [klee_check_memory_access], [klee_make_symbolic] or anything else,
    and no byte of memory changes. *)
Theorem klee_make_symbolic_range_zero_bytes
    (allocate : World -> Z -> Z) (accessible : World -> Z -> Z -> bool)
    (addr offset name : Z) (w : World) :
  addr ≠ 0 -> name ≠ 0 ->
  klee_make_symbolic_range allocate accessible addr offset 0 name w
    = (Returned tt, w).
Proof.
  intros Haddr Hname. unfold klee_make_symbolic_range.
  rewrite !bool_decide_eq_false_2 by done. reflexivity.
Qed.

Lemma klee_make_symbolic_range_zero_bytes_witness :
  klee_make_symbolic_range (λ _ _, 4096) (λ _ _ _, false) 64 8 0 200
    (mkWorld {[72 := Concrete 1]} [])
  = (Returned tt, mkWorld {[72 := Concrete 1]} []).
Proof.
  apply (klee_make_symbolic_range_zero_bytes (λ _ _, 4096) (λ _ _ _, false)
           64 8 200);
    lia.
Defined.

(** With bytes to make symbolic the calls are made and the range is
    overwritten; a range that is not accessible ends the run at the check,
    and a null buffer ends it in [klee_make_symbolic]. *)
Example klee_make_symbolic_range_two_bytes :
  let w := mkWorld {[72 := Concrete 1; 73 := Concrete 2; 74 := Concrete 3]}
                   [] in
  klee_make_symbolic_range (λ _ _, 4096) (λ _ _ _, true) 64 8 2 200 w
  = (Returned tt,
     mkWorld {[72 := Symbolic 200 0; 73 := Symbolic 200 1;
               74 := Concrete 3;
               4096 := Symbolic 200 0; 4097 := Symbolic 200 1]}
             [klee_check_memory_access 72 2; malloc 2 4096;
              klee_make_symbolic 4096 2 200; memcpy 72 4096 2;
              free 4096]) ∧
  klee_make_symbolic_range (λ _ _, 4096) (λ _ _ _, false) 64 8 2 200 w
  = (AssertionFailed,
     mkWorld (memory w) [klee_check_memory_access 72 2]) ∧
  klee_make_symbolic_range (λ _ _, 0) (λ _ _ _, true) 64 8 2 200 w
  = (NullDereference,
     mkWorld (memory w)
             [klee_check_memory_access 72 2; malloc 2 0;
              klee_make_symbolic 0 2 200]).
Proof. split_and!; vm_compute; reflexivity. Qed.

Lemma lookup_makeSymbolicBytes addr name (m : gmap Z Byte) k (l : list Z) :
  foldr (λ i acc, <[addr + i := Symbolic name i]> acc) m l !! k
  = if decide (k - addr ∈ l) then Some (Symbolic name (k - addr)) else m !! k.
Proof.
  induction l as [|i l IH]; cbn [foldr].
  - rewrite decide_False; [done|]. by intros ?%elem_of_nil.
  - destruct (decide (k = addr + i)) as [->|Hne].
    + rewrite lookup_insert_eq, decide_True.
      * do 2 f_equal. lia.
      * replace (addr + i - addr) with i by lia. apply list_elem_of_here.
    + rewrite lookup_insert_ne by done. rewrite IH.
      destruct (decide (k - addr ∈ l)) as [Hin|Hn].
      * rewrite decide_True; [done|]. by apply list_elem_of_further.
      * rewrite decide_False; [done|].
        intros [E|?]%elem_of_cons; [lia|done].
Qed.

Lemma lookup_copyBytes dest src (m : gmap Z Byte) k (l : list Z) :
  foldr (λ i acc, match m !! (src + i) with
                  | Some b => <[dest + i := b]> acc
                  | None => delete (dest + i) acc
                  end) m l !! k
  = if decide (k - dest ∈ l) then m !! (src + (k - dest)) else m !! k.
Proof.
  induction l as [|i l IH]; cbn [foldr].
  - rewrite decide_False; [done|]. by intros ?%elem_of_nil.
  - destruct (decide (k = dest + i)) as [->|Hne].
    + rewrite decide_True
        by (replace (dest + i - dest) with i by lia; apply list_elem_of_here).
      replace (dest + i - dest) with i by lia.
      destruct (m !! (src + i)) eqn:E.
      * by rewrite lookup_insert_eq.
      * by rewrite lookup_delete_eq.
    + assert (∀ acc : gmap Z Byte,
               match m !! (src + i) with
               | Some b => <[dest + i := b]> acc
               | None => delete (dest + i) acc
               end !! k = acc !! k) as ->.
      { intros acc. destruct (m !! (src + i)).
        - by rewrite lookup_insert_ne.
        - by rewrite lookup_delete_ne. }
      rewrite IH.
      destruct (decide (k - dest ∈ l)) as [Hin|Hn].
      * rewrite decide_True; [done|]. by apply list_elem_of_further.
      * rewrite decide_False; [done|].
        intros [E|?]%elem_of_cons; [lia|done].
Qed.

(** X26.  With [addr] and [name] non-null and bytes to make symbolic,
    [klee_make_symbolic_range] first has the range at [addr + offset]
    checked.  Where the range is not accessible the run ends at the check,
    with no other call made and no byte changed.  Where [malloc] then
    returns the null pointer the run ends in [klee_make_symbolic], which
    is handed it, again with no byte changed.  Where the range is
    accessible and the buffer is there and does not overlap the range, the
    function returns after exactly five calls, in the order check,
    [malloc], [klee_make_symbolic], [memcpy], [free]; every byte of the
    range is then the byte of the same index of the fresh symbolic object
    named [name]; and no byte outside the range and the buffer has
    changed. *)
Theorem klee_make_symbolic_range_overwrites
    (allocate : World -> Z -> Z) (accessible : World -> Z -> Z -> bool)
    (addr offset nbytes name : Z) (w : World) :
  let start := wrap64 (addr + offset) in
  let symbolic_data :=
    allocate (did (klee_check_memory_access start nbytes) w) nbytes in
  addr ≠ 0 -> name ≠ 0 -> 0 < nbytes ->
  (accessible w start nbytes = false ->
   klee_make_symbolic_range allocate accessible addr offset nbytes name w
     = (AssertionFailed, did (klee_check_memory_access start nbytes) w)) ∧
  (accessible w start nbytes = true -> symbolic_data = 0 ->
   klee_make_symbolic_range allocate accessible addr offset nbytes name w
     = (NullDereference,
        mkWorld (memory w)
          (effects w ++
           [klee_check_memory_access start nbytes; malloc nbytes 0;
            klee_make_symbolic 0 nbytes name]))) ∧
  (accessible w start nbytes = true -> symbolic_data ≠ 0 ->
   (∀ i j, 0 <= i < nbytes -> 0 <= j < nbytes ->
      symbolic_data + i ≠ start + j) ->
   ∃ w', klee_make_symbolic_range allocate accessible addr offset nbytes name w
           = (Returned tt, w') ∧
     effects w' =
       effects w ++
       [klee_check_memory_access start nbytes; malloc nbytes symbolic_data;
        klee_make_symbolic symbolic_data nbytes name;
        memcpy start symbolic_data nbytes; free symbolic_data] ∧
     (∀ i, 0 <= i < nbytes ->
        memory w' !! (start + i) = Some (Symbolic name i)) ∧
     (∀ k, ¬ (start <= k < start + nbytes) ->
           ¬ (symbolic_data <= k < symbolic_data + nbytes) ->
        memory w' !! k = memory w !! k)).
Proof.
  intros start symbolic_data Haddr Hname Hn.
  unfold klee_make_symbolic_range.
  rewrite !bool_decide_eq_false_2 by done.
  destruct (Z.eqb_spec nbytes 0) as [|_]; [lia|].
  fold start. fold symbolic_data. split_and!.
  - intros ->. reflexivity.
  - intros -> E. rewrite E. cbn [negb Z.eqb]. unfold did.
    cbn [effects memory]. by rewrite <- !app_assoc.
  - intros -> Hbuf Hdisjoint. cbn [negb].
    destruct (Z.eqb_spec symbolic_data 0) as [|_]; [done|].
    eexists. split; [reflexivity|].
    cbn [effects memory did]. split_and!.
    + by rewrite <- !app_assoc.
    + intros i Hi. unfold copyBytes. cbn [memory].
      rewrite lookup_copyBytes.
      rewrite decide_True by (apply elem_of_seqZ; lia).
      unfold makeSymbolicBytes. rewrite lookup_makeSymbolicBytes.
      rewrite decide_True by (apply elem_of_seqZ; lia).
      do 2 f_equal. lia.
    + intros k Hk1 Hk2. unfold copyBytes. cbn [memory].
      rewrite lookup_copyBytes.
      rewrite decide_False by (rewrite elem_of_seqZ; lia).
      unfold makeSymbolicBytes. rewrite lookup_makeSymbolicBytes.
      rewrite decide_False by (rewrite elem_of_seqZ; lia). done.
Qed.

Lemma klee_make_symbolic_range_overwrites_witness :
  let w := mkWorld {[72 := Concrete 1; 73 := Concrete 2; 74 := Concrete 3]}
                   [] in
  let accessible := λ (_ : World) (start nbytes : Z),
    (72 <=? start) && (start + nbytes <=? 75) in
  ∃ w', klee_make_symbolic_range (λ _ _, 4096) accessible 64 8 2 200 w
          = (Returned tt, w') ∧
    effects w' =
      effects w ++
      [klee_check_memory_access (wrap64 (64 + 8)) 2; malloc 2 4096;
       klee_make_symbolic 4096 2 200; memcpy (wrap64 (64 + 8)) 4096 2;
       free 4096] ∧
    (∀ i, 0 <= i < 2 ->
       memory w' !! (wrap64 (64 + 8) + i) = Some (Symbolic 200 i)) ∧
    (∀ k, ¬ (wrap64 (64 + 8) <= k < wrap64 (64 + 8) + 2) ->
          ¬ (4096 <= k < 4096 + 2) ->
       memory w' !! k = memory w !! k).
Proof.
  intros w accessible.
  refine (proj2 (proj2 (klee_make_symbolic_range_overwrites (λ _ _, 4096)
                          accessible 64 8 2 200 w _ _ _)) _ _ _);
    [lia|lia|lia|vm_compute; reflexivity|simpl; lia|].
  intros i j Hi Hj. change (wrap64 (64 + 8)) with 72. simpl. lia.
Defined.

End SymbolicRangeProps.
